(** * wasmd-indexer: the wasm export module, webhook queue and DAO core formulas

    A shallow embedding of
    - [src/scripts/export/modules/wasm.ts]  (handler, flush, exporter),
    - the [PendingWebhook] model            (fire, queueWebhooks),
    - the DAO core formulas                 (config, proposalModules,
      activeProposalModules, paused, admin, adminNomination, item, listItems,
      cw20List, cw721List, listSubDaos, daoUri, votingPower, totalPower),
    followed by the properties established about them. *)

From Stdlib Require Import ZArith NArith String Ascii List DecimalString DecimalPos DecimalN
  Sorted Lia.
From stdpp Require Import gmap strings list.

Set Warnings "-register-all".

Local Open Scope string_scope.
Local Open Scope N_scope.

(** ** JavaScript values *)

(** The values that flow through the code: JSON documents read from contract
    state, [undefined], and the built-in function objects one reaches through
    a prototype.  Numbers are integers: nothing below does arithmetic on
    them. *)
Inductive JsValue : Type :=
| JUndefined
| JNull
| JBool (b : bool)
| JNum (n : Z)
| JStr (s : string)
| JArr (items : list JsValue)
| JObj (fields : list (string * JsValue))
| JBuiltin (name : string).

(** How an evaluation completes: normally with a value, or abruptly with a
    thrown error. *)
Inductive outcome (A : Type) : Type :=
| Returns (a : A)
| Throws.
Arguments Returns {A} a.
Arguments Throws {A}.

(** A promise is the handle of an asynchronous evaluation.  [await] on a
    promise gives its settlement; a promise is an object in its own right and
    has the properties of its prototype chain and no others. *)
Record Promise (A : Type) : Type := mkPromise { settled : outcome A }.
Arguments mkPromise {A} settled.
Arguments settled {A} p.

Definition resolve {A} (a : A) : Promise A := mkPromise (Returns a).
Definition reject {A} : Promise A := mkPromise Throws.

(** Number-to-string conversion of a non-negative integer below 1e21. *)
Definition N_toString (n : N) : string := NilZero.string_of_uint (N.to_uint n).

Definition Z_toString (z : Z) : string :=
  match z with
  | Z0 => "0"
  | Zpos p => N_toString (Npos p)
  | Zneg p => "-" +:+ N_toString (Npos p)
  end.

(** [ToString], as applied by [+] when the other operand is a string. *)
Fixpoint js_toString (v : JsValue) : string :=
  match v with
  | JUndefined => "undefined"
  | JNull => "null"
  | JBool true => "true"
  | JBool false => "false"
  | JNum n => Z_toString n
  | JStr s => s
  | JArr items =>
      (fix join (l : list JsValue) : string :=
         match l with
         | [] => ""
         | x :: l' =>
             let sx := match x with
                       | JUndefined | JNull => ""
                       | _ => js_toString x
                       end in
             match l' with
             | [] => sx
             | _ :: _ => sx +:+ "," +:+ join l'
             end
         end) items
  | JObj _ => "[object Object]"
  | JBuiltin name => "function " +:+ name +:+ "() { [native code] }"
  end.

(** ** Plain objects used as string-keyed records *)

(** An object literal [{}] that the code fills by assignment.  Own properties
    are kept in creation order; assigning to an existing key replaces the
    value and keeps the key's position. *)
Section JsObject.
Context {V : Type}.

Fixpoint obj_set (k : string) (v : V) (o : list (string * V)) : list (string * V) :=
  match o with
  | [] => [(k, v)]
  | (k', v') :: o' =>
      if String.eqb k' k then (k', v) :: o' else (k', v') :: obj_set k v o'
  end.

Fixpoint obj_get (k : string) (o : list (string * V)) : option V :=
  match o with
  | [] => None
  | (k', v') :: o' => if String.eqb k' k then Some v' else obj_get k o'
  end.

(** A property key is an array index when it is the canonical decimal form
    of an integer in [0, 2^32 - 2]. *)
Definition array_index (k : string) : option N :=
  match NilZero.uint_of_string k with
  | Some u =>
      let n := N.of_uint u in
      if String.eqb (N_toString n) k && (n <=? 4294967294) then Some n else None
  | None => None
  end.

Fixpoint insert_by_index (n : N) (v : V) (l : list (N * V)) : list (N * V) :=
  match l with
  | [] => [(n, v)]
  | (m, w) :: l' =>
      if n <=? m then (n, v) :: l else (m, w) :: insert_by_index n v l'
  end.

Fixpoint index_props (o : list (string * V)) : list (N * V) :=
  match o with
  | [] => []
  | (k, v) :: o' =>
      match array_index k with
      | Some n => insert_by_index n v (index_props o')
      | None => index_props o'
      end
  end.

Fixpoint string_props (o : list (string * V)) : list V :=
  match o with
  | [] => []
  | (k, v) :: o' =>
      match array_index k with
      | Some _ => string_props o'
      | None => v :: string_props o'
      end
  end.

(** [Object.values]: array-index keys first, in ascending numeric order,
    then the other keys in creation order. *)
Definition Object_values (o : list (string * V)) : list V :=
  map snd (index_props o) ++ string_props o.
End JsObject.

(** ** Records of the export module *)

(** [IndexerWasmEvent], one line of the source file. *)
Record IndexerWasmEvent : Type := mkIndexerWasmEvent {
  ie_blockHeight : N;
  ie_blockTimeUnixMs : N;
  ie_contractAddress : string;
  ie_codeId : N;
  ie_key : string;
  ie_value : string;
  ie_delete : bool
}.

(** [ParsedWasmEvent].  [blockHeight] and [blockTimeUnixMs] are carried by the
    source as the decimal strings of these numbers; where the source compares
    the strings, the model renders them with [N_toString].  [blockTimestamp]
    is the [Date] built from [blockTimeUnixMs], kept as its millisecond
    count. *)
Record ParsedWasmEvent : Type := mkParsedWasmEvent {
  pe_codeId : N;
  pe_contractAddress : string;
  pe_blockHeight : N;
  pe_blockTimeUnixMs : N;
  pe_blockTimestamp : N;
  pe_key : string;
  pe_value : string;
  pe_valueJson : JsValue;
  pe_delete : bool
}.

(** ** flush: deduplication *)

(** [event.blockHeight + event.contractAddress + event.key]: a number and two
    strings joined by [+], with nothing in between. *)
Definition dedupKey (event : IndexerWasmEvent) : string :=
  N_toString (ie_blockHeight event) +:+ ie_contractAddress event +:+ ie_key event.

(** [pending.reduce((acc, event) => { acc[key] = event; return acc }, {})] *)
Definition uniqueIndexerEvents (pending : list IndexerWasmEvent)
  : list (string * IndexerWasmEvent) :=
  fold_left (fun acc event => obj_set (dedupKey event) event acc) pending [].

Definition eventsToExport (pending : list IndexerWasmEvent) : list IndexerWasmEvent :=
  Object_values (uniqueIndexerEvents pending).

(** The triple the comment in [flush] and the unique index speak of. *)
Definition ie_triple (e : IndexerWasmEvent) : N * string * string :=
  (ie_blockHeight e, ie_contractAddress e, ie_key e).

(** ** flush: normalisation *)

(** What the module takes from the platform and from [@/core]:
    [Buffer.from(s, 'base64').toString('utf-8')], [JSON.parse] (which throws
    on malformed text) and [base64KeyToEventKey]. *)
Class Codec : Type := {
  base64ToUtf8 : string -> string;
  JSON_parse : string -> outcome JsValue;
  base64KeyToEventKey : string -> string
}.

Definition truthy_string (s : string) : bool := negb (String.eqb s "").

Section Parse.
Context `{Codec}.

(** [event.value && Buffer.from(event.value, 'base64').toString('utf-8')]:
    an empty [event.value] is falsy and is itself the result. *)
Definition decodedValue (event : IndexerWasmEvent) : string :=
  if truthy_string (ie_value event) then base64ToUtf8 (ie_value event)
  else ie_value event.

Definition parsedValueJson (event : IndexerWasmEvent) : JsValue :=
  let value := decodedValue event in
  if negb (ie_delete event) && truthy_string value then
    match JSON_parse value with
    | Returns j => j
    | Throws => JNull
    end
  else JNull.

(** The callback of [eventsToExport.map]. *)
Definition parseEvent (event : IndexerWasmEvent) : ParsedWasmEvent :=
  {| pe_codeId := ie_codeId event;
     pe_contractAddress := ie_contractAddress event;
     pe_blockHeight := ie_blockHeight event;
     pe_blockTimeUnixMs := ie_blockTimeUnixMs event;
     pe_blockTimestamp := ie_blockTimeUnixMs event;
     pe_key := base64KeyToEventKey (ie_key event);
     pe_value := decodedValue event;
     pe_valueJson := parsedValueJson event;
     pe_delete := ie_delete event |}.

Definition parsedEvents (pending : list IndexerWasmEvent) : list ParsedWasmEvent :=
  map parseEvent (eventsToExport pending).
End Parse.

(** ** The database *)

(** A [Contract] row. *)
Record Contract : Type := mkContract {
  c_address : string;
  c_codeId : N;
  c_instantiatedAtBlockHeight : N;
  c_instantiatedAtBlockTimeUnixMs : N;
  c_instantiatedAtBlockTimestamp : N
}.

(** A [WasmEvent] row: the generated [id] and the columns given by a
    [ParsedWasmEvent]. *)
Record WasmEventRow : Type := mkWasmEventRow {
  row_id : N;
  row_data : ParsedWasmEvent
}.

(** The singleton [State] row.  [lastWasmBlockHeightExported] may be unset:
    the module reads it with [?? '0']. *)
Record StateRow : Type := mkStateRow {
  lastWasmBlockHeightExported : option N;
  latestBlockHeight : N;
  latestBlockTimeUnixMs : N
}.

Inductive WebhookEndpoint : Type :=
| Url (method url : string) (headers : list (string * string))
| Soketi (channel event : string).

(** A [PendingWebhook] row.  The table is a list in creation order. *)
Record PendingWebhook : Type := mkPendingWebhook {
  pw_eventId : N;
  pw_endpoint : WebhookEndpoint;
  pw_value : JsValue;
  pw_failures : N
}.

(** The tables the code under study writes, the tables [aux] owned by the
    modules it calls into (transformations, computations, account webhooks,
    search index), and [faults]: what the coming attempts of the contract
    bulk insert will do, [true] for an attempt that raises (a deadlock);
    past the end of the list every attempt succeeds. *)
Record DB (Aux : Type) : Type := mkDB {
  contracts : gmap string Contract;
  events : gmap (N * string * string) WasmEventRow;
  nextEventId : N;
  state : option StateRow;
  pendingWebhooks : list PendingWebhook;
  aux : Aux;
  faults : list bool
}.
Arguments mkDB {Aux}.
Arguments contracts {Aux} d.
Arguments events {Aux} d.
Arguments nextEventId {Aux} d.
Arguments state {Aux} d.
Arguments pendingWebhooks {Aux} d.
Arguments aux {Aux} d.
Arguments faults {Aux} d.

(** *** Bulk insert with [updateOnDuplicate] *)

(** [Model.bulkCreate(rows, { updateOnDuplicate })], one
    [INSERT ... ON CONFLICT DO UPDATE], row by row: a row whose key is free
    is inserted, taking the next generated id; a row whose key is taken
    updates the listed columns of the stored row and nothing else.  The id
    sequence advances for every row attempted, inserted or not: the column
    default is evaluated before the conflict is seen. *)
Section Upsert.
Context `{Countable K} {V : Type}.
Variable keyOf : V -> K.
Variable merge : V -> V -> V.
Variable stamp : N -> V -> V.

Definition upsert (t : gmap K V * N) (r : V) : gmap K V * N :=
  match t.1 !! keyOf r with
  | Some old => (<[keyOf r := merge old r]> t.1, t.2 + 1)
  | None => (<[keyOf r := stamp t.2 r]> t.1, t.2 + 1)
  end.

Definition bulkUpsert (rows : list V) (t : gmap K V * N) : gmap K V * N :=
  fold_left upsert rows t.

(** The position, counted from 1, of the first row whose key an earlier row
    of the same statement has; [None] when the keys are pairwise
    different. *)
Fixpoint firstRepeat (seen : list K) (rows : list V) : option N :=
  match rows with
  | [] => None
  | r :: rows' =>
      if bool_decide (keyOf r ∈ seen) then Some 1
      else N.succ <$> firstRepeat (keyOf r :: seen) rows'
  end.

(** The statement as the database runs it.  PostgreSQL refuses to touch a
    row twice in one [ON CONFLICT DO UPDATE]: when two rows of the statement
    have the same key it raises at the second of them, the table is left as
    it was, and the ids drawn so far are lost. *)
Definition bulkCreate (rows : list V) (t : gmap K V * N)
  : (gmap K V * N) * outcome unit :=
  match firstRepeat [] rows with
  | Some n => ((t.1, t.2 + n), Throws)
  | None => (bulkUpsert rows t, Returns tt)
  end.

(** The last of [rows] with key [k]. *)
Fixpoint lastFor (k : K) (rows : list V) : option V :=
  match rows with
  | [] => None
  | r :: rows' =>
      match lastFor k rows' with
      | Some x => Some x
      | None => if decide (keyOf r = k) then Some r else None
      end
  end.
End Upsert.

(** [updateOnDuplicate: ['codeId']] *)
Definition mergeContract (old new : Contract) : Contract :=
  {| c_address := c_address old;
     c_codeId := c_codeId new;
     c_instantiatedAtBlockHeight := c_instantiatedAtBlockHeight old;
     c_instantiatedAtBlockTimeUnixMs := c_instantiatedAtBlockTimeUnixMs old;
     c_instantiatedAtBlockTimestamp := c_instantiatedAtBlockTimestamp old |}.

(** [Contract.bulkCreate]; the primary key is [address], no id is generated.
    The rows the exporter hands over have pairwise different addresses, so
    the statement is never refused for touching a row twice. *)
Definition Contract_bulkCreate (rows : list Contract) (t : gmap string Contract)
  : gmap string Contract :=
  (bulkUpsert c_address mergeContract (fun _ r => r) rows (t, 0)).1.

Definition eventKey (p : ParsedWasmEvent) : N * string * string :=
  (pe_blockHeight p, pe_contractAddress p, pe_key p).

Definition rowKey (r : WasmEventRow) : N * string * string := eventKey (row_data r).

(** [updateOnDuplicate: ['value', 'valueJson', 'delete']] *)
Definition mergeEvent (old new : WasmEventRow) : WasmEventRow :=
  let o := row_data old in
  let n := row_data new in
  {| row_id := row_id old;
     row_data :=
       {| pe_codeId := pe_codeId o;
          pe_contractAddress := pe_contractAddress o;
          pe_blockHeight := pe_blockHeight o;
          pe_blockTimeUnixMs := pe_blockTimeUnixMs o;
          pe_blockTimestamp := pe_blockTimestamp o;
          pe_key := pe_key o;
          pe_value := pe_value n;
          pe_valueJson := pe_valueJson n;
          pe_delete := pe_delete n |} |}.

Definition stampEvent (id : N) (r : WasmEventRow) : WasmEventRow :=
  {| row_id := id; row_data := row_data r |}.

Definition unsavedRow (p : ParsedWasmEvent) : WasmEventRow :=
  {| row_id := 0; row_data := p |}.

(** What [WasmEvent.bulkCreate(parsedEvents, ...)] does to the table and its
    id sequence when the database accepts it; the unique index is on
    [blockHeight, contractAddress, key]. *)
Definition WasmEvent_upsertRows (parsed : list ParsedWasmEvent)
    (t : gmap (N * string * string) WasmEventRow * N)
  : gmap (N * string * string) WasmEventRow * N :=
  bulkUpsert rowKey mergeEvent stampEvent (map unsavedRow parsed) t.

(** [WasmEvent.bulkCreate(parsedEvents, { updateOnDuplicate: [...] })]: it
    is refused when two records of the batch have the same block height,
    contract address and key. *)
Definition WasmEvent_bulkCreate (parsed : list ParsedWasmEvent)
    (t : gmap (N * string * string) WasmEventRow * N)
  : (gmap (N * string * string) WasmEventRow * N) * outcome unit :=
  bulkCreate rowKey mergeEvent stampEvent (map unsavedRow parsed) t.

(** The instances [bulkCreate] hands back, one per input record in input
    order: the stored row for that record's key. *)
Definition createdInstances (parsed : list ParsedWasmEvent)
    (t : gmap (N * string * string) WasmEventRow) : list WasmEventRow :=
  omap (fun p => t !! eventKey p) parsed.

(** [GREATEST(column, x)], which skips a NULL column. *)
Definition GREATEST (column : option N) (x : N) : N :=
  match column with
  | Some c => N.max c x
  | None => x
  end.

(** ** Webhooks *)

(** A [WasmEvent] instance in memory: the row and, once the exporter has set
    it, [event.contract]. *)
Record WasmEvent : Type := mkWasmEvent {
  we_row : WasmEventRow;
  we_contract : option Contract
}.

Definition we_id (e : WasmEvent) : N := row_id (we_row e).
Definition we_blockHeight (e : WasmEvent) : N := pe_blockHeight (row_data (we_row e)).
Definition we_blockTimeUnixMs (e : WasmEvent) : N := pe_blockTimeUnixMs (row_data (we_row e)).
Definition we_contractAddress (e : WasmEvent) : string := pe_contractAddress (row_data (we_row e)).
Definition we_key (e : WasmEvent) : string := pe_key (row_data (we_row e)).
Definition we_valueJson (e : WasmEvent) : JsValue := pe_valueJson (row_data (we_row e)).
Definition we_delete (e : WasmEvent) : bool := pe_delete (row_data (we_row e)).

(** The environment handed to a webhook: the event's block, the contract
    cache holding the event's contract, and [contractAddress]. *)
Record ContractEnv : Type := mkContractEnv {
  env_block : N * N;
  env_cache : list (string * Contract);
  env_contractAddress : string
}.

(** What the endpoint of a webhook is or resolves to: an endpoint,
    [undefined] or [null]. *)
Inductive EndpointResult : Type :=
| EndpointUndefined
| EndpointNull
| EndpointIs (e : WebhookEndpoint).

Inductive EndpointSource : Type :=
| StaticEndpoint (r : EndpointResult)
| EndpointFunction (f : WasmEvent -> ContractEnv -> outcome EndpointResult).

(** A processed webhook.  [getValue] receives the [getPrevious] thunk and
    answers any value, [JUndefined] and [JNull] included. *)
Record Webhook : Type := mkWebhook {
  wh_filter : WasmEvent -> bool;
  wh_getValue : WasmEvent -> (unit -> Promise JsValue) -> ContractEnv -> outcome JsValue;
  wh_endpoint : EndpointSource
}.

(** Modelled from the spec: [WasmEvent.getPreviousEvent], whose model file is
    not part of the sources at hand.  The spec has the fallback return the
    most recent stored event of the same contract and key at a strictly lower
    block. *)
Definition getPreviousEvent (store : gmap (N * string * string) WasmEventRow)
    (event : WasmEvent) : option WasmEventRow :=
  fold_right
    (fun (r : WasmEventRow) (best : option WasmEventRow) =>
       if String.eqb (pe_contractAddress (row_data r)) (we_contractAddress event)
          && String.eqb (pe_key (row_data r)) (we_key event)
          && (pe_blockHeight (row_data r) <? we_blockHeight event)
       then match best with
            | Some b =>
                if pe_blockHeight (row_data b) <? pe_blockHeight (row_data r)
                then Some r else Some b
            | None => Some r
            end
       else best)
    None (map snd (map_to_list store)).

(** The filter of the [getPrevious] thunk, as written: the key test compares
    [e.key] with itself, and the block heights, which the instances hold as
    decimal strings, are compared as strings. *)
Definition previousInBatch (events : list WasmEvent) (event : WasmEvent)
  : option WasmEvent :=
  last (List.filter
          (fun e =>
             String.eqb (we_contractAddress e) (we_contractAddress event)
             && String.eqb (we_key e) (we_key e)
             && String.ltb (N_toString (we_blockHeight e))
                           (N_toString (we_blockHeight event)))
          events).

Definition getPrevious (store : gmap (N * string * string) WasmEventRow)
    (events : list WasmEvent) (event : WasmEvent) : unit -> Promise JsValue :=
  fun _ =>
    match previousInBatch events event with
    | Some previousEvent =>
        resolve (if we_delete previousEvent then JNull else we_valueJson previousEvent)
    | None =>
        match getPreviousEvent store event with
        | None => resolve JNull
        | Some lastEvent =>
            resolve (if pe_delete (row_data lastEvent) then JNull
                     else pe_valueJson (row_data lastEvent))
        end
    end.

(** The predicate the spec asks for: same contract, same key as [event],
    strictly lower block. *)
Definition previousInBatch_spec (events : list WasmEvent) (event : WasmEvent)
  : option WasmEvent :=
  last (List.filter
          (fun e =>
             String.eqb (we_contractAddress e) (we_contractAddress event)
             && String.eqb (we_key e) (we_key event)
             && (we_blockHeight e <? we_blockHeight event))
          events).

Definition webhookEnv (event : WasmEvent) (contract : Contract) : ContractEnv :=
  {| env_block := (we_blockHeight event, we_blockTimeUnixMs event);
     env_cache := [(c_address contract, contract)];
     env_contractAddress := we_contractAddress event |}.

(** The value of one (event, webhook) pair: [getValue] under [try]; a throw
    leaves [value] undefined. *)
Definition webhookValue (store : gmap (N * string * string) WasmEventRow)
    (events : list WasmEvent) (event : WasmEvent) (env : ContractEnv)
    (webhook : Webhook) : JsValue :=
  match wh_getValue webhook event (getPrevious store events event) env with
  | Returns value => value
  | Throws => JUndefined
  end.

(** The endpoint of one pair: the function is called under [try], a plain
    endpoint is taken as it is; a throw leaves [endpoint] undefined. *)
Definition webhookEndpoint (event : WasmEvent) (env : ContractEnv)
    (webhook : Webhook) : EndpointResult :=
  match wh_endpoint webhook with
  | StaticEndpoint endpoint => endpoint
  | EndpointFunction f =>
      match f event env with
      | Returns endpoint => endpoint
      | Throws => EndpointUndefined
      end
  end.

(** An object handed to [PendingWebhook.bulkCreate]: [eventId], [endpoint]
    ([None] when it is [null]), [value] and [failures]. *)
Record PendingWebhookAttributes : Type := mkPendingWebhookAttributes {
  attr_eventId : N;
  attr_endpoint : option WebhookEndpoint;
  attr_value : JsValue;
  attr_failures : N
}.

(** The async callback of [webhooksForEvent.map].  Reading
    [event.contract.address] on an event without contract throws outside
    every [try].  Only [undefined] stops a pair: [null], as a value or as an
    endpoint, goes on into the row. *)
Definition pendingWebhookFor (store : gmap (N * string * string) WasmEventRow)
    (events : list WasmEvent) (event : WasmEvent) (webhook : Webhook)
  : outcome (option PendingWebhookAttributes) :=
  match we_contract event with
  | None => Throws
  | Some contract =>
      let env := webhookEnv event contract in
      match webhookValue store events event env webhook,
            webhookEndpoint event env webhook with
      | JUndefined, _ => Returns None
      | _, EndpointUndefined => Returns None
      | value, EndpointNull =>
          Returns (Some {| attr_eventId := we_id event;
                           attr_endpoint := None;
                           attr_value := value;
                           attr_failures := 0 |})
      | value, EndpointIs endpoint =>
          Returns (Some {| attr_eventId := we_id event;
                           attr_endpoint := Some endpoint;
                           attr_value := value;
                           attr_failures := 0 |})
      end
  end.

(** [Promise.all]: every result, or the throw of the first that throws. *)
Fixpoint Promise_all {A} (l : list (outcome A)) : outcome (list A) :=
  match l with
  | [] => Returns []
  | Returns a :: l' =>
      match Promise_all l' with
      | Returns r => Returns (a :: r)
      | Throws => Throws
      end
  | Throws :: _ => Throws
  end.

(** [v === null] *)
Definition js_isNull (v : JsValue) : bool :=
  match v with
  | JNull => true
  | _ => false
  end.

(** The row the table takes for an object handed to [bulkCreate]: the
    columns [endpoint] and [value] are declared [@AllowNull(false)], so
    there is none when either is [null]. *)
Definition storedPendingWebhook (attributes : PendingWebhookAttributes)
  : option PendingWebhook :=
  match attr_endpoint attributes with
  | None => None
  | Some endpoint =>
      if js_isNull (attr_value attributes) then None
      else Some {| pw_eventId := attr_eventId attributes;
                   pw_endpoint := endpoint;
                   pw_value := attr_value attributes;
                   pw_failures := attr_failures attributes |}
  end.

(** The rows the table takes for the objects of one [bulkCreate], if it
    takes them all. *)
Fixpoint storedPendingWebhooks (rows : list PendingWebhookAttributes)
  : option (list PendingWebhook) :=
  match rows with
  | [] => Some []
  | attributes :: rows' =>
      match storedPendingWebhook attributes, storedPendingWebhooks rows' with
      | Some row, Some created => Some (row :: created)
      | _, _ => None
      end
  end.

(** [PendingWebhook.bulkCreate(rows)], a plain insert of all rows in one
    statement: they are appended to the table, or, when the database refuses
    one of them, the call throws and none is. *)
Definition PendingWebhook_bulkCreate (rows : list PendingWebhookAttributes)
    (table : list PendingWebhook) : list PendingWebhook * outcome nat :=
  match storedPendingWebhooks rows with
  | Some created => ((table ++ created)%list, Returns (length created))
  | None => (table, Throws)
  end.

(** [PendingWebhook.queueWebhooks] given the processed webhooks. *)
Definition queueWebhooks (webhooks : list Webhook)
    (store : gmap (N * string * string) WasmEventRow)
    (table : list PendingWebhook) (events : list WasmEvent)
  : list PendingWebhook * outcome nat :=
  match webhooks with
  | [] => (table, Returns 0%nat)
  | _ :: _ =>
      match Promise_all
              (flat_map
                 (fun event =>
                    let webhooksForEvent :=
                      List.filter (fun webhook => wh_filter webhook event) webhooks in
                    map (pendingWebhookFor store events event) webhooksForEvent)
                 events) with
      | Throws => (table, Throws)
      | Returns results =>
          let pendingWebhooksToCreate := omap (fun w => w) results in
          match pendingWebhooksToCreate with
          | [] => (table, Returns 0%nat)
          | _ :: _ => PendingWebhook_bulkCreate pendingWebhooksToCreate table
          end
      end
  end.

(** ** exporter *)

(** The modules the exporter calls into whose code is not among the sources
    at hand.  They act on tables of their own, [Aux]; of their results the
    exporter uses the counts and the list of transformations. *)
Class Collaborators (Aux Transformation : Type) : Type := {
  getProcessedWebhooks : StateRow -> list Webhook;
  transformParsedEvents : list ParsedWasmEvent -> Aux -> Aux * list Transformation;
  updateComputationValidityDependentOnChanges :
    list WasmEvent -> list Transformation -> Aux -> Aux * (nat * nat);
  AccountWebhook_queueWebhooks : list WasmEvent -> Aux -> Aux * nat;
  updateIndexesForContracts : list Contract -> Aux -> Aux
}.

Record ExportResult : Type := mkExportResult {
  computationsUpdated : nat;
  computationsDestroyed : nat;
  transformations : nat;
  webhooksQueued : nat;
  lastBlockHeightExported : N
}.

(** [[...new Set(l)]]: the distinct elements in order of first occurrence. *)
Fixpoint uniqueStrings (l : list string) : list string :=
  match l with
  | [] => []
  | x :: l' => x :: List.filter (fun y => negb (String.eqb y x)) (uniqueStrings l')
  end.

(** The rows handed to [Contract.bulkCreate]: for each address the first
    event of the batch with that address; the callback throws when there is
    none. *)
Fixpoint contractRows (parsedEvents : list ParsedWasmEvent)
    (uniqueContracts : list string) : outcome (list Contract) :=
  match uniqueContracts with
  | [] => Returns []
  | address :: rest =>
      match List.find (fun event => String.eqb (pe_contractAddress event) address)
                      parsedEvents with
      | None => Throws
      | Some event =>
          match contractRows parsedEvents rest with
          | Throws => Throws
          | Returns rows =>
              Returns ({| c_address := address;
                          c_codeId := pe_codeId event;
                          c_instantiatedAtBlockHeight := pe_blockHeight event;
                          c_instantiatedAtBlockTimeUnixMs := pe_blockTimeUnixMs event;
                          c_instantiatedAtBlockTimestamp := pe_blockTimestamp event |}
                       :: rows)
          end
      end
  end.

(** [exportedEvents.forEach((event) => { event.contract = contracts.find(...)! })] *)
Definition attachContracts (contractsFound : list Contract) (rows : list WasmEventRow)
  : list WasmEvent :=
  map (fun row =>
         {| we_row := row;
            we_contract :=
              List.find (fun contract =>
                           String.eqb (c_address contract)
                                      (pe_contractAddress (row_data row)))
                        contractsFound |})
      rows.

Section Exporter.
Context {Aux Transformation : Type} `{Collaborators Aux Transformation}.

Definition with_contracts (db : DB Aux) (c : gmap string Contract) : DB Aux :=
  mkDB c (events db) (nextEventId db) (state db) (pendingWebhooks db) (aux db) (faults db).

Definition with_events (db : DB Aux)
    (t : gmap (N * string * string) WasmEventRow * N) : DB Aux :=
  mkDB (contracts db) t.1 t.2 (state db) (pendingWebhooks db) (aux db) (faults db).

Definition with_state (db : DB Aux) (s : option StateRow) : DB Aux :=
  mkDB (contracts db) (events db) (nextEventId db) s (pendingWebhooks db) (aux db) (faults db).

Definition with_pendingWebhooks (db : DB Aux) (p : list PendingWebhook) : DB Aux :=
  mkDB (contracts db) (events db) (nextEventId db) (state db) p (aux db) (faults db).

Definition with_aux (db : DB Aux) (a : Aux) : DB Aux :=
  mkDB (contracts db) (events db) (nextEventId db) (state db) (pendingWebhooks db) a (faults db).

Definition with_faults (db : DB Aux) (f : list bool) : DB Aux :=
  mkDB (contracts db) (events db) (nextEventId db) (state db) (pendingWebhooks db) (aux db) f.

(** The [while (contractCreationAttempts > 0)] loop.  An attempt fails when
    the row callback throws or the database raises; the last failure is
    rethrown. *)
Fixpoint createContracts (contractCreationAttempts : nat)
    (parsedEvents : list ParsedWasmEvent) (uniqueContracts : list string)
    (db : DB Aux) : DB Aux * outcome unit :=
  match contractCreationAttempts with
  | O => (db, Returns tt)
  | S remaining =>
      match contractRows parsedEvents uniqueContracts with
      | Throws =>
          match remaining with
          | O => (db, Throws)
          | S _ => createContracts remaining parsedEvents uniqueContracts db
          end
      | Returns rows =>
          match faults db with
          | true :: coming =>
              match remaining with
              | O => (with_faults db coming, Throws)
              | S _ => createContracts remaining parsedEvents uniqueContracts
                         (with_faults db coming)
              end
          | false :: coming =>
              (with_contracts (with_faults db coming)
                 (Contract_bulkCreate rows (contracts db)), Returns tt)
          | [] =>
              (with_contracts db (Contract_bulkCreate rows (contracts db)), Returns tt)
          end
      end
  end.

(** [State.update] with the three [GREATEST] columns. *)
Definition advanceState (s : StateRow) (lastBlockHeightExported
    lastBlockTimeUnixMsExported : N) : StateRow :=
  {| lastWasmBlockHeightExported :=
       Some (GREATEST (lastWasmBlockHeightExported s) lastBlockHeightExported);
     latestBlockHeight := GREATEST (Some (latestBlockHeight s)) lastBlockHeightExported;
     latestBlockTimeUnixMs :=
       GREATEST (Some (latestBlockTimeUnixMs s)) lastBlockTimeUnixMsExported |}.

Definition exporter (parsedEvents : list ParsedWasmEvent)
    (dontUpdateComputations dontSendWebhooks : bool) (db : DB Aux)
  : DB Aux * outcome ExportResult :=
  match state db with
  | None => (db, Throws)
  | Some st =>
      let uniqueContracts := uniqueStrings (map pe_contractAddress parsedEvents) in
      match createContracts 3 parsedEvents uniqueContracts db with
      | (db, Throws) => (db, Throws)
      | (db, Returns _) =>
          let contractsFound := omap (fun address => contracts db !! address) uniqueContracts in
          match WasmEvent_bulkCreate parsedEvents (events db, nextEventId db) with
          | (t, Throws) => (with_events db t, Throws)
          | (t, Returns _) =>
          let db := with_events db t in
          let exportedEvents :=
            attachContracts contractsFound (createdInstances parsedEvents t.1) in
          let '(a, transformed) := transformParsedEvents parsedEvents (aux db) in
          let '(a, (updated, destroyed)) :=
            if dontUpdateComputations then (a, (0%nat, 0%nat))
            else updateComputationValidityDependentOnChanges exportedEvents transformed a in
          let db := with_aux db a in
          let '(db, queued) :=
            if dontSendWebhooks then (db, Returns 0%nat)
            else
              match queueWebhooks (getProcessedWebhooks st) (events db)
                      (pendingWebhooks db) exportedEvents with
              | (table, Throws) => (with_pendingWebhooks db table, Throws)
              | (table, Returns n) =>
                  let '(a, m) := AccountWebhook_queueWebhooks exportedEvents (aux db) in
                  (with_aux (with_pendingWebhooks db table) a, Returns (n + m)%nat)
              end in
          match queued with
          | Throws => (db, Throws)
          | Returns webhooksQueued =>
              match last parsedEvents with
              | None => (db, Throws)
              | Some lastEvent =>
                  let db :=
                    match state db with
                    | Some s =>
                        with_state db
                          (Some (advanceState s (pe_blockHeight lastEvent)
                                   (pe_blockTimeUnixMs lastEvent)))
                    | None => db
                    end in
                  let db := with_aux db (updateIndexesForContracts contractsFound (aux db)) in
                  (db, Returns {| computationsUpdated := updated;
                                  computationsDestroyed := destroyed;
                                  transformations := length transformed;
                                  webhooksQueued := webhooksQueued;
                                  lastBlockHeightExported := pe_blockHeight lastEvent |})
              end
          end
          end
      end
  end.
End Exporter.

(** ** The wasm module: handler and flush *)

(** The options [wasm] is made with. *)
Record ModuleOptions : Type := mkModuleOptions {
  opt_state : StateRow;
  opt_initialBlockHeight : option N;
  opt_batch : nat;
  opt_updateComputations : bool;
  opt_sendWebhooks : bool
}.

(** [initialBlockHeight ?? BigInt(state.lastWasmBlockHeightExported ?? '0') + 1n] *)
Definition initialBlock (opts : ModuleOptions) : N :=
  match opt_initialBlockHeight opts with
  | Some h => h
  | None => default 0 (lastWasmBlockHeightExported (opt_state opts)) + 1
  end.

(** The variables the closures share. *)
Record ModuleState : Type := mkModuleState {
  pending : list IndexerWasmEvent;
  lastBlockHeightSeen : N;
  catchingUp : bool
}.

Definition wasm_init : ModuleState :=
  {| pending := []; lastBlockHeightSeen := 0; catchingUp := true |}.

(** The test that guards the call of [flush] in [handler]. *)
Definition flushDue (opts : ModuleOptions) (m : ModuleState) (event : IndexerWasmEvent) : bool :=
  (opt_batch opts <=? length (pending m))%nat
  && (lastBlockHeightSeen m <? ie_blockHeight event).

Section Module.
Context `{Codec} {Aux Transformation : Type} `{Collaborators Aux Transformation}.

(** [flush].  Besides the new state the model reports the batch handed to
    [exporter], which the source shows only as a count in its log line. *)
Definition flush (opts : ModuleOptions) (s : ModuleState * DB Aux)
  : (ModuleState * DB Aux) * outcome (option (list ParsedWasmEvent)) :=
  let '(m, db) := s in
  match pending m with
  | [] => (s, Returns None)
  | _ :: _ =>
      let batch := parsedEvents (pending m) in
      match exporter batch (negb (opt_updateComputations opts))
              (negb (opt_sendWebhooks opts)) db with
      | (db', Throws) => ((m, db'), Throws)
      | (db', Returns _) =>
          (({| pending := [];
               lastBlockHeightSeen := lastBlockHeightSeen m;
               catchingUp := catchingUp m |}, db'), Returns (Some batch))
      end
  end.

(** [handler].  [None] stands for a line that is not JSON or lacks one of
    the expected fields: it is reported and skipped.  A record is taken as
    its type declares it, with a block height that is a whole number: on
    any other number [BigInt(event.blockHeight)] throws before the buffer is
    looked at, which no line of this model does. *)
Definition handler (opts : ModuleOptions) (line : option IndexerWasmEvent)
    (s : ModuleState * DB Aux)
  : (ModuleState * DB Aux) * outcome (option (list ParsedWasmEvent)) :=
  let '(m, db) := s in
  match line with
  | None => (s, Returns None)
  | Some event =>
      if ie_blockHeight event <? initialBlock opts then
        (({| pending := pending m;
             lastBlockHeightSeen := ie_blockHeight event;
             catchingUp := catchingUp m |}, db), Returns None)
      else
        let m := {| pending := pending m;
                    lastBlockHeightSeen := lastBlockHeightSeen m;
                    catchingUp := false |} in
        let '((m', db'), flushed) :=
          if flushDue opts m event then flush opts (m, db)
          else ((m, db), Returns None) in
        match flushed with
        | Throws => ((m', db'), Throws)
        | Returns exported =>
            (({| pending := pending m' ++ [event];
                 lastBlockHeightSeen := ie_blockHeight event;
                 catchingUp := catchingUp m' |}, db'), Returns exported)
        end
  end.

(** The lines of a source file fed to [handler] one after the other; a
    throw stops the run.  The result lists the batches exported, oldest
    first. *)
Fixpoint handleLines (opts : ModuleOptions) (lines : list (option IndexerWasmEvent))
    (s : ModuleState * DB Aux)
  : (ModuleState * DB Aux) * list (list ParsedWasmEvent) * outcome unit :=
  match lines with
  | [] => (s, [], Returns tt)
  | line :: rest =>
      match handler opts line s with
      | (s', Throws) => (s', [], Throws)
      | (s', Returns exported) =>
          let '(s'', batches, r) := handleLines opts rest s' in
          (s'', (option_list exported ++ batches)%list, r)
      end
  end.

(** Modelled from the spec: the driver that reads the stream, whose code is
    not part of the sources at hand; it calls [flush] once more at the end
    of the stream. *)
Definition exportStream (opts : ModuleOptions) (lines : list (option IndexerWasmEvent))
    (s : ModuleState * DB Aux)
  : (ModuleState * DB Aux) * list (list ParsedWasmEvent) * outcome unit :=
  match handleLines opts lines s with
  | (s', batches, Throws) => (s', batches, Throws)
  | (s', batches, Returns _) =>
      match flush opts s' with
      | (s'', Throws) => (s'', batches, Throws)
      | (s'', Returns exported) => (s'', (batches ++ option_list exported)%list, Returns tt)
      end
  end.

(** A run of [exporter] over a sequence of batches; a throw stops the
    run. *)
Fixpoint exportAll (dontUpdateComputations dontSendWebhooks : bool)
    (batches : list (list ParsedWasmEvent)) (db : DB Aux)
  : DB Aux * outcome unit :=
  match batches with
  | [] => (db, Returns tt)
  | b :: rest =>
      match exporter b dontUpdateComputations dontSendWebhooks db with
      | (db', Throws) => (db', Throws)
      | (db', Returns _) =>
          exportAll dontUpdateComputations dontSendWebhooks rest db'
      end
  end.
End Module.

(** ** DAO core formulas *)

(** The environment of a formula.  [get] is asynchronous: it returns a
    promise of the stored value, [JUndefined] when the key is unset.
    Addresses read from state are whatever the state holds, hence a
    [JsValue]. *)
Record Env : Type := mkEnv {
  contractAddress : JsValue;
  get : JsValue -> string -> Promise JsValue;
  args : list (string * string)
}.

Definition Formula : Type := Env -> Promise JsValue.

Definition withContractAddress (env : Env) (address : JsValue) : Env :=
  {| contractAddress := address; get := get env; args := args env |}.

(** [await p] inside an async function, in continuation form. *)
Definition await {A B} (p : Promise A) (k : A -> outcome B) : outcome B :=
  match settled p with
  | Returns a => k a
  | Throws => Throws
  end.

(** The string-named properties found on a promise object: those of
    [Promise.prototype] and of [Object.prototype]. *)
Definition promise_property_names : list string :=
  [ "constructor"; "then"; "catch"; "finally";
    "__defineGetter__"; "__defineSetter__"; "__lookupGetter__"; "__lookupSetter__";
    "hasOwnProperty"; "isPrototypeOf"; "propertyIsEnumerable";
    "toString"; "toLocaleString"; "valueOf"; "__proto__" ].

(** [p?.[name]] for a promise [p]: a promise is never nullish, so the
    property is read from the promise object itself. *)
Definition promise_member {A} (p : Promise A) (name : string) : JsValue :=
  if existsb (String.eqb name) promise_property_names
  then JBuiltin name else JUndefined.

(** [await v] for a value [v] read off a promise object.  What is not a
    promise is awaited as it is, unless it has a [then] to call: of the
    values above only [Promise.prototype], which [__proto__] reads, has one,
    and its [then] throws when called on an object that is no promise. *)
Definition await_value (v : JsValue) : outcome JsValue :=
  match v with
  | JBuiltin name => if String.eqb name "__proto__" then Throws else Returns v
  | _ => Returns v
  end.

(** [args: { key }]; a missing [key] is [undefined], and as a property name
    reads ["undefined"]. *)
Definition args_key (env : Env) : string :=
  match obj_get "key" (args env) with
  | Some key => key
  | None => "undefined"
  end.

(** [common.ts]: [info] *)
Definition info : Formula := fun env =>
  mkPromise (await (get env (contractAddress env) "contract_info") Returns).

Definition votingModule : Formula := fun env =>
  mkPromise (await (get env (contractAddress env) "voting_module") Returns).

(** [await get(contractAddress, 'items')?.[key]]: the member access binds
    tighter than [await], so the subscript is taken on the promise and the
    result, not being a promise, is awaited as it is. *)
Definition item : Formula := fun env =>
  let key := args_key env in
  mkPromise (await_value (promise_member (get env (contractAddress env) "items") key)).

(** What [item] would be with the subscript applied to the awaited map. *)
Definition item_awaited : Formula := fun env =>
  let key := args_key env in
  mkPromise
    (await (get env (contractAddress env) "items")
       (fun items =>
          match items with
          | JObj fields => Returns (default JUndefined (obj_get key fields))
          | _ => Returns JUndefined
          end)).

(** [votingModuleInfo.contract]: a [TypeError] on [undefined] and [null];
    otherwise the own property, [undefined] when there is none (no prototype
    has a property of that name). *)
Definition contract_of (votingModuleInfo : JsValue) : outcome JsValue :=
  match votingModuleInfo with
  | JUndefined | JNull => Throws
  | JObj fields => Returns (default JUndefined (obj_get "contract" fields))
  | _ => Returns JUndefined
  end.

(** The formulas imported from [./daoVotingCw4] and [./daoVotingCw20Staked]. *)
Class VotingFormulas : Type := {
  daoVotingCw4VotingPower : Formula;
  daoVotingCw4TotalPower : Formula;
  daoVotingCw20StakedVotingPower : Formula;
  daoVotingCw20StakedTotalPower : Formula
}.

Section Voting.
Context `{VotingFormulas}.

Definition VOTING_POWER_MAP : list (string * Formula) :=
  [ ("cw4-voting", daoVotingCw4VotingPower);
    ("cwd-voting-cw4", daoVotingCw4VotingPower);
    ("dao-voting-cw4", daoVotingCw4VotingPower);
    ("cw20-staked-balance-voting", daoVotingCw20StakedVotingPower);
    ("cwd-voting-cw20-staked", daoVotingCw20StakedVotingPower);
    ("dao-voting-cw20-staked", daoVotingCw20StakedVotingPower) ].

Definition TOTAL_POWER_MAP : list (string * Formula) :=
  [ ("cw4-voting", daoVotingCw4TotalPower);
    ("cwd-voting-cw4", daoVotingCw4TotalPower);
    ("dao-voting-cw4", daoVotingCw4TotalPower);
    ("cw20-staked-balance-voting", daoVotingCw20StakedTotalPower);
    ("cwd-voting-cw20-staked", daoVotingCw20StakedTotalPower);
    ("dao-voting-cw20-staked", daoVotingCw20StakedTotalPower) ].

(** [votingPower].  A key that is not an own property of the table reads
    [undefined] here: the keys looked up start with ['crates.io:'], which
    no property of [Object.prototype] does. *)
Definition votingPower : Formula := fun env =>
  mkPromise
    (await (votingModule env) (fun votingModuleAddress =>
     await (info (withContractAddress env votingModuleAddress)) (fun votingModuleInfo =>
     match contract_of votingModuleInfo with
     | Throws => Throws
     | Returns contract =>
         match obj_get ("crates.io:" +:+ js_toString contract) VOTING_POWER_MAP with
         | None => Throws
         | Some votingPowerFormula =>
             await (votingPowerFormula (withContractAddress env votingModuleAddress))
                   Returns
         end
     end))).

Definition totalPower : Formula := fun env =>
  mkPromise
    (await (votingModule env) (fun votingModuleAddress =>
     await (info (withContractAddress env votingModuleAddress)) (fun votingModuleInfo =>
     match contract_of votingModuleInfo with
     | Throws => Throws
     | Returns contract =>
         match obj_get ("crates.io:" +:+ js_toString contract) TOTAL_POWER_MAP with
         | None => Throws
         | Some totalPowerFormula =>
             await (totalPowerFormula (withContractAddress env votingModuleAddress))
                   Returns
         end
     end))).
End Voting.

(** The columns of a [Contract] row that no upsert touches. *)
Definition sameInstantiation (row row' : Contract) : Prop :=
  c_address row' = c_address row
  /\ c_instantiatedAtBlockHeight row' = c_instantiatedAtBlockHeight row
  /\ c_instantiatedAtBlockTimeUnixMs row' = c_instantiatedAtBlockTimeUnixMs row
  /\ c_instantiatedAtBlockTimestamp row' = c_instantiatedAtBlockTimestamp row.

(** The checkpoint order on the [State] row; an unset
    [lastWasmBlockHeightExported] counts as 0, as the module reads it. *)
Definition checkpointLe (s s' : option StateRow) : Prop :=
  match s, s' with
  | Some a, Some b =>
      default 0 (lastWasmBlockHeightExported a) <= default 0 (lastWasmBlockHeightExported b)
      /\ latestBlockHeight a <= latestBlockHeight b
      /\ latestBlockTimeUnixMs a <= latestBlockTimeUnixMs b
  | None, None => True
  | _, _ => False
  end.

(** The rows one batch hands to [Contract.bulkCreate]. *)
Definition batchContractRows (parsed : list ParsedWasmEvent) : list Contract :=
  match contractRows parsed (uniqueStrings (map pe_contractAddress parsed)) with
  | Returns rows => rows
  | Throws => []
  end.

(** The checkpoint has reached the block and time of [e]. *)
Definition checkpointCovers (s : option StateRow) (e : ParsedWasmEvent) : Prop :=
  match s with
  | Some st =>
      (exists c, lastWasmBlockHeightExported st = Some c /\ pe_blockHeight e <= c)
      /\ pe_blockHeight e <= latestBlockHeight st
      /\ pe_blockTimeUnixMs e <= latestBlockTimeUnixMs st
  | None => False
  end.

(** The records of a stream come in non-decreasing block order, none below
    [floor]; rejected lines carry no block. *)
Fixpoint nondecreasingFrom (floor : N) (lines : list (option IndexerWasmEvent)) : Prop :=
  match lines with
  | [] => True
  | None :: rest => nondecreasingFrom floor rest
  | Some event :: rest =>
      floor <= ie_blockHeight event /\ nondecreasingFrom (ie_blockHeight event) rest
  end.

(** Every event of a batch lies in a lower block than every event of every
    later batch. *)
Fixpoint blocksApart (batches : list (list ParsedWasmEvent)) : Prop :=
  match batches with
  | [] => True
  | b :: rest =>
      (forall x b' y, In x b -> In b' rest -> In y b' ->
                      pe_blockHeight x < pe_blockHeight y)
      /\ blocksApart rest
  end.

(** What holds between the batches exported so far and the module state. *)
Definition flushInvariant (m : ModuleState) (batches : list (list ParsedWasmEvent)) : Prop :=
  blocksApart batches
  /\ (forall b y, In b batches -> In y b -> pe_blockHeight y < lastBlockHeightSeen m)
  /\ (forall x, In x (pending m) -> ie_blockHeight x <= lastBlockHeightSeen m)
  /\ (forall b y x, In b batches -> In y b -> In x (pending m) ->
                    pe_blockHeight y < ie_blockHeight x).

(** The objects built for one (event, webhook) pair: one or none. *)
Definition pendingRows (store : gmap (N * string * string) WasmEventRow)
    (events : list WasmEvent) (event : WasmEvent) (webhook : Webhook)
  : list PendingWebhookAttributes :=
  match pendingWebhookFor store events event webhook with
  | Returns (Some row) => [row]
  | _ => []
  end.

(** The objects built for a batch: for every event in turn, those of the
    webhooks whose filter accepts it. *)
Definition rowsToCreate (webhooks : list Webhook)
    (store : gmap (N * string * string) WasmEventRow) (events : list WasmEvent)
  : list PendingWebhookAttributes :=
  flat_map (fun e => flat_map (pendingRows store events e)
                       (List.filter (fun w => wh_filter w e) webhooks)) events.






(** An object that the table refuses: its value or its endpoint is null. *)
Definition refused (attributes : PendingWebhookAttributes) : Prop :=
  attr_value attributes = JNull \/ attr_endpoint attributes = None.

(** The last record of a buffer whose concatenated key is [k]. *)
Fixpoint lastWithKey (k : string) (pending : list IndexerWasmEvent)
  : option IndexerWasmEvent :=
  match pending with
  | [] => None
  | event :: rest =>
      match lastWithKey k rest with
      | Some later => Some later
      | None => if String.eqb (dedupKey event) k then Some event else None
      end
  end.

(** Every row is stored under its own key. *)
Definition tablesWellKeyed {Aux} (db : DB Aux) : Prop :=
  (forall a c, contracts db !! a = Some c -> c_address c = a)
  /\ (forall k r, events db !! k = Some r -> rowKey r = k).

(** ** Sample data *)

Definition sampleEvent (h : N) (c k v : string) : IndexerWasmEvent :=
  {| ie_blockHeight := h; ie_blockTimeUnixMs := 1000 * h; ie_contractAddress := c;
     ie_codeId := 7; ie_key := k; ie_value := v; ie_delete := false |}.

(** Two writes of one block to different contracts and keys whose
    concatenated forms coincide. *)
Definition collidingFirst : IndexerWasmEvent := sampleEvent 10 "juno1x" "aaaaaaaa" "MQ==".
Definition collidingSecond : IndexerWasmEvent := sampleEvent 10 "juno1xaaaa" "aaaa" "Mg==".

(** A webhook that matches every event and reports the change of value. *)
Definition sampleWebhook : Webhook :=
  {| wh_filter := fun _ => true;
     wh_getValue := fun event getPrevious _ =>
       match settled (getPrevious tt) with
       | Returns previous => Returns (JObj [("from", previous); ("to", we_valueJson event)])
       | Throws => Throws
       end;
     wh_endpoint := StaticEndpoint (EndpointIs (Url "POST" "https://example.org/hook" [])) |}.

(** Collaborators that keep no tables of their own, with [sampleWebhook] as
    the only configured webhook. *)
Definition sampleCollaborators : Collaborators unit unit :=
  {| getProcessedWebhooks := fun _ => [sampleWebhook];
     transformParsedEvents := fun _ a => (a, []);
     updateComputationValidityDependentOnChanges := fun _ _ a => (a, (0%nat, 0%nat));
     AccountWebhook_queueWebhooks := fun _ a => (a, 0%nat);
     updateIndexesForContracts := fun _ a => a |}.

Definition sampleState : StateRow :=
  {| lastWasmBlockHeightExported := None; latestBlockHeight := 0; latestBlockTimeUnixMs := 0 |}.

(** A database holding the State row and nothing else. *)
Definition sampleDB : DB unit :=
  {| contracts := ∅; events := ∅; nextEventId := 1; state := Some sampleState;
     pendingWebhooks := []; aux := tt; faults := [] |}.

Definition sampleParsed (h : N) (c k : string) (j : JsValue) : ParsedWasmEvent :=
  {| pe_codeId := 7; pe_contractAddress := c; pe_blockHeight := h;
     pe_blockTimeUnixMs := 1000 * h; pe_blockTimestamp := 1000 * h;
     pe_key := k; pe_value := js_toString j; pe_valueJson := j; pe_delete := false |}.

Definition sampleBatch : list ParsedWasmEvent := [sampleParsed 10 "juno1dao" "1,2" (JNum 20)].

Definition sampleRun : DB unit -> DB unit * outcome unit :=
  @exportAll unit unit sampleCollaborators false false [sampleBatch].

(** A codec that knows the few texts of the samples: base64 of [20], [30],
    [oops] and of the empty text, and the parse of the first two. *)
Definition sampleCodec : Codec :=
  {| base64ToUtf8 := fun s =>
       if String.eqb s "MjA=" then "20"
       else if String.eqb s "MzA=" then "30"
       else if String.eqb s "b29wcw==" then "oops"
       else "";
     JSON_parse := fun s =>
       if String.eqb s "20" then Returns (JNum 20)
       else if String.eqb s "30" then Returns (JNum 30)
       else Throws;
     base64KeyToEventKey := fun s => s |}.

Definition sampleOptions : ModuleOptions :=
  {| opt_state := sampleState; opt_initialBlockHeight := None; opt_batch := 2;
     opt_updateComputations := true; opt_sendWebhooks := true |}.

(** Five records of three blocks, and a line that is not JSON. *)
Definition sampleLines : list (option IndexerWasmEvent) :=
  [ Some (sampleEvent 10 "juno1dao" "a2V5MQ==" "MjA=");
    Some (sampleEvent 10 "juno1dao" "a2V5Mg==" "MzA=");
    Some (sampleEvent 10 "juno1dao" "a2V5Mw==" "MjA=");
    None;
    Some (sampleEvent 11 "juno1dao" "a2V5MQ==" "MzA=");
    Some (sampleEvent 12 "juno1dao" "a2V5MQ==" "MjA=") ].


(** The batch of a later block in which the contract has been migrated. *)
Definition migratedBatch : list ParsedWasmEvent :=
  [ {| pe_codeId := 9; pe_contractAddress := "juno1dao"; pe_blockHeight := 20;
       pe_blockTimeUnixMs := 20000; pe_blockTimestamp := 20000;
       pe_key := "1,2"; pe_value := "30"; pe_valueJson := JNum 30; pe_delete := false |} ].

Definition sampleContract : Contract :=
  {| c_address := "juno1dao"; c_codeId := 7; c_instantiatedAtBlockHeight := 10;
     c_instantiatedAtBlockTimeUnixMs := 10000; c_instantiatedAtBlockTimestamp := 10000 |}.

Definition sampleInstance (id h : N) (k : string) (j : JsValue) : WasmEvent :=
  {| we_row := {| row_id := id; row_data := sampleParsed h "juno1dao" k j |};
     we_contract := Some sampleContract |}.

(** A store holding a write of key [k1] at block 5, and a batch that writes
    key [k2] at block 6 and key [k1] again at block 7. *)
Definition otherKeyAt6 : WasmEvent := sampleInstance 2 6 "k2" (JNum 7).
Definition sameKeyAt7 : WasmEvent := sampleInstance 3 7 "k1" (JNum 9).

Definition sampleStore : gmap (N * string * string) WasmEventRow :=
  list_to_map
    [ ((5, "juno1dao", "k1"), {| row_id := 1; row_data := sampleParsed 5 "juno1dao" "k1" (JNum 5) |});
      ((6, "juno1dao", "k2"), we_row otherKeyAt6);
      ((7, "juno1dao", "k1"), we_row sameKeyAt7) ].

(** Two writes of one key, at blocks 9 and 10. *)
Definition keyAt9 : WasmEvent := sampleInstance 1 9 "k1" (JNum 1).
Definition keyAt10 : WasmEvent := sampleInstance 2 10 "k1" (JNum 2).



(** A webhook that reports the value before the change, as [getPrevious]
    gives it: null when there is none. *)
Definition previousValueWebhook : Webhook :=
  {| wh_filter := fun _ => true;
     wh_getValue := fun _ getPrevious _ => settled (getPrevious tt);
     wh_endpoint := StaticEndpoint (EndpointIs (Soketi "dao" "previous")) |}.

(** Collaborators with [sampleWebhook] and [previousValueWebhook]
    configured. *)
Definition previousValueCollaborators : Collaborators unit unit :=
  {| getProcessedWebhooks := fun _ => [sampleWebhook; previousValueWebhook];
     transformParsedEvents := fun _ a => (a, []);
     updateComputationValidityDependentOnChanges := fun _ _ a => (a, (0%nat, 0%nat));
     AccountWebhook_queueWebhooks := fun _ a => (a, 0%nat);
     updateIndexesForContracts := fun _ a => a |}.

(** Sub-formulas that answer with fixed numbers. *)
Definition sampleVotingFormulas : VotingFormulas :=
  {| daoVotingCw4VotingPower := fun _ => resolve (JNum 4);
     daoVotingCw4TotalPower := fun _ => resolve (JNum 40);
     daoVotingCw20StakedVotingPower := fun _ => resolve (JNum 20);
     daoVotingCw20StakedTotalPower := fun _ => resolve (JNum 200) |}.

(** The state of a DAO whose voting module is a [dao-voting-cw4] contract and
    whose [items] map holds a logo. *)
Definition sampleGet (contract_name : string) : JsValue -> string -> Promise JsValue :=
  fun address key =>
    match address with
    | JStr "juno1dao" =>
        if String.eqb key "voting_module" then resolve (JStr "juno1voting")
        else if String.eqb key "items" then resolve (JObj [("logo", JStr "logo.png")])
        else resolve JUndefined
    | JStr "juno1voting" =>
        if String.eqb key "contract_info"
        then resolve (JObj [("contract", JStr contract_name); ("version", JStr "2.0.0")])
        else resolve JUndefined
    | _ => resolve JUndefined
    end.

Definition sampleEnv (contract_name : string) : Env :=
  {| contractAddress := JStr "juno1dao";
     get := sampleGet contract_name;
     args := [("key", "logo"); ("address", "juno1member")] |}.

(** ** Further notions used by the properties of the export module *)

(** No two records of a buffer with different (blockHeight, contractAddress,
    key) share a concatenated key. *)
Definition collisionFree (pending : list IndexerWasmEvent) : Prop :=
  forall x y, In x pending -> In y pending ->
              dedupKey x = dedupKey y -> ie_triple x = ie_triple y.


(** The first of [rows] with key [k]. *)
Section UpsertFirst.
Context `{Countable K} {V : Type}.
Variable keyOf : V -> K.

Fixpoint firstFor (k : K) (rows : list V) : option V :=
  match rows with
  | [] => None
  | r :: rows' => if decide (keyOf r = k) then Some r else firstFor k rows'
  end.
End UpsertFirst.

(** The first and the last record of a batch written to the row of key [k]. *)
Definition firstParsedFor (k : N * string * string) (parsed : list ParsedWasmEvent)
  : option ParsedWasmEvent :=
  firstFor eventKey k parsed.

Definition lastParsedFor (k : N * string * string) (parsed : list ParsedWasmEvent)
  : option ParsedWasmEvent :=
  lastFor eventKey k parsed.

(** The database is about to raise on three attempts of the contract bulk
    insert in a row. *)
Definition threeFaultsAhead {Aux} (db : DB Aux) : Prop :=
  exists coming, faults db = true :: true :: true :: coming.

(** The instances the exporter hands on for a batch: the stored rows of its
    records, each with the Contract row of its address. *)
Definition batchInstances (parsed : list ParsedWasmEvent)
    (contractsT : gmap string Contract)
    (eventsT : gmap (N * string * string) WasmEventRow) : list WasmEvent :=
  attachContracts
    (omap (fun address => contractsT !! address)
          (uniqueStrings (map pe_contractAddress parsed)))
    (createdInstances parsed eventsT).

Section WebhookObjects.
Context {Aux Transformation : Type} `{Collaborators Aux Transformation}.

(** The objects that the export of a batch into [db] hands to
    [PendingWebhook.bulkCreate], computed on the tables as the batch leaves
    them. *)
Definition batchWebhookObjects (parsed : list ParsedWasmEvent) (db : DB Aux)
  : list PendingWebhookAttributes :=
  match state db with
  | None => []
  | Some st =>
      let contractsT := Contract_bulkCreate (batchContractRows parsed) (contracts db) in
      let eventsT := (WasmEvent_upsertRows parsed (events db, nextEventId db)).1 in
      rowsToCreate (getProcessedWebhooks st) eventsT
        (batchInstances parsed contractsT eventsT)
  end.
End WebhookObjects.


(** The row the exporter builds for [address] from the first record of the
    batch with that address. *)
Definition contractRowFor (parsedEvents : list ParsedWasmEvent) (address : string)
  : option Contract :=
  match List.find (fun event => String.eqb (pe_contractAddress event) address)
                  parsedEvents with
  | Some event =>
      Some {| c_address := address;
              c_codeId := pe_codeId event;
              c_instantiatedAtBlockHeight := pe_blockHeight event;
              c_instantiatedAtBlockTimeUnixMs := pe_blockTimeUnixMs event;
              c_instantiatedAtBlockTimestamp := pe_blockTimestamp event |}
  | None => None
  end.


(** The records of a stream, rejected lines left out. *)
Definition records (lines : list (option IndexerWasmEvent)) : list IndexerWasmEvent :=
  omap (fun line => line) lines.


(** ** PendingWebhook: fire *)

(** [loadConfig().soketi], the options of the Pusher client. *)
Record SoketiConfig : Type := mkSoketiConfig {
  soketi_host : string;
  soketi_appId : string;
  soketi_key : string;
  soketi_secret : string;
  soketi_useTLS : bool
}.

(** What [fire] hands to the network: the request given to [axios], or the
    [trigger] call on a Pusher client made from the soketi config. *)
Inductive Delivery : Type :=
| AxiosRequest (url method : string) (headers : list (string * string)) (data : JsValue)
| PusherTrigger (config : SoketiConfig) (channel event : string) (data : JsValue).

(** How a delivery ends: [axios] resolves or rejects, and so does making the
    Pusher client and its [trigger]. *)
Class Network : Type := {
  send : Delivery -> outcome unit
}.

(** The own properties of an object in the order of enumeration. *)
Definition ownEntries {V} (o : list (string * V)) : list (string * V) :=
  Object_values (map (fun kv => (kv.1, kv)) o).

(** [{ ...target, ...source }] given the properties of [target]. *)
Definition spreadInto {V} (target source : list (string * V)) : list (string * V) :=
  fold_left (fun acc kv => obj_set kv.1 kv.2 acc) (ownEntries source) target.

(** [{ 'Accept-Encoding': 'gzip,deflate,compress', ...this.endpoint.headers }] *)
Definition requestHeaders (headers : list (string * string)) : list (string * string) :=
  spreadInto [("Accept-Encoding", "gzip,deflate,compress")] headers.

(** [this.failures++] *)
Definition countFailure (this : PendingWebhook) : PendingWebhook :=
  {| pw_eventId := pw_eventId this; pw_endpoint := pw_endpoint this;
     pw_value := pw_value this; pw_failures := pw_failures this + 1 |}.

Section Fire.
Context `{Network}.

(** The [switch] of [fire]: the deliveries attempted and how the attempt
    ends.  Without a soketi config the Soketi case throws before any client
    is made. *)
Definition attemptDelivery (soketi : option SoketiConfig) (this : PendingWebhook)
  : list Delivery * outcome unit :=
  match pw_endpoint this with
  | Url method url headers =>
      let request := AxiosRequest url method (requestHeaders headers) (pw_value this) in
      ([request], send request)
  | Soketi channel event =>
      match soketi with
      | None => ([], Throws)
      | Some config =>
          let trigger := PusherTrigger config channel event (pw_value this) in
          ([trigger], send trigger)
      end
  end.

(** [fire] on the row at position [i] of the table; [None] when there is no
    such row to call it on.  A successful attempt destroys the row; a failed
    one saves it with [failures] incremented and rethrows.  The writes
    [destroy] and [save] are taken to reach the database; the [default] case
    of the [switch] needs an endpoint of neither type, which
    [WebhookEndpoint] does not have. *)
Definition fire (soketi : option SoketiConfig) (i : nat) (table : list PendingWebhook)
  : option (list PendingWebhook * list Delivery * outcome unit) :=
  match table !! i with
  | None => None
  | Some this =>
      match attemptDelivery soketi this with
      | (sent, Returns _) => Some (delete i table, sent, Returns tt)
      | (sent, Throws) => Some (<[i := countFailure this]> table, sent, Throws)
      end
  end.

(** [n] calls of [fire] on the row at position [i], as long as it is there. *)
Fixpoint fireTimes (n : nat) (soketi : option SoketiConfig) (i : nat)
    (table : list PendingWebhook) : list PendingWebhook :=
  match n with
  | O => table
  | S n' =>
      match fire soketi i table with
      | Some (table', _, Throws) => fireTimes n' soketi i table'
      | Some (table', _, Returns _) => table'
      | None => table
      end
  end.
End Fire.

(** The binding of [k] that a spread of [l] leaves: the last one. *)
Fixpoint lastBinding {V} (k : string) (l : list (string * V)) : option V :=
  match l with
  | [] => None
  | (k', v) :: l' =>
      match lastBinding k l' with
      | Some w => Some w
      | None => if String.eqb k' k then Some v else None
      end
  end.

(** A network on which every delivery fails, and one on which every delivery
    succeeds. *)
Definition networkDown : Network := {| send := fun _ => Throws |}.
Definition networkUp : Network := {| send := fun _ => Returns tt |}.

Definition sampleSoketiRow : PendingWebhook :=
  {| pw_eventId := 1; pw_endpoint := Soketi "dao" "update";
     pw_value := JNum 20; pw_failures := 0 |}.

Definition sampleUrlRow : PendingWebhook :=
  {| pw_eventId := 2;
     pw_endpoint := Url "POST" "https://example.org/hook"
                        [("Authorization", "Bearer t"); ("Accept-Encoding", "identity")];
     pw_value := JNum 30; pw_failures := 2 |}.


(** The row after [n] failed calls of [fire]. *)
Definition countFailures (n : nat) (this : PendingWebhook) : PendingWebhook :=
  {| pw_eventId := pw_eventId this; pw_endpoint := pw_endpoint this;
     pw_value := pw_value this; pw_failures := pw_failures this + N.of_nat n |}.


(** ** DAO core formulas: configuration, lists and proposal modules *)

(** [v === undefined || v === null], the test of [??]. *)
Definition js_nullish (v : JsValue) : bool :=
  match v with
  | JUndefined | JNull => true
  | _ => false
  end.

(** [ToBoolean], the test of [if (v)]. *)
Definition js_truthy (v : JsValue) : bool :=
  match v with
  | JUndefined | JNull => false
  | JBool b => b
  | JNum n => negb (n =? 0)%Z
  | JStr s => negb (String.eqb s "")
  | JArr _ | JObj _ | JBuiltin _ => true
  end.

(** [v.name] for a name that no prototype defines and that is neither an
    array index nor [length] (below: [dao_uri], [address], [status]): a
    [TypeError] on [undefined] and [null], the own property of an object,
    [undefined] on everything else. *)
Definition js_field (v : JsValue) (name : string) : outcome JsValue :=
  match v with
  | JUndefined | JNull => Throws
  | JObj fields => Returns (default JUndefined (obj_get name fields))
  | _ => Returns JUndefined
  end.

(** The elements of an array, or the characters of a string, under their
    indices. *)
Definition indexed (items : list JsValue) : list (string * JsValue) :=
  imap (fun i x => (N_toString (N.of_nat i), x)) items.

Definition js_chars (s : string) : list JsValue :=
  map (fun c => JStr (String c EmptyString)) (list_ascii_of_string s).

(** The enumerable own properties that [Object.keys], [Object.values],
    [Object.entries] and a spread go through, in their order; the first
    three throw a [TypeError] on [undefined] and [null]. *)
Definition js_ownProperties (v : JsValue) : outcome (list (string * JsValue)) :=
  match v with
  | JUndefined | JNull => Throws
  | JObj fields => Returns (ownEntries fields)
  | JArr items => Returns (indexed items)
  | JStr s => Returns (indexed (js_chars s))
  | JBool _ | JNum _ | JBuiltin _ => Returns []
  end.

Definition Object_keys (v : JsValue) : outcome (list string) :=
  match js_ownProperties v with
  | Returns properties => Returns (map fst properties)
  | Throws => Throws
  end.

Definition Object_values_of (v : JsValue) : outcome (list JsValue) :=
  match js_ownProperties v with
  | Returns properties => Returns (map snd properties)
  | Throws => Throws
  end.

Definition Object_entries (v : JsValue) : outcome (list (string * JsValue)) :=
  js_ownProperties v.

(** [{ ...data }]: spreading [undefined] or [null] adds nothing. *)
Definition js_spread (data : JsValue) : list (string * JsValue) :=
  match js_ownProperties data with
  | Returns properties =>
      fold_left (fun acc (kv : string * JsValue) => obj_set kv.1 kv.2 acc) properties []
  | Throws => []
  end.

Definition config : Formula := fun env =>
  mkPromise
    (await (get env (contractAddress env) "config_v2") (fun configV2 =>
     if js_nullish configV2
     then await (get env (contractAddress env) "config") Returns
     else Returns configV2)).

(** The object a V1 address is turned into. *)
Definition v1ProposalModule (address : string) : JsValue :=
  JObj [("address", JStr address); ("prefix", JStr ""); ("status", JStr "Enabled")].

(** The async callback of [proposalModules.map]. *)
Definition withInfo (env : Env) (data : JsValue) : outcome JsValue :=
  match js_field data "address" with
  | Throws => Throws
  | Returns address =>
      await (info (withContractAddress env address)) (fun contractInfo =>
      Returns (JObj (obj_set "info" contractInfo (js_spread data))))
  end.

Definition proposalModules : Formula := fun env =>
  mkPromise
    (await (get env (contractAddress env) "proposal_modules_v2") (fun proposalModuleMap =>
     let collected : outcome (list JsValue) :=
       if js_truthy proposalModuleMap
       then Object_values_of proposalModuleMap
       else
         await (get env (contractAddress env) "proposal_modules") (fun v1 =>
         match Object_keys v1 with
         | Throws => Throws
         | Returns proposalModuleAddresses =>
             Returns (map v1ProposalModule proposalModuleAddresses)
         end) in
     match collected with
     | Throws => Throws
     | Returns modules =>
         match Promise_all (map (withInfo env) modules) with
         | Throws => Throws
         | Returns modulesWithInfo => Returns (JArr modulesWithInfo)
         end
     end)).

(** [module.status === 'Enabled'] *)
Definition statusEnabled (module : JsValue) : outcome bool :=
  match js_field module "status" with
  | Throws => Throws
  | Returns (JStr status) => Returns (String.eqb status "Enabled")
  | Returns _ => Returns false
  end.

(** [Array.prototype.filter] with a callback that may throw. *)
Fixpoint Array_filter (p : JsValue -> outcome bool) (items : list JsValue)
  : outcome (list JsValue) :=
  match items with
  | [] => Returns []
  | x :: items' =>
      match p x with
      | Throws => Throws
      | Returns keep =>
          match Array_filter p items' with
          | Throws => Throws
          | Returns kept => Returns (if keep then x :: kept else kept)
          end
      end
  end.

Definition activeProposalModules : Formula := fun env =>
  mkPromise
    (await (proposalModules env) (fun modules =>
     match modules with
     | JArr items =>
         match Array_filter statusEnabled items with
         | Throws => Throws
         | Returns active => Returns (JArr active)
         end
     | _ => Throws
     end)).

Definition paused : Formula := fun env =>
  mkPromise
    (await (get env (contractAddress env) "paused") (fun v =>
     Returns (if js_nullish v then JBool false else v))).

Definition admin : Formula := fun env =>
  mkPromise (await (get env (contractAddress env) "admin") Returns).

Definition adminNomination : Formula := fun env =>
  mkPromise (await (get env (contractAddress env) "nominated_admin") Returns).

(** [Object.keys(v ?? {})] as an array of strings. *)
Definition keysOrNone (v : JsValue) : outcome JsValue :=
  match Object_keys (if js_nullish v then JObj [] else v) with
  | Throws => Throws
  | Returns names => Returns (JArr (map JStr names))
  end.

Definition listItems : Formula := fun env =>
  mkPromise (await (get env (contractAddress env) "items") keysOrNone).

Definition cw20List : Formula := fun env =>
  mkPromise (await (get env (contractAddress env) "cw20s") keysOrNone).

Definition cw721List : Formula := fun env =>
  mkPromise (await (get env (contractAddress env) "cw721s") keysOrNone).

Definition listSubDaos : Formula := fun env =>
  mkPromise
    (await (get env (contractAddress env) "sub_daos") (fun v =>
     let subDaoMap := if js_nullish v then JObj [] else v in
     match Object_entries subDaoMap with
     | Throws => Throws
     | Returns entries =>
         Returns (JArr (map (fun '(addr, charter) =>
                               JObj [("addr", JStr addr); ("charter", charter)])
                            entries))
     end)).

Definition daoUri : Formula := fun env =>
  mkPromise
    (await (config env) (fun c =>
     match js_field c "dao_uri" with
     | Throws => Throws
     | Returns uri => Returns (if js_nullish uri then JStr "" else uri)
     end)).

(** An environment whose state is a table of (address, key, value). *)
Definition stateEnv (address : string) (state : list (string * string * JsValue)) : Env :=
  {| contractAddress := JStr address;
     get := fun a k =>
       resolve (default JUndefined
                  (snd <$> List.find (fun '(a', k', _) =>
                                        String.eqb (js_toString a) a' && String.eqb k k')
                                     state));
     args := [] |}.

Definition sampleV1Dao : Env :=
  stateEnv "juno1dao"
    [ ("juno1dao", "proposal_modules", JObj [("juno1propA", JStr ""); ("juno1propB", JStr "")]);
      ("juno1dao", "config", JObj [("name", JStr "dao")]);
      ("juno1dao", "items", JObj [("b", JStr "x"); ("7", JStr "y")]);
      ("juno1propA", "contract_info",
         JObj [("contract", JStr "cw-proposal-single"); ("version", JStr "0.1.0")]) ].


(** Whether a property name is an array index. *)
Definition isArrayIndex (k : string) : bool :=
  match array_index k with
  | Some _ => true
  | None => false
  end.


(** A module object whose [status] is the string ['Enabled']. *)
Definition enabledModule (module : JsValue) : bool :=
  match module with
  | JObj fields =>
      match obj_get "status" fields with
      | Some (JStr status) => String.eqb status "Enabled"
      | _ => false
      end
  | _ => false
  end.

(** The entry [proposalModules] gives a V1 address whose [contract_info] is
    [contractInfo]. *)
Definition v1ProposalModuleWithInfo (address : string) (contractInfo : JsValue) : JsValue :=
  JObj [("address", JStr address); ("prefix", JStr ""); ("status", JStr "Enabled");
        ("info", contractInfo)].

(** A contract with no state at all. *)
Definition sampleBlankContract : Env := stateEnv "juno1blank" [].


(** ** Addresses and the deduplication key *)

Definition isDigit (c : ascii) : bool :=
  (48 <=? nat_of_ascii c)%nat && (nat_of_ascii c <=? 57)%nat.

Fixpoint allDigits (s : string) : bool :=
  match s with
  | EmptyString => true
  | String c s' => isDigit c && allDigits s'
  end.

(** An address that begins with a character other than a digit, as every
    bech32 address does. *)
Definition startsWithNonDigit (address : string) : bool :=
  match address with
  | EmptyString => false
  | String c _ => negb (isDigit c)
  end.

(** A buffer of two records of successive blocks. *)
Definition sampleBuffer : ModuleState :=
  {| pending := [sampleEvent 10 "juno1dao" "a2V5MQ==" "MjA=";
                 sampleEvent 11 "juno1dao" "a2V5MQ==" "MzA="];
     lastBlockHeightSeen := 11;
     catchingUp := false |}.


(** From the record that fills the buffer up to the batch size on, all
    records of the buffer are of one block. *)
Definition overflowWithinOneBlock (opts : ModuleOptions) (m : ModuleState) : Prop :=
  forall (i j : nat) x y,
    (opt_batch opts <= S i)%nat -> (i <= j)%nat ->
    pending m !! i = Some x -> pending m !! j = Some y ->
    ie_blockHeight x = ie_blockHeight y.

(** What [handler] maintains of the buffer on a stream in block order. *)
Definition bufferInvariant (opts : ModuleOptions) (m : ModuleState) : Prop :=
  overflowWithinOneBlock opts m
  /\ (forall x, last (pending m) = Some x -> ie_blockHeight x = lastBlockHeightSeen m)
  /\ (forall x, In x (pending m) -> initialBlock opts <= ie_blockHeight x).

(** * Properties *)

(** ** Objects *)

Section JsObjectFacts.
Context {V : Type}.
Implicit Types (o : list (string * V)) (k : string) (v : V).

Lemma obj_set_In o k v k' v' :
  In (k', v') (obj_set k v o) -> In (k', v') o \/ (k' = k /\ v' = v).
Proof.
  induction o as [|[k0 v0] o IH]; simpl.
  - intros [E|[]]. inversion E. auto.
  - destruct (String.eqb_spec k0 k) as [->|Hne]; simpl.
    + intros [E|Hin]; [inversion E; auto | auto].
    + intros [E|Hin]; [auto|]. destruct (IH Hin) as [?|?]; auto.
Qed.

Lemma insert_by_index_In (n : N) v (l : list (N * V)) (x : N * V) :
  In x (insert_by_index n v l) <-> x = (n, v) \/ In x l.
Proof.
  induction l as [|[m w] l IH]; simpl.
  - intuition.
  - destruct (n <=? m); simpl; [intuition|].
    rewrite IH. intuition.
Qed.

Lemma index_props_In o (n : N) v :
  In (n, v) (index_props o) -> exists k, In (k, v) o.
Proof.
  induction o as [|[k0 v0] o IH]; simpl; [tauto|].
  destruct (array_index k0) as [m|].
  - rewrite insert_by_index_In. intros [E|Hin].
    + inversion E; subst. exists k0. auto.
    + destruct (IH Hin) as [k Hk]. exists k. auto.
  - intros Hin. destruct (IH Hin) as [k Hk]. exists k. auto.
Qed.

Lemma string_props_In o v :
  In v (string_props o) -> exists k, In (k, v) o.
Proof.
  induction o as [|[k0 v0] o IH]; simpl; [tauto|].
  destruct (array_index k0) as [m|].
  - intros Hin. destruct (IH Hin) as [k Hk]. exists k. auto.
  - intros [->|Hin]; [exists k0; auto|].
    destruct (IH Hin) as [k Hk]. exists k. auto.
Qed.

Lemma Object_values_In o v :
  In v (Object_values o) -> exists k, In (k, v) o.
Proof.
  unfold Object_values. rewrite in_app_iff, in_map_iff.
  intros [[[n w] [E Hin]]|Hin].
  - simpl in E; subst. eapply index_props_In; eauto.
  - apply string_props_In; auto.
Qed.
Lemma obj_get_set o k v k' :
  obj_get k' (obj_set k v o) = if String.eqb k k' then Some v else obj_get k' o.
Proof.
  induction o as [|[k0 v0] o IH]; simpl; [done|].
  destruct (String.eqb_spec k0 k) as [->|Hne]; simpl.
  - by destruct (String.eqb k k').
  - rewrite IH. destruct (String.eqb_spec k0 k') as [->|_]; [|done].
    by destruct (String.eqb_spec k k') as [->|_].
Qed.

Lemma obj_get_In o k v : obj_get k o = Some v -> In (k, v) o.
Proof.
  induction o as [|[k0 v0] o IH]; simpl; [done|].
  destruct (String.eqb_spec k0 k) as [->|_]; [intros [= ->]; auto|auto].
Qed.

Lemma In_obj_get o k v : List.NoDup (map fst o) -> In (k, v) o -> obj_get k o = Some v.
Proof.
  induction o as [|[k0 v0] o IH]; simpl; [done|].
  intros Hnd [[= -> ->]|Hin].
  - by rewrite String.eqb_refl.
  - apply NoDup_cons_iff in Hnd as [Hk0 Hnd].
    destruct (String.eqb_spec k0 k) as [->|_]; [|by apply IH].
    destruct Hk0. apply in_map_iff. by exists (k, v).
Qed.

Lemma obj_set_keys o k v k' :
  In k' (map fst (obj_set k v o)) -> In k' (map fst o) \/ k' = k.
Proof.
  rewrite !in_map_iff. intros ([k0 v0] & <- & Hin). simpl.
  destruct (obj_set_In _ _ _ _ _ Hin) as [?|[-> _]]; [|by right].
  left. by exists (k0, v0).
Qed.

Lemma obj_set_NoDup o k v : List.NoDup (map fst o) -> List.NoDup (map fst (obj_set k v o)).
Proof.
  induction o as [|[k0 v0] o IH]; simpl; intros Hnd.
  - constructor; [by intros []|constructor].
  - apply NoDup_cons_iff in Hnd as [Hk0 Hnd].
    destruct (String.eqb_spec k0 k) as [->|Hne]; simpl.
    + by constructor.
    + constructor; [|by apply IH].
      intros Hin. destruct (obj_set_keys _ _ _ _ Hin); [done|congruence].
Qed.

Lemma insert_by_index_Permutation (n : N) v (l : list (N * V)) :
  Permutation (map snd (insert_by_index n v l)) (v :: map snd l).
Proof.
  induction l as [|[m w] l IH]; simpl; [done|].
  destruct (n <=? m); simpl; [done|].
  rewrite IH. apply perm_swap.
Qed.

Lemma Object_values_Permutation o : Permutation (Object_values o) (map snd o).
Proof.
  unfold Object_values. induction o as [|[k0 v0] o IH]; simpl; [done|].
  destruct (array_index k0) as [n|].
  - rewrite insert_by_index_Permutation. simpl. by rewrite IH.
  - rewrite <- Permutation_middle. by rewrite IH.
Qed.
End JsObjectFacts.

(** ** Deduplication *)

Lemma uniqueIndexerEvents_from_In (pending : list IndexerWasmEvent) acc k e :
  In (k, e) (fold_left (fun acc event => obj_set (dedupKey event) event acc) pending acc) ->
  In (k, e) acc \/ In e pending.
Proof.
  revert acc. induction pending as [|x pending IH]; simpl; intros acc Hin; [auto|].
  destruct (IH _ Hin) as [Hacc|Hp]; [|auto].
  destruct (obj_set_In _ _ _ _ _ Hacc) as [?|[_ ->]]; auto.
Qed.

Lemma uniqueIndexerEvents_from_get (pending : list IndexerWasmEvent) acc k :
  obj_get k (fold_left (fun acc event => obj_set (dedupKey event) event acc) pending acc)
  = match lastWithKey k pending with
    | Some e => Some e
    | None => obj_get k acc
    end.
Proof.
  revert acc. induction pending as [|x pending IH]; intros acc; simpl; [done|].
  rewrite IH. destruct (lastWithKey k pending); [done|]. rewrite obj_get_set.
  by destruct (String.eqb (dedupKey x) k).
Qed.

Lemma uniqueIndexerEvents_from_NoDup (pending : list IndexerWasmEvent) acc :
  List.NoDup (map fst acc) ->
  List.NoDup (map fst (fold_left (fun acc event => obj_set (dedupKey event) event acc)
                            pending acc)).
Proof.
  revert acc. induction pending as [|x pending IH]; intros acc Hnd; simpl; [done|].
  apply IH. by apply obj_set_NoDup.
Qed.

Lemma lastWithKey_Some k (pending : list IndexerWasmEvent) e :
  lastWithKey k pending = Some e -> dedupKey e = k /\ In e pending.
Proof.
  induction pending as [|x pending IH]; simpl; [done|].
  destruct (lastWithKey k pending) as [later|].
  - intros [= ->]. destruct IH as [? ?]; auto.
  - destruct (String.eqb_spec (dedupKey x) k) as [<-|_]; [|done].
    intros [= ->]. auto.
Qed.

Lemma uniqueIndexerEvents_lookup (pending : list IndexerWasmEvent) k e :
  In (k, e) (uniqueIndexerEvents pending) <-> lastWithKey k pending = Some e.
Proof.
  unfold uniqueIndexerEvents. split.
  - intros Hin. apply In_obj_get in Hin.
    + rewrite uniqueIndexerEvents_from_get in Hin.
      by destruct (lastWithKey k pending).
    + apply uniqueIndexerEvents_from_NoDup. constructor.
  - intros Hl. apply obj_get_In. by rewrite uniqueIndexerEvents_from_get, Hl.
Qed.

(** What the deduplication does: a record is exported exactly when it is the
    last of the buffer with its concatenated key, and no two exported
    records share a concatenated key. *)
Lemma eventsToExport_last_per_key (pending : list IndexerWasmEvent) e :
  In e (eventsToExport pending) <-> lastWithKey (dedupKey e) pending = Some e.
Proof.
  unfold eventsToExport. rewrite Object_values_Permutation, in_map_iff. split.
  - intros ([k e'] & <- & Hin). simpl.
    apply uniqueIndexerEvents_lookup in Hin.
    by destruct (lastWithKey_Some _ _ _ Hin) as [-> _].
  - intros Hl. exists (dedupKey e, e). split; [done|].
    by apply uniqueIndexerEvents_lookup.
Qed.

Lemma eventsToExport_one_per_key (pending : list IndexerWasmEvent) :
  List.NoDup (map dedupKey (eventsToExport pending)).
Proof.
  unfold eventsToExport. rewrite Object_values_Permutation, map_map.
  assert (Hnd : List.NoDup (map fst (uniqueIndexerEvents pending))).
  { apply uniqueIndexerEvents_from_NoDup. constructor. }
  assert (Hk : forall k e, In (k, e) (uniqueIndexerEvents pending) -> dedupKey e = k).
  { intros k e Hin. apply uniqueIndexerEvents_lookup in Hin.
    by destruct (lastWithKey_Some _ _ _ Hin). }
  revert Hnd Hk. generalize (uniqueIndexerEvents pending).
  induction l as [|[k e] l IH]; simpl; intros Hnd Hk; [constructor|].
  apply NoDup_cons_iff in Hnd as [Hk0 Hnd].
  constructor; [|by apply IH; auto].
  intros Hin. apply Hk0. apply in_map_iff in Hin as ([k' e'] & E & Hin). simpl in E.
  apply in_map_iff. exists (k', e'). split; [|done]. simpl.
  rewrite <- (Hk k e) by auto. rewrite <- E. symmetry. auto.
Qed.

(** Two records of one (blockHeight, contractAddress, key) in a batch: one
    row is exported, the later one. *)
Lemma eventsToExport_same_triple (e1 e2 : IndexerWasmEvent) :
  ie_triple e1 = ie_triple e2 -> eventsToExport [e1; e2] = [e2].
Proof.
  intros [= Eh Ec Ek]. unfold eventsToExport, uniqueIndexerEvents, dedupKey. simpl.
  rewrite Eh, Ec, Ek, String.eqb_refl. unfold Object_values. simpl.
  by destruct (array_index _).
Qed.

Lemma eventsToExport_In (pending : list IndexerWasmEvent) e :
  In e (eventsToExport pending) -> In e pending.
Proof.
  intros Hin. apply Object_values_In in Hin as [k Hk].
  apply uniqueIndexerEvents_from_In in Hk as [[]|?]. assumption.
Qed.

(** ** Bulk insert with update on duplicate *)

Section UpsertFacts.
Context `{Countable K} {V : Type}.
Variable keyOf : V -> K.
Variable merge : V -> V -> V.
Variable stamp : N -> V -> V.
Hypothesis merge_merge : forall a b c, merge (merge a b) c = merge a c.
Hypothesis merge_stamp : forall n r, merge (stamp n r) r = stamp n r.

Local Abbreviation ups := (upsert keyOf merge stamp).
Local Abbreviation bulk := (bulkUpsert keyOf merge stamp).

Lemma upsert_lookup_ne (t : gmap K V * N) r k :
  keyOf r <> k -> (ups t r).1 !! k = t.1 !! k.
Proof.
  intros Hne. unfold upsert.
  destruct (t.1 !! keyOf r); simpl; by rewrite lookup_insert_ne.
Qed.

Lemma upsert_lookup_eq (t : gmap K V * N) r :
  exists v, (ups t r).1 !! keyOf r = Some v /\ merge v r = v.
Proof.
  unfold upsert.
  destruct (t.1 !! keyOf r) as [old|]; simpl; rewrite lookup_insert_eq; eauto.
Qed.

Lemma bulkUpsert_lookup_None rows (t : gmap K V * N) k :
  lastFor keyOf k rows = None -> (bulk rows t).1 !! k = t.1 !! k.
Proof.
  revert t. induction rows as [|r rows IH]; intros t; simpl; [done|].
  destruct (lastFor keyOf k rows); [done|].
  destruct (decide (keyOf r = k)); [done|]. intros _.
  rewrite IH by done. by apply upsert_lookup_ne.
Qed.

Lemma bulkUpsert_lookup_Some rows (t : gmap K V * N) k r :
  lastFor keyOf k rows = Some r ->
  exists v, (bulk rows t).1 !! k = Some v /\ merge v r = v.
Proof.
  revert t. induction rows as [|r0 rows IH]; intros t; simpl; [done|].
  destruct (lastFor keyOf k rows) as [x|] eqn:El.
  - intros [= ->]. by apply IH.
  - destruct (decide (keyOf r0 = k)) as [<-|]; [|done]. intros [= ->].
    rewrite bulkUpsert_lookup_None by done. apply upsert_lookup_eq.
Qed.

Lemma bulkUpsert_existing rows (t : gmap K V * N) k v :
  t.1 !! k = Some v ->
  (bulk rows t).1 !! k
  = Some (match lastFor keyOf k rows with Some r => merge v r | None => v end).
Proof.
  revert t v. induction rows as [|r rows IH]; intros t v Hv; simpl; [done|].
  destruct (decide (keyOf r = k)) as [<-|Hne].
  - rewrite (IH _ (merge v r)).
    + destruct (lastFor keyOf (keyOf r) rows); [by rewrite merge_merge | done].
    + unfold upsert. rewrite Hv. simpl. by rewrite lookup_insert_eq.
  - rewrite (IH _ v).
    + by destruct (lastFor keyOf k rows).
    + by rewrite upsert_lookup_ne.
Qed.

(** Every stored row that is already there stays, whatever is inserted. *)
Lemma bulkUpsert_preserved (Q : V -> Prop) rows (t : gmap K V * N) k v :
  (forall old r, Q old -> Q (merge old r)) ->
  t.1 !! k = Some v -> Q v ->
  exists v', (bulk rows t).1 !! k = Some v' /\ Q v'.
Proof.
  intros HQ Hv Hq. rewrite (bulkUpsert_existing _ _ _ _ Hv).
  destruct (lastFor keyOf k rows); eauto.
Qed.

(** Inserting the same rows a second time changes no row. *)
Lemma bulkUpsert_twice rows (t : gmap K V * N) :
  (bulk rows (bulk rows t)).1 = (bulk rows t).1.
Proof.
  apply map_eq. intros k.
  destruct (lastFor keyOf k rows) as [r|] eqn:El.
  - destruct (bulkUpsert_lookup_Some rows t k r El) as (v & Hv & Hfix).
    rewrite (bulkUpsert_existing _ _ _ _ Hv), El, Hv. by rewrite Hfix.
  - by rewrite bulkUpsert_lookup_None.
Qed.
Lemma upsert_keyed (t : gmap K V * N) r :
  (forall old r, keyOf (merge old r) = keyOf old) ->
  (forall n r, keyOf (stamp n r) = keyOf r) ->
  (forall k v, t.1 !! k = Some v -> keyOf v = k) ->
  forall k v, (ups t r).1 !! k = Some v -> keyOf v = k.
Proof.
  intros Hm Hs Ht k v. unfold upsert.
  destruct (t.1 !! keyOf r) as [old|] eqn:E; simpl;
    (destruct (decide (keyOf r = k)) as [<-|Hne];
     [rewrite lookup_insert_eq | rewrite lookup_insert_ne by done; apply Ht]).
  - intros [= <-]. rewrite Hm. by apply Ht.
  - intros [= <-]. by rewrite Hs.
Qed.

Lemma bulkUpsert_keyed rows (t : gmap K V * N) :
  (forall old r, keyOf (merge old r) = keyOf old) ->
  (forall n r, keyOf (stamp n r) = keyOf r) ->
  (forall k v, t.1 !! k = Some v -> keyOf v = k) ->
  forall k v, (bulk rows t).1 !! k = Some v -> keyOf v = k.
Proof.
  intros Hm Hs. revert t. induction rows as [|r rows IH]; intros t Ht; simpl; [done|].
  apply IH. by apply upsert_keyed.
Qed.

Lemma bulkUpsert_present rows (t : gmap K V * N) k :
  is_Some (t.1 !! k) -> is_Some ((bulk rows t).1 !! k).
Proof. intros [v Hv]. rewrite (bulkUpsert_existing _ _ _ _ Hv). eauto. Qed.

Lemma bulkUpsert_rows_present rows (t : gmap K V * N) r :
  In r rows -> is_Some ((bulk rows t).1 !! keyOf r).
Proof.
  revert t. induction rows as [|r0 rows IH]; intros t; simpl; [done|].
  intros [->|Hin]; [|by apply IH].
  apply bulkUpsert_present. destruct (upsert_lookup_eq t r) as (v & -> & _). eauto.
Qed.

Lemma firstRepeat_None (seen : list K) rows :
  firstRepeat keyOf seen rows = None
  <-> List.NoDup (map keyOf rows) /\ forall r, In r rows -> keyOf r ∉ seen.
Proof.
  revert seen. induction rows as [|r rows IH]; intros seen; simpl.
  - split; [|done]. intros _. split; [constructor|done].
  - destruct (bool_decide_reflect (keyOf r ∈ seen)) as [Hin|Hout].
    + split; [done|]. intros [_ Hall]. destruct (Hall r); auto.
    + rewrite fmap_None, IH. split.
      * intros [Hnd Hall]. split.
        -- constructor; [|done]. intros Hr. apply in_map_iff in Hr as (r' & Hk & Hr').
           apply (Hall r' Hr'). rewrite Hk. apply elem_of_cons. by left.
        -- intros r' [<-|Hr']; [done|]. intros Hs. apply (Hall r' Hr').
           apply elem_of_cons. by right.
      * intros [Hnd Hall]. apply NoDup_cons_iff in Hnd as [Hr Hnd]. split; [done|].
        intros r' Hr' Hs. apply elem_of_cons in Hs as [Heq|Hs].
        -- apply Hr. apply in_map_iff. by exists r'.
        -- apply (Hall r'); [by right|done].
Qed.

Lemma firstRepeat_NoDup rows :
  firstRepeat keyOf [] rows = None <-> List.NoDup (map keyOf rows).
Proof.
  rewrite firstRepeat_None. split; [by intros [? _]|].
  intros Hnd. split; [done|]. intros r _. apply not_elem_of_nil.
Qed.

(** The statement is carried out exactly when no two of its rows have the
    same key; refused, it leaves the table as it was. *)
Lemma bulkCreate_Returns rows (t t' : gmap K V * N) u :
  bulkCreate keyOf merge stamp rows t = (t', Returns u) ->
  t' = bulk rows t /\ List.NoDup (map keyOf rows).
Proof.
  unfold bulkCreate. destruct (firstRepeat keyOf [] rows) eqn:Ef; [done|].
  intros [= <- _]. split; [done|]. by apply firstRepeat_NoDup.
Qed.

Lemma bulkCreate_Throws rows (t t' : gmap K V * N) :
  bulkCreate keyOf merge stamp rows t = (t', Throws) ->
  t'.1 = t.1 /\ t.2 <= t'.2 /\ ~ List.NoDup (map keyOf rows).
Proof.
  unfold bulkCreate. destruct (firstRepeat keyOf [] rows) eqn:Ef; [|done].
  intros [= <-]. simpl. split; [done|]. split; [lia|].
  intros Hnd. apply firstRepeat_NoDup in Hnd. congruence.
Qed.

Lemma bulkCreate_NoDup rows (t : gmap K V * N) :
  List.NoDup (map keyOf rows) ->
  bulkCreate keyOf merge stamp rows t = (bulk rows t, Returns tt).
Proof.
  intros Hnd. unfold bulkCreate. by rewrite (proj2 (firstRepeat_NoDup rows) Hnd).
Qed.
End UpsertFacts.

(** ** The two tables the exporter upserts *)

Lemma mergeContract_merge a b c :
  mergeContract (mergeContract a b) c = mergeContract a c.
Proof. reflexivity. Qed.

Lemma mergeContract_self r : mergeContract r r = r.
Proof. by destruct r. Qed.

Lemma mergeEvent_merge a b c : mergeEvent (mergeEvent a b) c = mergeEvent a c.
Proof. reflexivity. Qed.

Lemma mergeEvent_stamp n r : mergeEvent (stampEvent n r) r = stampEvent n r.
Proof. destruct r as [i []]. reflexivity. Qed.

Lemma map_rowKey_unsavedRow (parsed : list ParsedWasmEvent) :
  map rowKey (map unsavedRow parsed) = map eventKey parsed.
Proof. rewrite map_map. by apply map_ext. Qed.

Lemma WasmEvent_bulkCreate_Returns parsed t t' u :
  WasmEvent_bulkCreate parsed t = (t', Returns u) ->
  t' = WasmEvent_upsertRows parsed t /\ List.NoDup (map eventKey parsed).
Proof.
  intros E. apply bulkCreate_Returns in E as [-> Hnd]. split; [done|].
  by rewrite <- map_rowKey_unsavedRow.
Qed.

Lemma WasmEvent_bulkCreate_Throws parsed t t' :
  WasmEvent_bulkCreate parsed t = (t', Throws) ->
  t'.1 = t.1 /\ t.2 <= t'.2 /\ ~ List.NoDup (map eventKey parsed).
Proof.
  intros E. apply bulkCreate_Throws in E as (? & ? & Hnd). split; [done|].
  split; [done|]. by rewrite <- map_rowKey_unsavedRow.
Qed.

Lemma WasmEvent_bulkCreate_NoDup parsed t :
  List.NoDup (map eventKey parsed) ->
  WasmEvent_bulkCreate parsed t = (WasmEvent_upsertRows parsed t, Returns tt).
Proof.
  intros Hnd. apply bulkCreate_NoDup. by rewrite map_rowKey_unsavedRow.
Qed.

Lemma Contract_bulkCreate_existing rows (t : gmap string Contract) a row :
  t !! a = Some row ->
  exists row', Contract_bulkCreate rows t !! a = Some row' /\ sameInstantiation row row'.
Proof.
  intros Hrow. unfold Contract_bulkCreate.
  apply (bulkUpsert_preserved c_address mergeContract (fun _ r => r) mergeContract_merge
           (sameInstantiation row) rows (t, 0) a row); [|done|by repeat split].
  intros old r (? & ? & ? & ?). by repeat split.
Qed.

(** ** exporter, table by table *)

Section ExporterFacts.
Context {Aux Transformation : Type} `{Collaborators Aux Transformation}.
Implicit Types (db : DB Aux) (parsed : list ParsedWasmEvent).

Lemma createContracts_frame n parsed ucs db :
  let db' := (createContracts n parsed ucs db).1 in
  events db' = events db /\ nextEventId db' = nextEventId db
  /\ state db' = state db /\ pendingWebhooks db' = pendingWebhooks db
  /\ aux db' = aux db.
Proof.
  revert db. induction n as [|n IH]; intros db; simpl; [done|].
  destruct (contractRows parsed ucs) as [rows|].
  - destruct (faults db) as [|[] coming]; simpl; [done| |done].
    destruct n; simpl; [done|]. apply (IH (with_faults db coming)).
  - destruct n; simpl; [done|]. apply IH.
Qed.

Lemma createContracts_contracts n parsed ucs db :
  let db' := (createContracts n parsed ucs db).1 in
  contracts db' = contracts db
  \/ exists rows, contractRows parsed ucs = Returns rows
                /\ contracts db' = Contract_bulkCreate rows (contracts db).
Proof.
  revert db. induction n as [|n IH]; intros db; simpl; [by left|].
  destruct (contractRows parsed ucs) as [rows|] eqn:Er.
  - destruct (faults db) as [|[] coming]; simpl; [by eauto| |by eauto].
    destruct n; simpl; [by left|].
    destruct (IH (with_faults db coming)) as [E|(rows' & E1 & E2)]; [by left|].
    right. exists rows'. split; [congruence|done].
  - destruct n; simpl; [by left|].
    destruct (IH db) as [E|(rows' & E1 & E2)]; [by left|congruence].
Qed.

Lemma createContracts_Returns n parsed ucs db db' u :
  createContracts (S n) parsed ucs db = (db', Returns u) ->
  exists rows, contractRows parsed ucs = Returns rows
               /\ contracts db' = Contract_bulkCreate rows (contracts db).
Proof.
  revert db. induction n as [|n IH]; intros db.
  - simpl. destruct (contractRows parsed ucs) as [rows|]; [|done].
    destruct (faults db) as [|[] coming]; [|done|]; intros [= <- _]; eauto.
  - change (createContracts (S (S n)) parsed ucs db)
      with (match contractRows parsed ucs with
            | Throws => createContracts (S n) parsed ucs db
            | Returns rows =>
                match faults db with
                | true :: coming => createContracts (S n) parsed ucs (with_faults db coming)
                | false :: coming =>
                    (with_contracts (with_faults db coming)
                       (Contract_bulkCreate rows (contracts db)), Returns tt)
                | [] => (with_contracts db (Contract_bulkCreate rows (contracts db)),
                         Returns tt)
                end
            end).
    destruct (contractRows parsed ucs) as [rows|] eqn:Er.
    + destruct (faults db) as [|[] coming].
      * intros [= <- _]; eauto.
      * intros E. apply IH in E as (rows' & E1 & E2). eauto.
      * intros [= <- _]; eauto.
    + intros E. apply IH in E as (rows' & E1 & E2). congruence.
Qed.

Lemma queueWebhooks_table webhooks store table evs :
  exists more, (queueWebhooks webhooks store table evs).1 = (table ++ more)%list.
Proof.
  unfold queueWebhooks. destruct webhooks; simpl; [exists []; by rewrite app_nil_r|].
  destruct (Promise_all _) as [results|]; simpl; [|exists []; by rewrite app_nil_r].
  destruct (omap _ results) eqn:E; simpl; [exists []; by rewrite app_nil_r|].
  unfold PendingWebhook_bulkCreate.
  destruct (storedPendingWebhooks _) as [created|]; simpl;
    [eauto|exists []; by rewrite app_nil_r].
Qed.

Lemma exporter_Returns parsed f1 f2 db db' r :
  exporter parsed f1 f2 db = (db', Returns r) ->
  exists rows st lastEvent more,
    contractRows parsed (uniqueStrings (map pe_contractAddress parsed)) = Returns rows
    /\ contracts db' = Contract_bulkCreate rows (contracts db)
    /\ (events db', nextEventId db')
       = WasmEvent_upsertRows parsed (events db, nextEventId db)
    /\ state db = Some st
    /\ last parsed = Some lastEvent
    /\ state db' = Some (advanceState st (pe_blockHeight lastEvent)
                           (pe_blockTimeUnixMs lastEvent))
    /\ pendingWebhooks db' = (pendingWebhooks db ++ more)%list
    /\ lastBlockHeightExported r = pe_blockHeight lastEvent.
Proof.
  unfold exporter. destruct (state db) as [st|] eqn:Est; [|done].
  destruct (createContracts 3 parsed _ db) as [db1 [u|]] eqn:Ec; [|done].
  pose proof (createContracts_frame 3 parsed (uniqueStrings (map pe_contractAddress parsed)) db) as Hf.
  rewrite Ec in Hf. simpl in Hf. destruct Hf as (He & Hn & Hs & Hp & Ha).
  apply createContracts_Returns in Ec as (rows & Er & Hc).
  rewrite He, Hn.
  destruct (WasmEvent_bulkCreate parsed (events db, nextEventId db)) as [t0 [u0|]] eqn:Eb;
    [|done].
  apply WasmEvent_bulkCreate_Returns in Eb as [-> _].
  set (t := WasmEvent_upsertRows parsed (events db, nextEventId db)).
  set (evs := attachContracts _ (createdInstances parsed t.1)).
  destruct (transformParsedEvents _ _) as [a tr].
  destruct (if f1 then _ else _) as [a0 [upd des]].
  destruct f2.
  - destruct (last parsed) as [lastEvent|] eqn:El; [|done].
    simpl. rewrite Hs, Est. intros [= <- <-]. simpl.
    exists rows, st, lastEvent, []. rewrite app_nil_r, Hp. by destruct t.
  - simpl. rewrite Hp.
    destruct (queueWebhooks_table (getProcessedWebhooks st) t.1 (pendingWebhooks db) evs)
      as [more Hm].
    destruct (queueWebhooks _ _ _ _) as [table [n|]]; [|done]. simpl in Hm.
    destruct (AccountWebhook_queueWebhooks _ _) as [a1 m].
    destruct (last parsed) as [lastEvent|] eqn:El; [|done].
    simpl. rewrite Hs, Est. intros [= <- <-]. simpl.
    exists rows, st, lastEvent, more. rewrite Hm. by destruct t.
Qed.

Lemma exporter_effect parsed f1 f2 db :
  let db' := (exporter parsed f1 f2 db).1 in
  (contracts db' = contracts db
   \/ exists rows, contracts db' = Contract_bulkCreate rows (contracts db))
  /\ (state db' = state db
      \/ exists st lastEvent,
           state db = Some st /\ last parsed = Some lastEvent
           /\ state db' = Some (advanceState st (pe_blockHeight lastEvent)
                                  (pe_blockTimeUnixMs lastEvent))).
Proof.
  unfold exporter. destruct (state db) as [st|] eqn:Est; [|simpl; auto].
  pose proof (createContracts_frame 3 parsed
                (uniqueStrings (map pe_contractAddress parsed)) db) as Hf.
  pose proof (createContracts_contracts 3 parsed
                (uniqueStrings (map pe_contractAddress parsed)) db) as Hc.
  destruct (createContracts 3 parsed _ db) as [db1 [u|]]; simpl in Hf, Hc;
    destruct Hf as (He & Hn & Hs & Hp & Ha).
  2:{ simpl. split; [|left; congruence].
      destruct Hc as [?|(rows & _ & ?)]; eauto. }
  assert (Hc' : contracts db1 = contracts db
                \/ exists rows, contracts db1 = Contract_bulkCreate rows (contracts db)).
  { destruct Hc as [?|(rows & _ & ?)]; eauto. }
  clear Hc.
  destruct (WasmEvent_bulkCreate parsed (events db1, nextEventId db1)) as [t [u0|]];
    [|simpl; split; [done|left; congruence]].
  set (evs := attachContracts _ (createdInstances parsed t.1)).
  destruct (transformParsedEvents _ _) as [a tr].
  destruct (if f1 then _ else _) as [a0 [upd des]].
  destruct f2.
  - destruct (last parsed) as [lastEvent|] eqn:El; simpl.
    + rewrite Hs, Est. simpl. split; [done|]. right. by exists st, lastEvent.
    + split; [done|]. left. congruence.
  - simpl. destruct (queueWebhooks _ _ _ _) as [table [n|]]; simpl.
    + destruct (AccountWebhook_queueWebhooks _ _) as [a1 m].
      destruct (last parsed) as [lastEvent|] eqn:El; simpl.
      * rewrite Hs, Est. simpl. split; [done|]. right. by exists st, lastEvent.
      * split; [done|]. left. congruence.
    + split; [done|]. left. congruence.
Qed.

Lemma sameInstantiation_trans (a b c : Contract) :
  sameInstantiation a b -> sameInstantiation b c -> sameInstantiation a c.
Proof.
  unfold sameInstantiation. intros (? & ? & ? & ?) (? & ? & ? & ?).
  repeat split; congruence.
Qed.

Lemma exporter_keeps_instantiation parsed f1 f2 db a row :
  contracts db !! a = Some row ->
  exists row', contracts (exporter parsed f1 f2 db).1 !! a = Some row'
               /\ sameInstantiation row row'.
Proof.
  intros Hrow.
  destruct (exporter_effect parsed f1 f2 db) as [[E|(rows & E)] _]; rewrite E.
  - exists row. split; [done|]. by repeat split.
  - by apply Contract_bulkCreate_existing.
Qed.

(** C5: a Contract row that exists keeps its address and its three
    instantiatedAt columns through every later export, whatever batches
    follow and whether or not an export throws; of its columns only codeId
    can change. *)
Theorem contract_upsert_keeps_instantiation f1 f2 (batches : list (list ParsedWasmEvent))
    db a row :
  contracts db !! a = Some row ->
  exists row', contracts (exportAll f1 f2 batches db).1 !! a = Some row'
               /\ sameInstantiation row row'.
Proof.
  revert db row. induction batches as [|b batches IH]; intros db row Hrow; simpl.
  - exists row. split; [done|]. by repeat split.
  - destruct (exporter_keeps_instantiation b f1 f2 db a row Hrow) as (row1 & H1 & S1).
    destruct (exporter b f1 f2 db) as [db1 [r|]]; simpl in H1.
    + destruct (IH db1 row1 H1) as (row2 & H2 & S2).
      exists row2. split; [done|]. eapply sameInstantiation_trans; eauto.
    + simpl. eauto.
Qed.

Lemma GREATEST_max column x : GREATEST column x = N.max (default 0 column) x.
Proof. destruct column; simpl; [done|]. lia. Qed.

Lemma checkpointLe_refl s : checkpointLe s s.
Proof. destruct s; simpl; [lia|done]. Qed.

Lemma checkpointLe_trans s1 s2 s3 :
  checkpointLe s1 s2 -> checkpointLe s2 s3 -> checkpointLe s1 s3.
Proof. destruct s1, s2, s3; simpl; try done; lia. Qed.

Lemma checkpointLe_advance st h t :
  checkpointLe (Some st) (Some (advanceState st h t)).
Proof. simpl. rewrite !GREATEST_max. simpl. lia. Qed.

Lemma exporter_checkpointLe parsed f1 f2 db :
  checkpointLe (state db) (state (exporter parsed f1 f2 db).1).
Proof.
  destruct (exporter_effect parsed f1 f2 db) as [_ [E|(st & l & E1 & _ & E2)]].
  - rewrite E. apply checkpointLe_refl.
  - rewrite E1, E2. apply checkpointLe_advance.
Qed.

Lemma exporter_Throws_state parsed f1 f2 db :
  (exporter parsed f1 f2 db).2 = Throws -> state (exporter parsed f1 f2 db).1 = state db.
Proof.
  destruct (exporter parsed f1 f2 db) as [db' [r|]] eqn:E; [done|]. intros _. simpl.
  revert E. unfold exporter. destruct (state db) as [st|] eqn:Est; [|by intros [= <-]].
  pose proof (createContracts_frame 3 parsed
                (uniqueStrings (map pe_contractAddress parsed)) db) as Hf.
  destruct (createContracts 3 parsed _ db) as [db1 [u|]]; simpl in Hf;
    destruct Hf as (He & Hn & Hs & Hp & Ha); [|intros [= <-]; congruence].
  destruct (WasmEvent_bulkCreate parsed _) as [t [u0|]];
    [|intros [= <-]; simpl; congruence].
  destruct (transformParsedEvents _ _) as [a tr].
  destruct (if f1 then _ else _) as [a0 [upd des]].
  destruct f2.
  - destruct (last parsed) as [lastEvent|]; [done|]. intros [= <-]. simpl. congruence.
  - simpl. destruct (queueWebhooks _ _ _ _) as [table [n|]]; simpl.
    + destruct (AccountWebhook_queueWebhooks _ _) as [a1 k].
      destruct (last parsed) as [lastEvent|]; [done|]. intros [= <-]. simpl. congruence.
    + intros [= <-]. simpl. congruence.
Qed.

Lemma Contract_counter_irrelevant rows (t : gmap string Contract) n m :
  (bulkUpsert c_address mergeContract (fun _ r => r) rows (t, n)).1
  = (bulkUpsert c_address mergeContract (fun _ r => r) rows (t, m)).1.
Proof.
  revert t n m. induction rows as [|r rows IH]; intros t n m; simpl; [done|].
  unfold upsert. simpl. destruct (t !! c_address r); apply IH.
Qed.

Lemma Contract_bulkCreate_app rows1 rows2 (t : gmap string Contract) :
  Contract_bulkCreate (rows1 ++ rows2) t
  = Contract_bulkCreate rows2 (Contract_bulkCreate rows1 t).
Proof.
  unfold Contract_bulkCreate, bulkUpsert. rewrite fold_left_app.
  destruct (fold_left _ rows1 (t, 0)) as [t1 n1]. apply Contract_counter_irrelevant.
Qed.

Lemma Contract_bulkCreate_twice rows (t : gmap string Contract) :
  Contract_bulkCreate rows (Contract_bulkCreate rows t) = Contract_bulkCreate rows t.
Proof.
  unfold Contract_bulkCreate.
  rewrite <- (bulkUpsert_twice c_address mergeContract (fun _ r => r)
                mergeContract_merge (fun _ r => mergeContract_self r) rows (t, 0)) at 2.
  destruct (bulkUpsert _ _ _ rows (t, 0)) as [t1 n1]. apply Contract_counter_irrelevant.
Qed.

Lemma WasmEvent_upsertRows_app parsed1 parsed2 t :
  WasmEvent_upsertRows (parsed1 ++ parsed2) t
  = WasmEvent_upsertRows parsed2 (WasmEvent_upsertRows parsed1 t).
Proof.
  unfold WasmEvent_upsertRows, bulkUpsert. by rewrite map_app, fold_left_app.
Qed.

Lemma WasmEvent_upsertRows_twice parsed t :
  (WasmEvent_upsertRows parsed (WasmEvent_upsertRows parsed t)).1
  = (WasmEvent_upsertRows parsed t).1.
Proof.
  apply (bulkUpsert_twice rowKey mergeEvent stampEvent mergeEvent_merge mergeEvent_stamp).
Qed.

Lemma checkpointCovers_advance_same st (e : ParsedWasmEvent) :
  checkpointCovers (Some (advanceState st (pe_blockHeight e) (pe_blockTimeUnixMs e))) e.
Proof.
  simpl. rewrite !GREATEST_max. simpl. split; [|lia].
  eexists. split; [done|]. lia.
Qed.

Lemma checkpointCovers_advance st h t (e : ParsedWasmEvent) :
  checkpointCovers (Some st) e -> checkpointCovers (Some (advanceState st h t)) e.
Proof.
  simpl. intros ((c & Ec & Hc) & H2 & H3). rewrite !GREATEST_max, Ec. simpl.
  split; [|lia]. eexists. split; [done|]. lia.
Qed.

Lemma advanceState_covered st (e : ParsedWasmEvent) :
  checkpointCovers (Some st) e ->
  advanceState st (pe_blockHeight e) (pe_blockTimeUnixMs e) = st.
Proof.
  destruct st as [l h t]. simpl. intros ((c & -> & Hc) & H2 & H3).
  unfold advanceState. simpl. f_equal; [f_equal|..]; lia.
Qed.

Lemma exporter_covers_preserved parsed f1 f2 db e :
  checkpointCovers (state db) e ->
  checkpointCovers (state (exporter parsed f1 f2 db).1) e.
Proof.
  intros Hc.
  destruct (exporter_effect parsed f1 f2 db) as [_ [E|(st & l & E1 & _ & E2)]].
  - by rewrite E.
  - rewrite E2. apply checkpointCovers_advance. by rewrite <- E1.
Qed.

Lemma exportAll_covers_preserved f1 f2 (batches : list (list ParsedWasmEvent)) db e :
  checkpointCovers (state db) e ->
  checkpointCovers (state (exportAll f1 f2 batches db).1) e.
Proof.
  revert db. induction batches as [|b batches IH]; intros db Hc; simpl; [done|].
  pose proof (exporter_covers_preserved b f1 f2 db e Hc) as Hb.
  destruct (exporter b f1 f2 db) as [db1 [r|]]; simpl in *; [by apply IH|done].
Qed.

(** What a completed run over several batches has done to each table. *)
Lemma exportAll_Returns f1 f2 (batches : list (list ParsedWasmEvent)) db db' u :
  exportAll f1 f2 batches db = (db', Returns u) ->
  contracts db'
  = Contract_bulkCreate (concat (map batchContractRows batches)) (contracts db)
  /\ (events db', nextEventId db')
     = WasmEvent_upsertRows (concat batches) (events db, nextEventId db)
  /\ (exists more, pendingWebhooks db' = (pendingWebhooks db ++ more)%list)
  /\ (forall b, In b batches ->
                exists l, last b = Some l /\ checkpointCovers (state db') l)
  /\ ((forall b l, In b batches -> last b = Some l -> checkpointCovers (state db) l) ->
      state db' = state db).
Proof.
  revert db. induction batches as [|b batches IH]; intros db; simpl.
  - intros [= <- _]. repeat split; try done.
    + exists []. by rewrite app_nil_r.
  - destruct (exporter b f1 f2 db) as [db1 [r|]] eqn:Eb; [|done]. intros Erest.
    pose proof Erest as Hcov.
    apply IH in Erest as (Hc & He & (more2 & Hp) & Hl & Hs).
    apply exporter_Returns in Eb
      as (rows & st & l & more1 & Er & Hc1 & He1 & Es & El & Es1 & Hp1 & _).
    repeat split.
    + rewrite Contract_bulkCreate_app, Hc, Hc1.
      replace (batchContractRows b) with rows; [done|].
      unfold batchContractRows. by rewrite Er.
    + by rewrite WasmEvent_upsertRows_app, He, He1.
    + exists (more1 ++ more2)%list. by rewrite Hp, Hp1, app_assoc.
    + intros b' [<-|Hin]; [|by apply Hl].
      exists l. split; [done|].
      replace db' with (exportAll f1 f2 batches db1).1 by (by rewrite Hcov).
      apply exportAll_covers_preserved. rewrite Es1.
      apply checkpointCovers_advance_same.
    + intros Hall. rewrite Hs.
      * rewrite Es1, Es. f_equal. apply advanceState_covered.
        rewrite <- Es. by apply (Hall b l); [left|].
      * intros b' l' Hin El'. rewrite Es1.
        specialize (Hall b' l' (or_intror Hin) El'). rewrite Es in Hall.
        by apply checkpointCovers_advance.
Qed.

Lemma bulkUpsert_sequence {K0 V0} `{Countable K0} (keyOf : V0 -> K0) merge stamp
    (rows : list V0) (t : gmap K0 V0 * N) :
  (bulkUpsert keyOf merge stamp rows t).2 = t.2 + N.of_nat (length rows).
Proof.
  unfold bulkUpsert. revert t.
  induction rows as [|r rows IH]; intros t; cbn [fold_left length]; [lia|].
  rewrite IH. unfold upsert. destruct (t.1 !! keyOf r); simpl; lia.
Qed.

(** Exporting a sequence of batches a second time: the Contract table, the
    WasmEvent table and the State row end as the first run left them, the
    PendingWebhook table is only appended to, and the id sequence of
    WasmEvent advances by one for every record. *)
Lemma exportAll_replay f1 f2
    (batches : list (list ParsedWasmEvent)) db db1 db2 u1 u2 :
  exportAll f1 f2 batches db = (db1, Returns u1) ->
  exportAll f1 f2 batches db1 = (db2, Returns u2) ->
  contracts db2 = contracts db1
  /\ events db2 = events db1
  /\ state db2 = state db1
  /\ (exists more, pendingWebhooks db2 = (pendingWebhooks db1 ++ more)%list)
  /\ nextEventId db2 = nextEventId db1 + N.of_nat (length (concat batches)).
Proof.
  intros E1 E2.
  apply exportAll_Returns in E1 as (Hc1 & He1 & _ & Hl1 & _).
  apply exportAll_Returns in E2 as (Hc2 & He2 & Hp2 & _ & Hs2).
  repeat split.
  - by rewrite Hc2, Hc1, Contract_bulkCreate_twice.
  - change (events db2) with (events db2, nextEventId db2).1.
    change (events db1) with (events db1, nextEventId db1).1.
    by rewrite He2, He1, WasmEvent_upsertRows_twice.
  - apply Hs2. intros b l Hin El.
    destruct (Hl1 b Hin) as (l' & El' & Hcov). congruence.
  - done.
  - change (nextEventId db2) with (events db2, nextEventId db2).2.
    rewrite He2. unfold WasmEvent_upsertRows. rewrite bulkUpsert_sequence.
    simpl. by rewrite length_map.
Qed.

(** With [dontSendWebhooks] no export touches the PendingWebhook table. *)
Lemma exportAll_dontSendWebhooks f1 (batches : list (list ParsedWasmEvent)) db :
  pendingWebhooks (exportAll f1 true batches db).1 = pendingWebhooks db.
Proof.
  revert db. induction batches as [|b batches IH]; intros db; simpl; [done|].
  assert (Hb : pendingWebhooks (exporter b f1 true db).1 = pendingWebhooks db).
  { unfold exporter. destruct (state db) as [st|]; [|done].
    pose proof (createContracts_frame 3 b (uniqueStrings (map pe_contractAddress b)) db)
      as Hf.
    destruct (createContracts 3 b _ db) as [db1 [u|]]; simpl in Hf;
      destruct Hf as (_ & _ & _ & Hp & _); [|done].
    destruct (WasmEvent_bulkCreate b _) as [t [u0|]]; [|done].
    destruct (transformParsedEvents _ _) as [a tr].
    destruct (if f1 then _ else _) as [a0 [upd des]].
    destruct (last b) as [lastEvent|]; [|done].
    simpl. by destruct (state db1). }
  destruct (exporter b f1 true db) as [db1 [r|]]; simpl in *; [|done].
  by rewrite IH.
Qed.

Lemma exportAll_app f1 f2 (batches1 batches2 : list (list ParsedWasmEvent)) db db1 u :
  exportAll f1 f2 batches1 db = (db1, Returns u) ->
  exportAll f1 f2 (batches1 ++ batches2) db = exportAll f1 f2 batches2 db1.
Proof.
  revert db. induction batches1 as [|b batches1 IH]; intros db; simpl.
  - by intros [= <- _].
  - destruct (exporter b f1 f2 db) as [db0 [r|]]; [|done]. apply IH.
Qed.
End ExporterFacts.

(** ** handler and flush *)

Section ModuleFacts.
Context `{Codec} {Aux Transformation : Type} `{Collaborators Aux Transformation}.
Implicit Types (m : ModuleState) (db : DB Aux) (batches : list (list ParsedWasmEvent)).

Lemma parsedEvents_In (pending : list IndexerWasmEvent) y :
  In y (parsedEvents pending) ->
  exists x, In x pending /\ pe_blockHeight y = ie_blockHeight x.
Proof.
  unfold parsedEvents. rewrite in_map_iff. intros (x & <- & Hx).
  exists x. split; [by apply eventsToExport_In|done].
Qed.

Lemma flush_cases opts m db m' db' r :
  flush opts (m, db) = ((m', db'), r) ->
  match r with
  | Returns (Some batch) =>
      pending m' = [] /\ lastBlockHeightSeen m' = lastBlockHeightSeen m
      /\ batch = parsedEvents (pending m)
  | _ => m' = m
  end.
Proof.
  unfold flush. destruct (pending m) as [|x l] eqn:Ep.
  - by intros [= <- <- <-].
  - destruct (exporter _ _ _ db) as [db1 [res|]]; intros [= <- <- <-]; simpl; auto.
Qed.

Lemma blocksApart_snoc batches b :
  blocksApart batches ->
  (forall b' x y, In b' batches -> In x b' -> In y b ->
                  pe_blockHeight x < pe_blockHeight y) ->
  blocksApart (batches ++ [b]).
Proof.
  induction batches as [|b0 batches IH]; simpl; intros Ha Hb.
  - split; [intros ? ? ? _ []|done].
  - destruct Ha as [Ha1 Ha2]. split.
    + intros x b' y Hx Hb' Hy. apply in_app_or in Hb' as [Hb'|[<-|[]]].
      * eapply Ha1; eauto.
      * eapply Hb; eauto.
    + apply IH; [done|]. intros b' x y Hb' Hx Hy. eapply Hb; eauto.
Qed.

Lemma blocksApart_lookup batches (i j : nat) b1 b2 x y :
  blocksApart batches -> (i < j)%nat ->
  batches !! i = Some b1 -> batches !! j = Some b2 ->
  In x b1 -> In y b2 -> pe_blockHeight x < pe_blockHeight y.
Proof.
  revert i j. induction batches as [|b batches IH]; intros i j Ha Hij; [done|].
  destruct Ha as [Ha1 Ha2].
  destruct i as [|i], j as [|j]; simpl; try lia.
  - intros [= <-] Hj Hx Hy. eapply Ha1; eauto.
    apply list_elem_of_In. eapply list_elem_of_lookup_2; eauto.
  - intros. eapply (IH i j); eauto. lia.
Qed.

Lemma flushInvariant_seen m batches h c :
  flushInvariant m batches -> lastBlockHeightSeen m <= h ->
  flushInvariant {| pending := pending m; lastBlockHeightSeen := h; catchingUp := c |}
                 batches.
Proof.
  intros (J1 & J2 & J3 & J4) Hle. repeat split; simpl; [done|..|done].
  - intros b y Hb Hy. specialize (J2 b y Hb Hy). lia.
  - intros x Hx. specialize (J3 x Hx). lia.
Qed.

Lemma flushInvariant_push m batches event c :
  flushInvariant m batches -> lastBlockHeightSeen m <= ie_blockHeight event ->
  flushInvariant {| pending := pending m ++ [event];
                    lastBlockHeightSeen := ie_blockHeight event;
                    catchingUp := c |} batches.
Proof.
  intros (J1 & J2 & J3 & J4) Hle. repeat split; simpl; [done|..].
  - intros b y Hb Hy. specialize (J2 b y Hb Hy). lia.
  - intros x Hx. apply in_app_or in Hx as [Hx|[<-|[]]]; [|lia].
    specialize (J3 x Hx). lia.
  - intros b y x Hb Hy Hx. apply in_app_or in Hx as [Hx|[<-|[]]]; [by eapply J4|].
    specialize (J2 b y Hb Hy). lia.
Qed.

Lemma flushInvariant_flush_push m batches event c :
  flushInvariant m batches -> lastBlockHeightSeen m < ie_blockHeight event ->
  flushInvariant {| pending := [] ++ [event];
                    lastBlockHeightSeen := ie_blockHeight event;
                    catchingUp := c |}
                 (batches ++ [parsedEvents (pending m)]).
Proof.
  intros (J1 & J2 & J3 & J4) Hlt.
  assert (Hnew : forall b y, In b (batches ++ [parsedEvents (pending m)]) -> In y b ->
                             pe_blockHeight y < ie_blockHeight event).
  { intros b y Hb Hy. apply in_app_or in Hb as [Hb|[<-|[]]].
    - specialize (J2 b y Hb Hy). lia.
    - apply parsedEvents_In in Hy as (x & Hx & ->). specialize (J3 x Hx). lia. }
  repeat split; simpl.
  - apply blocksApart_snoc; [done|]. intros b' x y Hb' Hx Hy.
    apply parsedEvents_In in Hy as (x0 & Hx0 & ->). by eapply J4.
  - done.
  - intros x [<-|[]]. lia.
  - intros b y x Hb Hy [<-|[]]. by eapply Hnew.
Qed.

Lemma handler_step opts line m db m' db' r batches :
  flushInvariant m batches ->
  (forall event, line = Some event -> lastBlockHeightSeen m <= ie_blockHeight event) ->
  handler opts line (m, db) = ((m', db'), r) ->
  match r with
  | Throws => flushInvariant m' batches
  | Returns exported =>
      flushInvariant m' (batches ++ option_list exported)
      /\ lastBlockHeightSeen m'
         = match line with
           | Some event => ie_blockHeight event
           | None => lastBlockHeightSeen m
           end
  end.
Proof.
  intros J Hle. unfold handler. destruct line as [event|].
  2:{ intros [= <- <- <-]. simpl. by rewrite app_nil_r. }
  specialize (Hle event eq_refl).
  destruct (ie_blockHeight event <? initialBlock opts).
  { intros [= <- <- <-]. simpl. rewrite app_nil_r.
    split; [|done]. by apply flushInvariant_seen. }
  set (m0 := {| pending := pending m; lastBlockHeightSeen := lastBlockHeightSeen m;
                catchingUp := false |}).
  assert (J0 : flushInvariant m0 batches).
  { apply (flushInvariant_seen m batches (lastBlockHeightSeen m) false J). lia. }
  destruct (flushDue opts m0 event) eqn:Ed.
  - destruct (flush opts (m0, db)) as [[m1 db1] fr] eqn:Ef.
    apply flush_cases in Ef. destruct fr as [[batch|]|].
    + destruct Ef as (Ep & El & ->). intros [= <- <- <-]. simpl. split; [|done].
      rewrite Ep. apply (flushInvariant_flush_push m batches event (catchingUp m1) J).
      unfold flushDue in Ed. apply andb_prop in Ed as [_ Ed]. simpl in Ed.
      by apply N.ltb_lt in Ed.
    + subst m1. intros [= <- <- <-]. simpl. rewrite app_nil_r. split; [|done].
      by apply (flushInvariant_push m batches event false J).
    + subst m1. by intros [= <- <- <-].
  - intros [= <- <- <-]. simpl. rewrite app_nil_r. split; [|done].
    by apply (flushInvariant_push m batches event false J).
Qed.

Lemma handleLines_invariant opts lines m db s' exported r batches :
  flushInvariant m batches ->
  nondecreasingFrom (lastBlockHeightSeen m) lines ->
  handleLines opts lines (m, db) = (s', exported, r) ->
  flushInvariant s'.1 (batches ++ exported).
Proof.
  revert m db batches exported.
  induction lines as [|line lines IH]; intros m db batches exported J Hnd;
    cbn [handleLines].
  - intros [= <- <- <-]. simpl. by rewrite app_nil_r.
  - destruct (handler opts line (m, db)) as [[m1 db1] [out|]] eqn:Eh.
    + assert (Hle : forall event, line = Some event ->
                                  lastBlockHeightSeen m <= ie_blockHeight event).
      { intros event ->. by destruct Hnd. }
      pose proof (handler_step _ _ _ _ _ _ _ _ J Hle Eh) as [J1 Hseen].
      destruct (handleLines opts lines (m1, db1)) as [[s2 rest] r2] eqn:Er.
      simpl. intros [= <- <- <-]. rewrite app_assoc.
      eapply IH; [exact J1| |exact Er].
      rewrite Hseen. destruct line as [event|]; [by destruct Hnd|done].
    + assert (Hle : forall event, line = Some event ->
                                  lastBlockHeightSeen m <= ie_blockHeight event).
      { intros event ->. by destruct Hnd. }
      pose proof (handler_step _ _ _ _ _ _ _ _ J Hle Eh) as J1.
      intros [= <- <- <-]. simpl. by rewrite app_nil_r.
Qed.

Lemma exportStream_blocksApart opts lines db :
  nondecreasingFrom 0 lines ->
  blocksApart (exportStream opts lines (wasm_init, db)).1.2.
Proof.
  intros Hnd. unfold exportStream.
  destruct (handleLines opts lines (wasm_init, db)) as [[[m1 db1] exported] r] eqn:Eh.
  assert (J : flushInvariant m1 exported).
  { apply (handleLines_invariant opts lines wasm_init db (m1, db1) exported r []);
      [|done|done].
    repeat split; simpl; try done; intros; contradiction. }
  destruct r as [u|]; cbv beta iota; [|simpl; by destruct J].
  destruct (flush opts (m1, db1)) as [[m2 db2] fr] eqn:Ef.
  apply flush_cases in Ef. destruct fr as [[batch|]|]; simpl.
  - destruct Ef as (_ & _ & ->). destruct J as (J1 & _ & _ & J4).
    apply blocksApart_snoc; [done|]. intros b' x y Hb' Hx Hy.
    apply parsedEvents_In in Hy as (x0 & Hx0 & ->). by eapply J4.
  - rewrite app_nil_r. by destruct J.
  - by destruct J.
Qed.

(** C3: [handler] reaches [flush] only with at least [batch] records
    pending and a record of a block above the last one seen; and on a
    stream in non-decreasing block order the batches exported, the closing
    flush included, never share a block. *)
Theorem flush_only_at_block_boundary opts lines db :
  nondecreasingFrom 0 lines ->
  (forall line m db0 s' r,
      handler opts line (m, db0) = (s', r) -> r <> Returns None ->
      exists event, line = Some event
                    /\ (opt_batch opts <= length (pending m))%nat
                    /\ lastBlockHeightSeen m < ie_blockHeight event)
  /\ (forall (i j : nat) b1 b2 x y,
        i <> j ->
        (exportStream opts lines (wasm_init, db)).1.2 !! i = Some b1 ->
        (exportStream opts lines (wasm_init, db)).1.2 !! j = Some b2 ->
        In x b1 -> In y b2 -> pe_blockHeight x <> pe_blockHeight y).
Proof.
  intros Hnd. split.
  - intros line m db0 s' r. unfold handler. destruct line as [event|].
    2:{ intros [= <- <-]. done. }
    destruct (ie_blockHeight event <? initialBlock opts).
    { intros [= <- <-]. done. }
    destruct (flushDue opts _ event) eqn:Ed.
    + intros _ _. exists event. unfold flushDue in Ed. simpl in Ed.
      apply andb_prop in Ed as [E1 E2]. repeat split.
      * by apply Nat.leb_le.
      * by apply N.ltb_lt.
    + intros [= <- <-]. done.
  - intros i j b1 b2 x y Hij Hi Hj Hx Hy.
    pose proof (exportStream_blocksApart opts lines db Hnd) as Ha.
    destruct (decide (i < j)%nat).
    + pose proof (blocksApart_lookup _ i j b1 b2 x y Ha ltac:(done) Hi Hj Hx Hy). lia.
    + pose proof (blocksApart_lookup _ j i b2 b1 y x Ha ltac:(lia) Hj Hi Hy Hx). lia.
Qed.
Lemma flush_checkpointLe opts m db :
  checkpointLe (state db) (state (flush opts (m, db)).1.2).
Proof.
  unfold flush. destruct (pending m) as [|x l]; simpl; [apply checkpointLe_refl|].
  pose proof (exporter_checkpointLe (parsedEvents (x :: l))
                (negb (opt_updateComputations opts)) (negb (opt_sendWebhooks opts)) db) as Hle.
  by destruct (exporter _ _ _ db) as [db' [r|]].
Qed.

Lemma handler_checkpointLe opts line m db :
  checkpointLe (state db) (state (handler opts line (m, db)).1.2).
Proof.
  unfold handler. destruct line as [event|]; [|apply checkpointLe_refl].
  destruct (ie_blockHeight event <? initialBlock opts); [apply checkpointLe_refl|].
  destruct (flushDue opts _ event); [|apply checkpointLe_refl].
  match goal with |- context [flush opts (?m0, db)] =>
    pose proof (flush_checkpointLe opts m0 db) as Hle;
    destruct (flush opts (m0, db)) as [[m1 db1] [out|]] end; exact Hle.
Qed.

Lemma handleLines_checkpointLe opts lines m db :
  checkpointLe (state db) (state (handleLines opts lines (m, db)).1.1.2).
Proof.
  revert m db. induction lines as [|line lines IH]; intros m db; cbn [handleLines].
  - apply checkpointLe_refl.
  - pose proof (handler_checkpointLe opts line m db) as Hle.
    destruct (handler opts line (m, db)) as [[m1 db1] [out|]]; [|exact Hle].
    specialize (IH m1 db1).
    destruct (handleLines opts lines (m1, db1)) as [[[m2 db2] rest] r2].
    eapply checkpointLe_trans; eauto.
Qed.

Lemma exportStream_checkpointLe opts lines m db :
  checkpointLe (state db) (state (exportStream opts lines (m, db)).1.1.2).
Proof.
  unfold exportStream. pose proof (handleLines_checkpointLe opts lines m db) as Hle.
  destruct (handleLines opts lines (m, db)) as [[[m1 db1] batches] [u|]]; [|exact Hle].
  cbv beta iota. pose proof (flush_checkpointLe opts m1 db1) as Hf.
  destruct (flush opts (m1, db1)) as [[m2 db2] [out|]];
    eapply checkpointLe_trans; eauto.
Qed.

(** C7: over any run of the module on a stream, and over any sequence of
    exports, the three checkpoint columns of the State row never decrease;
    an export that completes sets each of them to the maximum of the stored
    value and the value of the last event of its batch, and one that throws
    leaves them as they were. *)
Theorem checkpoint_never_regresses opts lines m f1 f2
    (batches : list (list ParsedWasmEvent)) db :
  checkpointLe (state db) (state (exportStream opts lines (m, db)).1.1.2)
  /\ checkpointLe (state db) (state (exportAll f1 f2 batches db).1)
  /\ (forall parsed db' r,
        exporter parsed f1 f2 db = (db', Returns r) ->
        exists st lastEvent,
          state db = Some st /\ last parsed = Some lastEvent
          /\ state db'
             = Some {| lastWasmBlockHeightExported :=
                         Some (N.max (default 0 (lastWasmBlockHeightExported st))
                                     (pe_blockHeight lastEvent));
                       latestBlockHeight :=
                         N.max (latestBlockHeight st) (pe_blockHeight lastEvent);
                       latestBlockTimeUnixMs :=
                         N.max (latestBlockTimeUnixMs st)
                               (pe_blockTimeUnixMs lastEvent) |})
  /\ (forall parsed, (exporter parsed f1 f2 db).2 = Throws ->
                     state (exporter parsed f1 f2 db).1 = state db).
Proof.
  split; [apply exportStream_checkpointLe|]. split; [|split].
  - revert db. induction batches as [|b batches IH]; intros db; simpl.
    + apply checkpointLe_refl.
    + pose proof (exporter_checkpointLe b f1 f2 db) as Hb.
      destruct (exporter b f1 f2 db) as [db1 [r|]]; simpl in *; [|done].
      eapply checkpointLe_trans; eauto.
  - intros parsed db' r E.
    apply exporter_Returns in E
      as (rows & st & lastEvent & more & _ & _ & _ & Es & El & Es' & _).
    exists st, lastEvent. repeat split; [done..|].
    rewrite Es'. unfold advanceState. by rewrite !GREATEST_max.
  - intros parsed. apply exporter_Throws_state.
Qed.
End ModuleFacts.

(** ** Replaying a stream *)

Section Replay.
Context `{Codec} {Aux Transformation : Type} `{Collaborators Aux Transformation}.
Implicit Types (m : ModuleState) (db : DB Aux) (batches : list (list ParsedWasmEvent)).

(** A flush that completes has exported its batch, if it had one; what it
    hands over and how it leaves the module does not depend on the
    database. *)
Lemma flush_Returns opts m db m' db' exported :
  flush opts (m, db) = ((m', db'), Returns exported) ->
  exportAll (negb (opt_updateComputations opts)) (negb (opt_sendWebhooks opts))
    (option_list exported) db = (db', Returns tt)
  /\ forall db0 m0' db0' exported0,
       flush opts (m, db0) = ((m0', db0'), Returns exported0) ->
       m0' = m' /\ exported0 = exported.
Proof.
  unfold flush. destruct (pending m) as [|x l] eqn:Ep.
  - intros [= <- <- <-]. split; [done|]. by intros db0 m0' db0' exported0 [= <- _ <-].
  - destruct (exporter _ _ _ db) as [db1 [res|]] eqn:E; [|done].
    intros [= <- <- <-]. split.
    + simpl. by rewrite E.
    + intros db0 m0' db0' exported0.
      destruct (exporter _ _ _ db0) as [db2 [res0|]]; [|done].
      by intros [= <- _ <-].
Qed.

Lemma handler_Returns opts line m db m' db' exported :
  handler opts line (m, db) = ((m', db'), Returns exported) ->
  exportAll (negb (opt_updateComputations opts)) (negb (opt_sendWebhooks opts))
    (option_list exported) db = (db', Returns tt)
  /\ forall db0 m0' db0' exported0,
       handler opts line (m, db0) = ((m0', db0'), Returns exported0) ->
       m0' = m' /\ exported0 = exported.
Proof.
  unfold handler. destruct line as [event|].
  2:{ intros [= <- <- <-]. split; [done|]. by intros db0 m0' db0' exported0 [= <- _ <-]. }
  destruct (ie_blockHeight event <? initialBlock opts).
  { intros [= <- <- <-]. split; [done|]. by intros db0 m0' db0' exported0 [= <- _ <-]. }
  set (m0 := {| pending := pending m; lastBlockHeightSeen := lastBlockHeightSeen m;
                catchingUp := false |}).
  destruct (flushDue opts m0 event).
  - destruct (flush opts (m0, db)) as [[m1 db1] [exported1|]] eqn:Ef; [|done].
    apply flush_Returns in Ef as [Hexp Hsame].
    intros [= <- <- <-]. split; [done|].
    intros db0 m0' db0' exported0.
    destruct (flush opts (m0, db0)) as [[m2 db2] [exported2|]] eqn:Ef0; [|done].
    destruct (Hsame _ _ _ _ Ef0) as [-> ->]. by intros [= <- _ <-].
  - intros [= <- <- <-]. split; [done|]. by intros db0 m0' db0' exported0 [= <- _ <-].
Qed.

Lemma handleLines_Returns opts lines m db s' batches u :
  handleLines opts lines (m, db) = (s', batches, Returns u) ->
  exportAll (negb (opt_updateComputations opts)) (negb (opt_sendWebhooks opts))
    batches db = (s'.2, Returns tt)
  /\ forall db0 s0' batches0 u0,
       handleLines opts lines (m, db0) = (s0', batches0, Returns u0) ->
       s0'.1 = s'.1 /\ batches0 = batches.
Proof.
  revert m db s' batches u. induction lines as [|line lines IH]; intros m db s' batches u.
  - simpl. intros [= <- <- _]. split; [done|]. by intros db0 s0' batches0 u0 [= <- <- _].
  - cbn [handleLines].
    destruct (handler opts line (m, db)) as [[m1 db1] [exported|]] eqn:Eh; [|done].
    apply handler_Returns in Eh as [Hexp Hsame].
    destruct (handleLines opts lines (m1, db1)) as [[s2 batches2] r2] eqn:Er.
    intros [= <- <- Hr2]. subst r2.
    destruct (IH _ _ _ _ _ Er) as [Hrest Hsame2]. split.
    + by rewrite (exportAll_app _ _ _ _ _ _ _ Hexp).
    + intros db0 s0' batches0 u0. cbn [handleLines].
      destruct (handler opts line (m, db0)) as [[m3 db3] [exported0|]] eqn:Eh0; [|done].
      destruct (Hsame _ _ _ _ Eh0) as [-> ->].
      destruct (handleLines opts lines (m1, db3)) as [[s4 batches4] r4] eqn:Er0.
      intros [= <- <- Hr4]. subst r4.
      destruct (Hsame2 _ _ _ _ Er0) as [? ->]. done.
Qed.

Lemma exportStream_Returns opts lines m db s' batches u :
  exportStream opts lines (m, db) = (s', batches, Returns u) ->
  exportAll (negb (opt_updateComputations opts)) (negb (opt_sendWebhooks opts))
    batches db = (s'.2, Returns tt)
  /\ forall db0 s0' batches0 u0,
       exportStream opts lines (m, db0) = (s0', batches0, Returns u0) ->
       s0'.1 = s'.1 /\ batches0 = batches.
Proof.
  unfold exportStream.
  destruct (handleLines opts lines (m, db)) as [[[m1 db1] batches1] [u1|]] eqn:El; [|done].
  apply handleLines_Returns in El as [Hexp Hsame].
  destruct (flush opts (m1, db1)) as [[m2 db2] [exported|]] eqn:Ef; [|done].
  apply flush_Returns in Ef as [Hexp2 Hsame2].
  intros [= <- <- _]. split.
  - by rewrite (exportAll_app _ _ _ _ _ _ _ Hexp).
  - intros db0 s0' batches0 u0.
    destruct (handleLines opts lines (m, db0)) as [[[m3 db3] batches3] [u3|]] eqn:El0;
      [|done].
    destruct (Hsame _ _ _ _ El0) as [Hm ->]. simpl in Hm. subst m3.
    destruct (flush opts (m1, db3)) as [[m4 db4] [exported4|]] eqn:Ef0; [|done].
    destruct (Hsame2 _ _ _ _ Ef0) as [-> ->]. by intros [= <- <- _].
Qed.

(** C4, as it holds.  When a run over a stream (the handler on every line,
    then the closing flush) has completed and the same stream is run again
    on the database it left, from a module started with the same options,
    and this run completes too, then the second run exports the same
    batches and leaves the Contract table, the WasmEvent table and the State
    row exactly as the first run left them.  Two things are not restored:
    the PendingWebhook table, to which the second run only appends (it is
    unchanged when webhooks are switched off), and the id sequence of
    WasmEvent, which advances by one for every record exported again. *)
Theorem replay_keeps_contracts_events_state opts lines db s1 batches1 u1 s2 batches2 u2 :
  exportStream opts lines (wasm_init, db) = (s1, batches1, Returns u1) ->
  exportStream opts lines (wasm_init, s1.2) = (s2, batches2, Returns u2) ->
  batches2 = batches1
  /\ contracts s2.2 = contracts s1.2
  /\ events s2.2 = events s1.2
  /\ state s2.2 = state s1.2
  /\ (exists more, pendingWebhooks s2.2 = (pendingWebhooks s1.2 ++ more)%list)
  /\ (opt_sendWebhooks opts = false -> pendingWebhooks s2.2 = pendingWebhooks s1.2)
  /\ nextEventId s2.2 = nextEventId s1.2 + N.of_nat (length (concat batches1)).
Proof.
  intros E1 E2.
  apply exportStream_Returns in E1 as [Hexp1 Hsame].
  destruct (Hsame _ _ _ _ E2) as [_ ->].
  apply exportStream_Returns in E2 as [Hexp2 _].
  split; [done|].
  destruct (exportAll_replay _ _ _ _ _ _ _ _ Hexp1 Hexp2) as (Hc & He & Hs & Hp & Hn).
  repeat split; try done.
  intros Hoff. rewrite Hoff in Hexp2. simpl in Hexp2.
  pose proof (exportAll_dontSendWebhooks (negb (opt_updateComputations opts))
                batches1 s1.2) as Hkeep.
  by rewrite Hexp2 in Hkeep.
Qed.
End Replay.

(** ** Normalisation of a record *)

Section ParseFacts.
Context `{Codec}.

End ParseFacts.

(** ** Queueing webhooks *)

Lemma Promise_all_Returns {A} (l : list (outcome A)) :
  (forall o, In o l -> o <> Throws) ->
  exists results, Promise_all l = Returns results
                  /\ l = map Returns results.
Proof.
  induction l as [|[a|] l IH]; simpl; intros Hall.
  - by exists [].
  - destruct IH as (results & -> & ->); [by auto|]. by exists (a :: results).
  - by destruct (Hall Throws); auto.
Qed.

Lemma pendingWebhookFor_Returns store events event webhook contract :
  we_contract event = Some contract ->
  exists row, pendingWebhookFor store events event webhook = Returns row.
Proof.
  intros Hc. unfold pendingWebhookFor. rewrite Hc.
  repeat case_match; eauto.
Qed.

Lemma omap_pendingRows store events (calls : list (WasmEvent * Webhook)) results :
  map (fun c => pendingWebhookFor store events c.1 c.2) calls = map Returns results ->
  omap (fun w => w) results = flat_map (fun c => pendingRows store events c.1 c.2) calls.
Proof.
  revert results. induction calls as [|c calls IH]; intros [|r results]; simpl; try done.
  intros [= E1 E2]. unfold pendingRows at 1. rewrite E1.
  specialize (IH _ E2). destruct r; simpl; [f_equal|]; exact IH.
Qed.


Lemma storedPendingWebhook_None attributes :
  storedPendingWebhook attributes = None <-> refused attributes.
Proof.
  unfold storedPendingWebhook, refused.
  destruct (attr_endpoint attributes) as [endpoint|]; [|by split; auto].
  destruct (attr_value attributes); simpl; split; try done; try (by auto);
    by intros [?|?].
Qed.


(** The table refuses the insert exactly when the value or the endpoint of
    one of the objects is null; otherwise it takes one row per object, in
    order and with the object's columns. *)
Lemma storedPendingWebhooks_None rows :
  storedPendingWebhooks rows = None <-> exists a, In a rows /\ refused a.
Proof.
  induction rows as [|a rows IH]; simpl.
  - split; [done|]. by intros (a & [] & _).
  - destruct (storedPendingWebhook a) as [row|] eqn:Ea.
    + destruct (storedPendingWebhooks rows) as [created|].
      * split; [done|]. intros (a' & [<-|Hin] & Hr).
        -- apply storedPendingWebhook_None in Hr. congruence.
        -- assert (Hnone : Some created = None) by (apply IH; eauto). done.
      * split; [|done]. intros _. destruct (proj1 IH eq_refl) as (a' & Hin & Hr).
        exists a'. auto.
    + split; [|done]. intros _. exists a. split; [by left|].
      by apply storedPendingWebhook_None.
Qed.


Section Calls.
Context {B : Type}.
Variable wsOf : WasmEvent -> list Webhook.

Lemma calls_map (f : WasmEvent -> Webhook -> B) (events : list WasmEvent) :
  flat_map (fun e => map (f e) (wsOf e)) events
  = map (fun c => f c.1 c.2) (flat_map (fun e => map (pair e) (wsOf e)) events).
Proof.
  induction events as [|e events IH]; simpl; [done|].
  rewrite map_app, map_map, IH. done.
Qed.

Lemma flat_map_pairs (g : WasmEvent -> Webhook -> list B) e (ws : list Webhook) :
  flat_map (fun c : WasmEvent * Webhook => g c.1 c.2) (map (pair e) ws)
  = flat_map (g e) ws.
Proof. induction ws as [|w ws IH]; simpl; [done|]. by rewrite IH. Qed.

Lemma calls_flat_map (g : WasmEvent -> Webhook -> list B) (events : list WasmEvent) :
  flat_map (fun c : WasmEvent * Webhook => g c.1 c.2)
           (flat_map (fun e => map (pair e) (wsOf e)) events)
  = flat_map (fun e => flat_map (g e) (wsOf e)) events.
Proof.
  induction events as [|e events IH]; simpl; [done|].
  by rewrite flat_map_app, flat_map_pairs, IH.
Qed.
End Calls.

(** With every event carrying its contract, [queueWebhooks] hands the
    objects of all pairs to [bulkCreate]. *)
Lemma queueWebhooks_rows (webhooks : list Webhook)
    (store : gmap (N * string * string) WasmEventRow)
    (table : list PendingWebhook) (events : list WasmEvent) :
  (forall e, In e events -> we_contract e <> None) ->
  queueWebhooks webhooks store table events
  = PendingWebhook_bulkCreate (rowsToCreate webhooks store events) table.
Proof.
  intros Hc.
  unfold rowsToCreate, queueWebhooks. destruct webhooks as [|w0 ws] eqn:Ew.
  { simpl. replace (flat_map _ events) with (@nil PendingWebhookAttributes).
    - unfold PendingWebhook_bulkCreate. simpl. by rewrite app_nil_r.
    - clear. induction events; simpl; done. }
  rewrite <- Ew. clear Ew.
  set (wsOf := fun e : WasmEvent => List.filter (fun w => wh_filter w e) webhooks).
  change (flat_map _ events)
    with (flat_map (fun e => map (pendingWebhookFor store events e) (wsOf e)) events) at 1.
  rewrite (calls_map wsOf (pendingWebhookFor store events) events).
  set (calls := flat_map (fun e => map (pair e) (wsOf e)) events).
  destruct (Promise_all_Returns
              (map (fun c => pendingWebhookFor store events c.1 c.2) calls))
    as (results & -> & Hres).
  { intros o Ho. apply in_map_iff in Ho as ([e w] & <- & Hin). simpl.
    apply in_flat_map in Hin as (e' & He' & Hin).
    apply in_map_iff in Hin as (w' & [= <- <-] & _).
    destruct (we_contract e') as [contract|] eqn:Ec; [|by destruct (Hc e' He')].
    by destruct (pendingWebhookFor_Returns store events e' w' contract Ec) as [row ->]. }
  rewrite (omap_pendingRows store events calls results Hres).
  subst calls. rewrite (calls_flat_map wsOf (pendingRows store events) events).
  unfold wsOf.
  match goal with |- context [PendingWebhook_bulkCreate ?created] => destruct created end;
    [|done].
  unfold PendingWebhook_bulkCreate. simpl. by rewrite app_nil_r.
Qed.


(** ** exporter on well-keyed tables *)

Section ExporterCompletes.
Context {Aux Transformation : Type} `{Collaborators Aux Transformation}.
Implicit Types (db : DB Aux) (parsed : list ParsedWasmEvent).

Lemma uniqueStrings_In (l : list string) x : In x (uniqueStrings l) <-> In x l.
Proof.
  induction l as [|y l IH]; simpl; [done|].
  rewrite filter_In, IH. destruct (String.eqb_spec x y) as [->|Hne]; simpl.
  - intuition.
  - intuition congruence.
Qed.

Lemma contractRows_addresses parsed ucs rows :
  contractRows parsed ucs = Returns rows -> map c_address rows = ucs.
Proof.
  revert rows. induction ucs as [|a ucs IH]; intros rows; simpl.
  - by intros [= <-].
  - destruct (List.find _ parsed) as [event|]; [|done].
    destruct (contractRows parsed ucs) as [rows'|]; [|done].
    intros [= <-]. simpl. by rewrite (IH rows').
Qed.

Lemma Contract_bulkCreate_keyed rows (t : gmap string Contract) :
  (forall a c, t !! a = Some c -> c_address c = a) ->
  forall a c, Contract_bulkCreate rows t !! a = Some c -> c_address c = a.
Proof.
  intros Ht. unfold Contract_bulkCreate.
  by apply (bulkUpsert_keyed c_address mergeContract (fun _ r => r)).
Qed.

Lemma Contract_bulkCreate_present rows (t : gmap string Contract) r :
  In r rows -> is_Some (Contract_bulkCreate rows t !! c_address r).
Proof.
  unfold Contract_bulkCreate.
  apply (bulkUpsert_rows_present c_address mergeContract (fun _ r => r) mergeContract_merge
           (fun _ r => mergeContract_self r)).
Qed.

Lemma WasmEvent_upsertRows_keyed parsed t :
  (forall k r, t.1 !! k = Some r -> rowKey r = k) ->
  forall k r, (WasmEvent_upsertRows parsed t).1 !! k = Some r -> rowKey r = k.
Proof.
  intros Ht. unfold WasmEvent_upsertRows.
  by apply (bulkUpsert_keyed rowKey mergeEvent stampEvent).
Qed.

Lemma find_is_Some {A} (f : A -> bool) (l : list A) x :
  In x l -> f x = true -> List.find f l <> None.
Proof.
  intros Hin Hf Hnone. pose proof (find_none f l Hnone x Hin). congruence.
Qed.

(** With every row under its own key and a Contract row for every address of
    the batch, each exported event gets its contract. *)
Lemma attachContracts_carry (contractsT : gmap string Contract)
    (eventsT : gmap (N * string * string) WasmEventRow) parsed e :
  (forall a c, contractsT !! a = Some c -> c_address c = a) ->
  (forall k r, eventsT !! k = Some r -> rowKey r = k) ->
  (forall p, In p parsed -> is_Some (contractsT !! pe_contractAddress p)) ->
  In e (attachContracts
          (omap (fun address => contractsT !! address)
                (uniqueStrings (map pe_contractAddress parsed)))
          (createdInstances parsed eventsT)) ->
  we_contract e <> None.
Proof.
  intros Hc He Hall. unfold attachContracts, createdInstances.
  rewrite in_map_iff. intros (row & <- & Hrow). simpl.
  apply list_elem_of_In, list_elem_of_omap in Hrow as (p & Hp & Hlook).
  apply list_elem_of_In in Hp.
  destruct (Hall p Hp) as [c Hcp].
  apply (find_is_Some _ _ c).
  - apply list_elem_of_In, list_elem_of_omap. exists (pe_contractAddress p).
    split; [|done]. apply list_elem_of_In, uniqueStrings_In, in_map_iff. eauto.
  - rewrite (Hc _ _ Hcp). apply He in Hlook. unfold rowKey, eventKey in Hlook.
    injection Hlook as _ -> _. apply String.eqb_refl.
Qed.

(** The exporter on well-keyed tables: what can make it throw. *)
Lemma exporter_Throws_cases parsed f1 f2 db :
  tablesWellKeyed db ->
  (exporter parsed f1 f2 db).2 = Throws ->
  state db = None
  \/ (createContracts 3 parsed (uniqueStrings (map pe_contractAddress parsed)) db).2 = Throws
  \/ parsed = []
  \/ ~ List.NoDup (map eventKey parsed)
  \/ (f2 = false /\ exists a, In a (batchWebhookObjects parsed db) /\ refused a).
Proof.
  intros [Hck Hek]. unfold exporter, batchWebhookObjects.
  destruct (state db) as [st|] eqn:Est; [|by left].
  intros Hthrow. right. revert Hthrow.
  pose proof (createContracts_frame 3 parsed
                (uniqueStrings (map pe_contractAddress parsed)) db) as Hf.
  destruct (createContracts 3 parsed _ db) as [db1 [u|]] eqn:Ec; [|by left].
  simpl in Hf. destruct Hf as (He & Hn & Hs & Hp & Ha).
  apply createContracts_Returns in Ec as (rows & Er & Hc).
  intros Hthrow. right. revert Hthrow.
  destruct (WasmEvent_bulkCreate parsed (events db1, nextEventId db1)) as [t0 [u0|]] eqn:Eb.
  2:{ apply WasmEvent_bulkCreate_Throws in Eb as (_ & _ & Hnd). intros _. right. by left. }
  apply WasmEvent_bulkCreate_Returns in Eb as [-> Hnd].
  set (t := WasmEvent_upsertRows parsed (events db1, nextEventId db1)).
  set (evs := attachContracts _ (createdInstances parsed t.1)).
  assert (Hevs : forall e, In e evs -> we_contract e <> None).
  { intros e. apply attachContracts_carry.
    - rewrite Hc. by apply Contract_bulkCreate_keyed.
    - apply WasmEvent_upsertRows_keyed. simpl. by rewrite He.
    - intros p Hp'. rewrite Hc.
      assert (Hin : In (pe_contractAddress p) (map c_address rows)).
      { rewrite (contractRows_addresses _ _ _ Er). apply uniqueStrings_In, in_map_iff. eauto. }
      apply in_map_iff in Hin as (r & <- & Hr). by apply Contract_bulkCreate_present. }
  assert (Hobjects : rowsToCreate (getProcessedWebhooks st) t.1 evs
                     = rowsToCreate (getProcessedWebhooks st)
                         (WasmEvent_upsertRows parsed (events db, nextEventId db)).1
                         (batchInstances parsed
                            (Contract_bulkCreate (batchContractRows parsed) (contracts db))
                            (WasmEvent_upsertRows parsed (events db, nextEventId db)).1)).
  { subst evs t. unfold batchInstances, batchContractRows. by rewrite Er, Hc, He, Hn. }
  destruct (transformParsedEvents _ _) as [a tr].
  destruct (if f1 then _ else _) as [a0 [upd des]].
  destruct f2.
  - destruct (last parsed) as [lastEvent|] eqn:El; [done|]. intros _. left.
    by destruct parsed using rev_ind; [|rewrite last_snoc in El].
  - simpl.
    rewrite (queueWebhooks_rows (getProcessedWebhooks st) t.1
               (pendingWebhooks db1) evs Hevs).
    unfold PendingWebhook_bulkCreate.
    destruct (storedPendingWebhooks _) as [created|] eqn:Es.
    + destruct (AccountWebhook_queueWebhooks _ _) as [a1 k].
      destruct (last parsed) as [lastEvent|] eqn:El; [done|]. intros _. left.
      by destruct parsed using rev_ind; [|rewrite last_snoc in El].
    + intros _. right. right. split; [done|].
      apply storedPendingWebhooks_None in Es. by rewrite <- Hobjects.
Qed.
(** The throw in the row callback ("should never happen") indeed never
    happens: the addresses come from the batch itself. *)
Lemma contractRows_Returns parsed (ucs : list string) :
  (forall a, In a ucs -> In a (map pe_contractAddress parsed)) ->
  exists rows, contractRows parsed ucs = Returns rows.
Proof.
  induction ucs as [|a ucs IH]; intros Hall; simpl; [eauto|].
  destruct (List.find _ parsed) as [event|] eqn:Ef.
  - destruct IH as [rows ->]; [by intros; apply Hall; right|]. eauto.
  - pose proof (Hall a (or_introl eq_refl)) as Hin.
    apply in_map_iff in Hin as (p & Ep & Hp).
    pose proof (find_none _ _ Ef p Hp) as Hn. simpl in Hn.
    rewrite Ep, String.eqb_refl in Hn. done.
Qed.

(** On well-keyed tables with a State row, a database that raises no error,
    a batch that is not empty and repeats no key, and no webhook object that
    the table refuses, the exporter completes. *)
Lemma exporter_completes parsed f1 f2 db :
  tablesWellKeyed db -> state db <> None -> faults db = [] -> parsed <> [] ->
  List.NoDup (map eventKey parsed) ->
  (forall a, In a (batchWebhookObjects parsed db) -> ~ refused a) ->
  exists r, (exporter parsed f1 f2 db).2 = Returns r.
Proof.
  intros Hwk Hst Hfa Hne Hnd Hok.
  destruct (exporter parsed f1 f2 db).2 as [r|] eqn:E; [eauto|].
  destruct (exporter_Throws_cases parsed f1 f2 db Hwk E)
    as [?|[Hc|[?|[?|(_ & a & Hin & Hr)]]]]; try done.
  - destruct (contractRows_Returns parsed (uniqueStrings (map pe_contractAddress parsed)))
      as [rows Er]; [by intros a; apply uniqueStrings_In|].
    simpl in Hc. rewrite Er, Hfa in Hc. done.
  - by destruct (Hok a Hin).
Qed.
End ExporterCompletes.



(** ** The deduplication key *)

(** C1, at a buffer the code can receive: two writes of one block to
    different contracts and keys, whose block height, address and key
    concatenate to the same text, are merged, and only the later one is
    exported. *)
Theorem dedup_merges_colliding_triples :
  ie_triple collidingFirst <> ie_triple collidingSecond
  /\ dedupKey collidingFirst = dedupKey collidingSecond
  /\ eventsToExport [collidingFirst; collidingSecond] = [collidingSecond].
Proof. repeat split; [intros [=]|reflexivity..]. Qed.

(** ** getPrevious *)

(** C2, at a batch the code can receive: for the write of key [k1] at block
    7 the thunk answers with the value written to key [k2] at block 6, while
    the most recent write of [k1] below block 7 is the stored one of block 5,
    which no event of the batch precedes under the predicate of the spec. *)
Theorem getPrevious_takes_other_key :
  settled (getPrevious sampleStore [otherKeyAt6; sameKeyAt7] sameKeyAt7 tt)
  = Returns (JNum 7)
  /\ previousInBatch_spec [otherKeyAt6; sameKeyAt7] sameKeyAt7 = None
  /\ (fun r => pe_valueJson (row_data r)) <$> getPreviousEvent sampleStore sameKeyAt7
     = Some (JNum 5).
Proof. repeat split; vm_compute; reflexivity. Qed.

(** The heights are compared as texts: within a batch the write at block 10
    counts as preceding the write at block 9. *)
Lemma getPrevious_compares_heights_as_text :
  settled (getPrevious sampleStore [keyAt9; keyAt10] keyAt9 tt) = Returns (JNum 2)
  /\ previousInBatch [keyAt9; keyAt10] keyAt10 = None.
Proof. split; vm_compute; reflexivity. Qed.

(** ** Formulas *)

Lemma existsb_eqb_false (k : string) (l : list string) :
  ~ In k l -> existsb (String.eqb k) l = false.
Proof.
  induction l as [|x l IH]; simpl; intros Hn; [done|].
  destruct (String.eqb_spec k x) as [->|_]; simpl; [by destruct Hn; auto|].
  apply IH. tauto.
Qed.

(** C10: whatever the state holds, [item] returns undefined for every key
    that is not the name of a property of a promise object. *)
Theorem item_ignores_state (env : Env) :
  ~ In (args_key env) promise_property_names ->
  forall get', settled (item {| contractAddress := contractAddress env;
                                get := get'; args := args env |})
               = Returns JUndefined.
Proof.
  intros Hk get'. unfold item, promise_member. cbn [settled].
  change (args_key _) with (args_key env).
  by rewrite (existsb_eqb_false _ _ Hk).
Qed.

Lemma item_ignores_state_witness :
  ~ In (args_key (sampleEnv "dao-voting-cw4")) promise_property_names
  /\ settled (item (sampleEnv "dao-voting-cw4")) = Returns JUndefined
  /\ settled (item_awaited (sampleEnv "dao-voting-cw4")) = Returns (JStr "logo.png").
Proof.
  assert (Hk : ~ In (args_key (sampleEnv "dao-voting-cw4")) promise_property_names).
  { vm_compute. intuition discriminate. }
  split; [exact Hk|]. split; [|reflexivity].
  exact (item_ignores_state (sampleEnv "dao-voting-cw4") Hk (sampleGet "dao-voting-cw4")).
Defined.

Section VotingFacts.
Context `{VotingFormulas}.

Lemma VOTING_POWER_MAP_crates (name : string) :
  obj_get ("crates.io:" +:+ name) VOTING_POWER_MAP = None.
Proof. reflexivity. Qed.

Lemma TOTAL_POWER_MAP_crates (name : string) :
  obj_get ("crates.io:" +:+ name) TOTAL_POWER_MAP = None.
Proof. reflexivity. Qed.

(** No key that [votingPower] looks up is in its table: it throws in every
    environment, and so does [totalPower]. *)
Lemma votingPower_always_throws (env : Env) :
  settled (votingPower env) = Throws /\ settled (totalPower env) = Throws.
Proof.
  unfold votingPower, totalPower, votingModule, info, await.
  cbn [settled withContractAddress contractAddress get].
  destruct (settled (get env (contractAddress env) "voting_module")) as [address|];
    [|by split].
  destruct (settled (get env address "contract_info")) as [i|]; [|by split].
  destruct (contract_of i) as [contract|]; [|by split].
  by rewrite VOTING_POWER_MAP_crates, TOTAL_POWER_MAP_crates.
Qed.
End VotingFacts.

(** C9, at an environment the code can receive: the voting module's
    contract_info names [dao-voting-cw4], which is a key of both tables, and
    [votingPower] and [totalPower] throw instead of returning what the
    sub-formula returns at the voting module's address. *)
Theorem votingPower_rejects_canonical_name :
  let env := sampleEnv "dao-voting-cw4" in
  obj_get "dao-voting-cw4" (@VOTING_POWER_MAP sampleVotingFormulas)
  = Some (@daoVotingCw4VotingPower sampleVotingFormulas)
  /\ settled (@daoVotingCw4VotingPower sampleVotingFormulas
                (withContractAddress env (JStr "juno1voting")))
     = Returns (JNum 4)
  /\ settled (@votingPower sampleVotingFormulas env) = Throws
  /\ settled (@totalPower sampleVotingFormulas env) = Throws.
Proof. repeat split. Qed.

(** ** The properties at the sample data *)

Lemma flush_only_at_block_boundary_witness :
  nondecreasingFrom 0 sampleLines
  /\ forall (i j : nat) b1 b2 x y,
       i <> j ->
       (@exportStream sampleCodec unit unit sampleCollaborators sampleOptions sampleLines
          (wasm_init, sampleDB)).1.2 !! i = Some b1 ->
       (@exportStream sampleCodec unit unit sampleCollaborators sampleOptions sampleLines
          (wasm_init, sampleDB)).1.2 !! j = Some b2 ->
       In x b1 -> In y b2 -> pe_blockHeight x <> pe_blockHeight y.
Proof.
  assert (Hnd : nondecreasingFrom 0 sampleLines).
  { simpl. repeat split; lia. }
  split; [exact Hnd|].
  exact (proj2 (@flush_only_at_block_boundary sampleCodec unit unit sampleCollaborators
                  sampleOptions sampleLines sampleDB Hnd)).
Defined.

(** C4 as stated fails: with one webhook configured, a run over the sample
    stream completes and queues five webhooks; the same stream run again
    completes and leaves ten rows in the PendingWebhook table, and the id
    sequence five further on. *)
Lemma replay_appends_pending_webhooks :
  let run1 := @exportStream sampleCodec unit unit sampleCollaborators sampleOptions
                sampleLines (wasm_init, sampleDB) in
  let run2 := @exportStream sampleCodec unit unit sampleCollaborators sampleOptions
                sampleLines (wasm_init, run1.1.1.2) in
  run1.2 = Returns tt
  /\ run2.2 = Returns tt
  /\ length (pendingWebhooks run1.1.1.2) = 5%nat
  /\ length (pendingWebhooks run2.1.1.2) = 10%nat
  /\ pendingWebhooks run2.1.1.2 <> pendingWebhooks run1.1.1.2
  /\ nextEventId run1.1.1.2 = 6
  /\ nextEventId run2.1.1.2 = 11.
Proof.
  intros run1 run2.
  repeat split; try (vm_compute; reflexivity). vm_compute. discriminate.
Qed.

Lemma replay_keeps_contracts_events_state_witness :
  let run1 := @exportStream sampleCodec unit unit sampleCollaborators sampleOptions
                sampleLines (wasm_init, sampleDB) in
  let run2 := @exportStream sampleCodec unit unit sampleCollaborators sampleOptions
                sampleLines (wasm_init, run1.1.1.2) in
  run2.1.2 = run1.1.2
  /\ contracts run2.1.1.2 = contracts run1.1.1.2
  /\ events run2.1.1.2 = events run1.1.1.2
  /\ state run2.1.1.2 = state run1.1.1.2
  /\ (exists more,
        pendingWebhooks run2.1.1.2 = (pendingWebhooks run1.1.1.2 ++ more)%list)
  /\ (opt_sendWebhooks sampleOptions = false ->
      pendingWebhooks run2.1.1.2 = pendingWebhooks run1.1.1.2)
  /\ nextEventId run2.1.1.2
     = nextEventId run1.1.1.2 + N.of_nat (length (concat run1.1.2)).
Proof.
  intros run1 run2.
  assert (E1 : run1 = (run1.1.1, run1.1.2, Returns tt)) by (vm_compute; reflexivity).
  assert (E2 : run2 = (run2.1.1, run2.1.2, Returns tt)) by (vm_compute; reflexivity).
  exact (@replay_keeps_contracts_events_state sampleCodec unit unit sampleCollaborators
           sampleOptions sampleLines sampleDB run1.1.1 run1.1.2 tt run2.1.1 run2.1.2 tt
           E1 E2).
Defined.

Lemma contract_upsert_keeps_instantiation_witness :
  contracts (sampleRun sampleDB).1 !! "juno1dao" = Some sampleContract
  /\ exists row',
       contracts (@exportAll unit unit sampleCollaborators false false [migratedBatch]
                    (sampleRun sampleDB).1).1 !! "juno1dao" = Some row'
       /\ sameInstantiation sampleContract row'.
Proof.
  assert (E : contracts (sampleRun sampleDB).1 !! "juno1dao" = Some sampleContract)
    by (vm_compute; reflexivity).
  split; [exact E|].
  exact (@contract_upsert_keeps_instantiation unit unit sampleCollaborators false false
           [migratedBatch] (sampleRun sampleDB).1 "juno1dao" sampleContract E).
Defined.

Lemma checkpoint_never_regresses_witness :
  let result := @exporter unit unit sampleCollaborators sampleBatch false false sampleDB in
  result.2 = Returns {| computationsUpdated := 0; computationsDestroyed := 0;
                        transformations := 0; webhooksQueued := 1;
                        lastBlockHeightExported := 10 |}
  /\ exists st lastEvent,
       state sampleDB = Some st /\ last sampleBatch = Some lastEvent
       /\ state result.1
          = Some {| lastWasmBlockHeightExported :=
                      Some (N.max (default 0 (lastWasmBlockHeightExported st))
                                  (pe_blockHeight lastEvent));
                    latestBlockHeight :=
                      N.max (latestBlockHeight st) (pe_blockHeight lastEvent);
                    latestBlockTimeUnixMs :=
                      N.max (latestBlockTimeUnixMs st) (pe_blockTimeUnixMs lastEvent) |}.
Proof.
  intros result.
  assert (E : result = (result.1, Returns {| computationsUpdated := 0;
                                             computationsDestroyed := 0;
                                             transformations := 0; webhooksQueued := 1;
                                             lastBlockHeightExported := 10 |}))
    by (vm_compute; reflexivity).
  split; [by rewrite E|].
  exact (proj1 (proj2 (proj2 (@checkpoint_never_regresses sampleCodec unit unit
                                sampleCollaborators sampleOptions sampleLines wasm_init
                                false false [sampleBatch] sampleDB)))
           sampleBatch result.1 _ E).
Defined.


(** * Further properties *)

(** ** flush: what a batch holds *)

Lemma lastWithKey_is_Some (pending : list IndexerWasmEvent) x :
  In x pending -> exists e, lastWithKey (dedupKey x) pending = Some e.
Proof.
  induction pending as [|y pending IH]; simpl; [done|].
  intros [->|Hin].
  - destruct (lastWithKey (dedupKey x) pending); [eauto|].
    rewrite String.eqb_refl. eauto.
  - destruct (IH Hin) as [e ->]. eauto.
Qed.

Lemma obj_set_length {V} (o : list (string * V)) k v :
  (length (obj_set k v o) <= S (length o))%nat.
Proof.
  induction o as [|[k0 v0] o IH]; simpl; [lia|].
  destruct (String.eqb k0 k); simpl; lia.
Qed.

Lemma uniqueIndexerEvents_from_length (pending : list IndexerWasmEvent) acc :
  (length (fold_left (fun acc event => obj_set (dedupKey event) event acc) pending acc)
   <= length acc + length pending)%nat.
Proof.
  revert acc. induction pending as [|x pending IH]; intros acc; simpl; [lia|].
  specialize (IH (obj_set (dedupKey x) x acc)).
  pose proof (obj_set_length acc (dedupKey x) x). lia.
Qed.

(** X1: the deduplication of [flush] exports a record exactly when it is the
    last record of the buffer with its concatenated key
    blockHeight+contractAddress+key; the exported records have pairwise
    different concatenated keys, all come from the buffer and are no more
    than the buffer holds. *)
Theorem dedup_last_per_concatenated_key (pending : list IndexerWasmEvent) :
  (forall e, In e (eventsToExport pending)
             <-> lastWithKey (dedupKey e) pending = Some e)
  /\ List.NoDup (map dedupKey (eventsToExport pending))
  /\ (forall e, In e (eventsToExport pending) -> In e pending)
  /\ (length (eventsToExport pending) <= length pending)%nat.
Proof.
  repeat split.
  - by apply eventsToExport_last_per_key.
  - by apply eventsToExport_last_per_key.
  - apply eventsToExport_one_per_key.
  - apply eventsToExport_In.
  - unfold eventsToExport. rewrite Object_values_Permutation, length_map.
    apply (uniqueIndexerEvents_from_length pending []).
Qed.

(** X2: every record of the buffer is represented in the batch by a record
    with the same concatenated key, so the batch of a non-empty buffer is not
    empty; when the buffer is free of key collisions the representative has
    the same (blockHeight, contractAddress, key). *)
Theorem dedup_represents_every_record (pending : list IndexerWasmEvent) x :
  In x pending ->
  exists e, In e (eventsToExport pending)
            /\ dedupKey e = dedupKey x
            /\ (collisionFree pending -> ie_triple e = ie_triple x).
Proof.
  intros Hx. destruct (lastWithKey_is_Some pending x Hx) as [e He].
  destruct (lastWithKey_Some _ _ _ He) as [Hk Hin].
  exists e. repeat split; [|done|by intros Hcf; apply Hcf].
  apply eventsToExport_last_per_key. by rewrite Hk.
Qed.

Lemma dedup_represents_every_record_witness :
  In collidingFirst [collidingFirst; collidingSecond]
  /\ exists e, In e (eventsToExport [collidingFirst; collidingSecond])
               /\ dedupKey e = dedupKey collidingFirst.
Proof.
  assert (Hin : In collidingFirst [collidingFirst; collidingSecond]) by (left; reflexivity).
  split; [exact Hin|].
  destruct (dedup_represents_every_record [collidingFirst; collidingSecond]
              collidingFirst Hin) as (e & He & Hk & _).
  exists e. split; [exact He|exact Hk].
Defined.

(** ** handler: what reaches the buffer *)

Section HandlerFacts.
Context `{Codec} {Aux Transformation : Type} `{Collaborators Aux Transformation}.
Implicit Types (m : ModuleState) (db : DB Aux).

Lemma handler_floor opts line m db m' db' r :
  (forall x, In x (pending m) -> initialBlock opts <= ie_blockHeight x) ->
  handler opts line (m, db) = ((m', db'), r) ->
  (forall x, In x (pending m') -> initialBlock opts <= ie_blockHeight x)
  /\ (forall b y, r = Returns (Some b) -> In y b -> initialBlock opts <= pe_blockHeight y).
Proof.
  intros Hp. unfold handler. destruct line as [event|].
  2:{ intros [= <- <- <-]. split; [done|]. by intros b y [=]. }
  destruct (ie_blockHeight event <? initialBlock opts) eqn:Eb.
  { intros [= <- <- <-]. split; [done|]. by intros b y [=]. }
  apply N.ltb_ge in Eb.
  assert (Hpush : forall l, (forall z, In z l -> initialBlock opts <= ie_blockHeight z) ->
                            forall x, In x (l ++ [event]) ->
                                      initialBlock opts <= ie_blockHeight x).
  { intros l Hl x Hx. apply in_app_or in Hx as [Hx|[<-|[]]]; auto. }
  destruct (flushDue opts _ event).
  - match goal with |- context [flush opts (?m0, db)] =>
      destruct (flush opts (m0, db)) as [[m1 db1] fr] eqn:Ef end.
    apply flush_cases in Ef. destruct fr as [[batch|]|].
    + destruct Ef as (Ep & _ & ->). simpl. intros [= <- <- <-]. simpl. split.
      * rewrite Ep. intros x [<-|[]]. done.
      * intros b y [= <-] Hy. apply parsedEvents_In in Hy as (x & Hx & ->). auto.
    + subst m1. intros [= <- <- <-]. simpl. split; [by apply Hpush|]. by intros b y [=].
    + subst m1. intros [= <- <- <-]. simpl. split; [done|]. by intros b y [=].
  - intros [= <- <- <-]. simpl. split; [by apply Hpush|]. by intros b y [=].
Qed.

Lemma handleLines_floor opts lines m db s' batches r :
  (forall x, In x (pending m) -> initialBlock opts <= ie_blockHeight x) ->
  handleLines opts lines (m, db) = (s', batches, r) ->
  (forall x, In x (pending s'.1) -> initialBlock opts <= ie_blockHeight x)
  /\ (forall b y, In b batches -> In y b -> initialBlock opts <= pe_blockHeight y).
Proof.
  revert m db s' batches r.
  induction lines as [|line lines IH]; intros m db s' batches r Hp; cbn [handleLines].
  - intros [= <- <- <-]. split; [done|]. intros b y [].
  - destruct (handler opts line (m, db)) as [[m1 db1] [out|]] eqn:Eh;
      destruct (handler_floor _ _ _ _ _ _ _ Hp Eh) as [Hp1 Hb1].
    + destruct (handleLines opts lines (m1, db1)) as [[s2 rest] r2] eqn:Er.
      destruct (IH _ _ _ _ _ Hp1 Er) as [Hp2 Hb2].
      simpl. intros [= <- <- <-]. split; [done|].
      intros b y Hb Hy. apply in_app_or in Hb as [Hb|Hb]; [|by eapply Hb2].
      destruct out as [b0|]; [|done]. destruct Hb as [<-|[]]. by eapply Hb1.
    + intros [= <- <- <-]. split; [done|]. intros b y [].
Qed.

(** X3: a module started at [initialBlock] never buffers and never exports a
    record of a lower block: every record of every batch of a run, the
    closing flush included, and every record still pending lies at or above
    [initialBlock]. *)
Theorem records_below_initial_block_are_dropped opts lines db :
  let run := exportStream opts lines (wasm_init, db) in
  (forall b y, In b run.1.2 -> In y b -> initialBlock opts <= pe_blockHeight y)
  /\ (forall x, In x (pending run.1.1.1) -> initialBlock opts <= ie_blockHeight x).
Proof.
  unfold exportStream.
  destruct (handleLines opts lines (wasm_init, db)) as [[[m1 db1] batches] r] eqn:Eh.
  destruct (handleLines_floor opts lines wasm_init db _ _ _ ltac:(intros x []) Eh)
    as [Hp Hold].
  destruct r as [u|]; cbv beta iota; [|by split].
  destruct (flush opts (m1, db1)) as [[m2 db2] fr] eqn:Ef.
  apply flush_cases in Ef. destruct fr as [[batch|]|]; simpl.
  - destruct Ef as (Ep & _ & ->). split; [|by rewrite Ep].
    intros b y Hb Hy. apply in_app_or in Hb as [Hb|[<-|[]]]; [by eapply Hold|].
    apply parsedEvents_In in Hy as (x & Hx & ->). by apply Hp.
  - subst m2. rewrite app_nil_r. by split.
  - subst m2. by split.
Qed.

End HandlerFacts.

(** ** exporter: the retry loop *)

Section RetryFacts.
Context {Aux Transformation : Type} `{Collaborators Aux Transformation}.
Implicit Types (db : DB Aux) (parsed : list ParsedWasmEvent).

Lemma createContracts_three parsed db rows :
  contractRows parsed (uniqueStrings (map pe_contractAddress parsed)) = Returns rows ->
  let res := createContracts 3 parsed (uniqueStrings (map pe_contractAddress parsed)) db in
  (res.2 = Throws <-> threeFaultsAhead db)
  /\ (res.2 = Throws -> contracts res.1 = contracts db)
  /\ (res.2 <> Throws -> contracts res.1 = Contract_bulkCreate rows (contracts db))
  /\ (length (faults db) <= length (faults res.1) + 3)%nat.
Proof.
  intros Er. unfold threeFaultsAhead. cbn [createContracts]. rewrite Er.
  destruct (faults db) as [|[] [|[] [|[] coming]]] eqn:Ef; cbn [faults with_faults];
    try rewrite Ef; cbn [faults with_faults with_contracts contracts fst snd length];
    (repeat split; try done; try lia; try (intros [? [=]]; fail); eauto).
Qed.

(** X5: the contract bulk insert is attempted at most three times: it fails
    for good exactly when the database raises on three attempts in a row, and
    then the Contract table is as before; otherwise the table is the upsert
    of the batch's rows, however many attempts it took. *)
Theorem contract_creation_retries parsed db :
  let res := createContracts 3 parsed (uniqueStrings (map pe_contractAddress parsed)) db in
  (res.2 = Throws <-> threeFaultsAhead db)
  /\ (res.2 = Throws -> contracts res.1 = contracts db)
  /\ (res.2 <> Throws ->
      contracts res.1 = Contract_bulkCreate (batchContractRows parsed) (contracts db))
  /\ (length (faults db) <= length (faults res.1) + 3)%nat.
Proof.
  destruct (contractRows_Returns parsed (uniqueStrings (map pe_contractAddress parsed)))
    as [rows Er]; [by intros a; apply uniqueStrings_In|].
  unfold batchContractRows. rewrite Er. by apply createContracts_three.
Qed.

Lemma exporter_Throws_empty f1 f2 db : (exporter [] f1 f2 db).2 = Throws.
Proof.
  unfold exporter. destruct (state db) as [st|]; [|done].
  destruct (createContracts 3 [] _ db) as [db1 [u|]]; [|done].
  destruct (WasmEvent_bulkCreate [] _) as [t [u0|]]; [|done].
  destruct (transformParsedEvents _ _) as [a tr].
  destruct (if f1 then _ else _) as [a0 [upd des]].
  destruct f2; [done|]. simpl.
  destruct (queueWebhooks _ _ _ _) as [table [n|]]; [|done].
  by destruct (AccountWebhook_queueWebhooks _ _) as [a1 k].
Qed.

Lemma queueWebhooks_Throws_table webhooks store table evs :
  (queueWebhooks webhooks store table evs).2 = Throws ->
  (queueWebhooks webhooks store table evs).1 = table.
Proof.
  unfold queueWebhooks. destruct webhooks; [done|].
  destruct (Promise_all _) as [results|]; [|done].
  destruct (omap _ results); [done|].
  unfold PendingWebhook_bulkCreate. by destruct (storedPendingWebhooks _).
Qed.

Lemma queueWebhooks_nil webhooks store table :
  queueWebhooks webhooks store table [] = (table, Returns 0%nat).
Proof. unfold queueWebhooks. by destruct webhooks. Qed.

(** A throwing export leaves the PendingWebhook table as it was. *)
Lemma exporter_Throws_pending parsed f1 f2 db :
  (exporter parsed f1 f2 db).2 = Throws ->
  pendingWebhooks (exporter parsed f1 f2 db).1 = pendingWebhooks db.
Proof.
  unfold exporter. destruct (state db) as [st|] eqn:Est; [|done].
  pose proof (createContracts_frame 3 parsed
                (uniqueStrings (map pe_contractAddress parsed)) db) as Hf.
  destruct (createContracts 3 parsed _ db) as [db1 [u|]]; simpl in Hf;
    destruct Hf as (He & Hn & Hs & Hp & Ha); [|done].
  destruct (WasmEvent_bulkCreate parsed _) as [t [u0|]]; [|done].
  destruct (transformParsedEvents _ _) as [a tr].
  destruct (if f1 then _ else _) as [a0 [upd des]].
  destruct f2.
  - destruct (last parsed) as [lastEvent|]; [done|]. done.
  - simpl.
    destruct (last parsed) as [lastEvent|] eqn:El.
    + pose proof (queueWebhooks_Throws_table (getProcessedWebhooks st) t.1
                    (pendingWebhooks db1)
                    (attachContracts
                       (omap (fun address => contracts db1 !! address)
                             (uniqueStrings (map pe_contractAddress parsed)))
                       (createdInstances parsed t.1))) as Hq.
      destruct (queueWebhooks _ _ _ _) as [table [n|]]; simpl in *.
      * by destruct (AccountWebhook_queueWebhooks _ _) as [a1 k].
      * intros _. by rewrite Hq.
    + assert (parsed = []) as ->
        by (by destruct parsed using rev_ind; [|rewrite last_snoc in El]).
      simpl. rewrite queueWebhooks_nil.
      by destruct (AccountWebhook_queueWebhooks _ _) as [a1 k].
Qed.

(** The causes for which an export throws. *)
Lemma exporter_Throws_when parsed f1 f2 db :
  tablesWellKeyed db ->
  state db = None \/ threeFaultsAhead db \/ parsed = []
  \/ ~ List.NoDup (map eventKey parsed)
  \/ (f2 = false /\ exists a, In a (batchWebhookObjects parsed db) /\ refused a) ->
  (exporter parsed f1 f2 db).2 = Throws.
Proof.
  intros [Hck Hek] Hcause.
  destruct (state db) as [st|] eqn:Est; [|unfold exporter; by rewrite Est].
  destruct Hcause as [?|Hcause]; [done|].
  destruct parsed as [|p0 parsed0] eqn:Eparsed; [apply exporter_Throws_empty|].
  rewrite <- Eparsed in *.
  assert (Hne : parsed <> []) by (by rewrite Eparsed). clear Eparsed.
  destruct (contractRows_Returns parsed (uniqueStrings (map pe_contractAddress parsed)))
    as [rows Er]; [by intros a; apply uniqueStrings_In|].
  destruct (createContracts_three parsed db rows Er) as (Hiff & _ & Hc & _).
  unfold exporter, batchWebhookObjects in *. rewrite Est in *.
  pose proof (createContracts_frame 3 parsed
                (uniqueStrings (map pe_contractAddress parsed)) db) as Hf.
  destruct (createContracts 3 parsed _ db) as [db1 [u|]] eqn:Ec; [|done].
  simpl in Hf, Hc, Hiff. destruct Hf as (He & Hn & Hs & Hp & Ha).
  specialize (Hc ltac:(done)).
  destruct Hcause as [Hfa|Hcause]; [by apply Hiff in Hfa|].
  destruct Hcause as [?|Hcause]; [done|].
  destruct (WasmEvent_bulkCreate parsed (events db1, nextEventId db1)) as [t0 [u0|]] eqn:Eb;
    [|done].
  apply WasmEvent_bulkCreate_Returns in Eb as [-> Hnd].
  destruct Hcause as [?|(-> & Hbad)]; [done|].
  set (t := WasmEvent_upsertRows parsed (events db1, nextEventId db1)).
  set (evs := attachContracts _ (createdInstances parsed t.1)).
  assert (Hevs : forall e, In e evs -> we_contract e <> None).
  { intros e. apply attachContracts_carry.
    - rewrite Hc. by apply Contract_bulkCreate_keyed.
    - apply WasmEvent_upsertRows_keyed. simpl. by rewrite He.
    - intros p Hp'. rewrite Hc.
      assert (Hin : In (pe_contractAddress p) (map c_address rows)).
      { rewrite (contractRows_addresses _ _ _ Er). apply uniqueStrings_In, in_map_iff. eauto. }
      apply in_map_iff in Hin as (r & <- & Hr). by apply Contract_bulkCreate_present. }
  assert (Hobjects : rowsToCreate (getProcessedWebhooks st) t.1 evs
                     = rowsToCreate (getProcessedWebhooks st)
                         (WasmEvent_upsertRows parsed (events db, nextEventId db)).1
                         (batchInstances parsed
                            (Contract_bulkCreate (batchContractRows parsed) (contracts db))
                            (WasmEvent_upsertRows parsed (events db, nextEventId db)).1)).
  { subst evs t. unfold batchInstances, batchContractRows. by rewrite Er, Hc, He, Hn. }
  destruct (transformParsedEvents _ _) as [a tr].
  destruct (if f1 then _ else _) as [a0 [upd des]].
  simpl.
  rewrite (queueWebhooks_rows (getProcessedWebhooks st) t.1
             (pendingWebhooks db1) evs Hevs).
  unfold PendingWebhook_bulkCreate. rewrite Hobjects.
  apply storedPendingWebhooks_None in Hbad. by rewrite Hbad.
Qed.

(** X6: when [exporter] throws.  The modules outside the sources, the
    filters of the webhooks among them, are taken not to throw, and the
    database to raise only where the retry loop expects it or where an
    insert breaks a constraint.  Then, with every row stored under its own key, [exporter]
    throws in exactly five cases: there is no State row; the database raises
    on three contract inserts in a row; the batch is empty; two records of
    the batch have the same block height, contract address and key, which
    the event insert refuses; or webhooks are sent and one of the objects
    made for the batch has a null value or endpoint, which the webhook
    insert refuses.  A webhook that throws or answers undefined never makes
    it throw.  Whenever it throws, the State row, its checkpoint included,
    and the PendingWebhook table are left as they were, and without a State
    row nothing at all is written.  When it completes, the block it reports
    is that of the last record of the batch. *)
Theorem exporter_throws_exactly_when parsed f1 f2 db :
  tablesWellKeyed db ->
  ((exporter parsed f1 f2 db).2 = Throws
   <-> state db = None \/ threeFaultsAhead db \/ parsed = []
       \/ ~ List.NoDup (map eventKey parsed)
       \/ (f2 = false
           /\ exists a, In a (batchWebhookObjects parsed db) /\ refused a))
  /\ ((exporter parsed f1 f2 db).2 = Throws ->
      state (exporter parsed f1 f2 db).1 = state db
      /\ pendingWebhooks (exporter parsed f1 f2 db).1 = pendingWebhooks db)
  /\ (state db = None -> (exporter parsed f1 f2 db).1 = db)
  /\ forall r, (exporter parsed f1 f2 db).2 = Returns r ->
       lastBlockHeightExported r = default 0 (pe_blockHeight <$> last parsed).
Proof.
  intros Hwk. split; [|split; [|split]].
  - split; [|by apply exporter_Throws_when].
    intros Hthrow.
    destruct (exporter_Throws_cases parsed f1 f2 db Hwk Hthrow)
      as [?|[Hc|[?|[?|?]]]]; auto 6.
    destruct (contractRows_Returns parsed (uniqueStrings (map pe_contractAddress parsed)))
      as [rows Er]; [by intros a; apply uniqueStrings_In|].
    destruct (createContracts_three parsed db rows Er) as [Hiff _].
    right. left. by apply Hiff.
  - intros Hthrow. split; [by apply exporter_Throws_state|by apply exporter_Throws_pending].
  - intros Hst. unfold exporter. by rewrite Hst.
  - intros r Hr.
    destruct (exporter parsed f1 f2 db) as [db' o] eqn:E. simpl in Hr. subst o.
    apply exporter_Returns in E as (_ & _ & l & _ & _ & _ & _ & _ & El & _ & _ & Hl).
    by rewrite El, Hl.
Qed.
End RetryFacts.

(** ** Bulk insert: the row of a key after the insert *)

Section UpsertRows.
Context `{Countable K} {V : Type}.
Variable keyOf : V -> K.
Variable merge : V -> V -> V.
Variable stamp : N -> V -> V.
Hypothesis merge_merge : forall a b c, merge (merge a b) c = merge a c.
Hypothesis merge_stamp : forall n r, merge (stamp n r) r = stamp n r.

Local Abbreviation ups' := (upsert keyOf merge stamp).
Local Abbreviation bulk' := (bulkUpsert keyOf merge stamp).

Lemma upsert_counter (t : gmap K V * N) r : t.2 <= (ups' t r).2.
Proof. unfold upsert. destruct (t.1 !! keyOf r); simpl; lia. Qed.

Lemma bulkUpsert_counter rows (t : gmap K V * N) : t.2 <= (bulk' rows t).2.
Proof.
  revert t. induction rows as [|r rows IH]; intros t; simpl; [lia|].
  pose proof (upsert_counter t r). specialize (IH (ups' t r)). lia.
Qed.

Lemma firstFor_lastFor k rows :
  firstFor keyOf k rows = None <-> lastFor keyOf k rows = None.
Proof.
  induction rows as [|r rows IH]; simpl; [done|].
  destruct (decide (keyOf r = k)).
  - by destruct (lastFor keyOf k rows).
  - rewrite IH. by destruct (lastFor keyOf k rows).
Qed.

(** A key that was free holds, after the insert, the first row given for it,
    with a fresh id, updated by the last row given for it. *)
Lemma bulkUpsert_fresh rows (t : gmap K V * N) k rl :
  t.1 !! k = None -> lastFor keyOf k rows = Some rl ->
  exists rf n, firstFor keyOf k rows = Some rf /\ t.2 <= n < (bulk' rows t).2
               /\ (bulk' rows t).1 !! k = Some (merge (stamp n rf) rl).
Proof.
  revert t. induction rows as [|r rows IH]; intros t Hk; simpl; [done|].
  destruct (decide (keyOf r = k)) as [<-|Hne].
  - intros Hl. exists r, t.2.
    assert (Hu : ups' t r = (<[keyOf r := stamp t.2 r]> t.1, t.2 + 1)).
    { unfold upsert. by rewrite Hk. }
    split; [done|]. split.
    + pose proof (bulkUpsert_counter rows (ups' t r)) as Hc. rewrite Hu in Hc at 1.
      simpl in Hc. lia.
    + rewrite (bulkUpsert_existing keyOf merge stamp merge_merge rows _ (keyOf r)
                 (stamp t.2 r)).
      2:{ rewrite Hu. simpl. by rewrite lookup_insert_eq. }
      destruct (lastFor keyOf (keyOf r) rows) as [x|].
      * by injection Hl as ->.
      * injection Hl as <-. by rewrite merge_stamp.
  - intros Hl. assert (Hl' : lastFor keyOf k rows = Some rl).
    { by destruct (lastFor keyOf k rows). }
    destruct (IH (ups' t r)) as (rf & n & Hf & Hn & Hlook); [|done|].
    + by rewrite upsert_lookup_ne.
    + exists rf, n. split; [done|]. split; [|done].
      pose proof (upsert_counter t r). lia.
Qed.
End UpsertRows.

(** ** exporter: the rows it leaves *)

Section RowFacts.
Context {Aux Transformation : Type} `{Collaborators Aux Transformation}.
Implicit Types (db : DB Aux) (parsed : list ParsedWasmEvent).

Lemma lastFor_map_unsavedRow k parsed :
  lastFor rowKey k (map unsavedRow parsed) = unsavedRow <$> lastFor eventKey k parsed.
Proof.
  induction parsed as [|p parsed IH]; simpl; [done|].
  rewrite IH. destruct (lastFor eventKey k parsed); simpl; [done|].
  change (rowKey (unsavedRow p)) with (eventKey p). by destruct (decide (eventKey p = k)).
Qed.

Lemma firstFor_map_unsavedRow k parsed :
  firstFor rowKey k (map unsavedRow parsed) = unsavedRow <$> firstFor eventKey k parsed.
Proof.
  induction parsed as [|p parsed IH]; simpl; [done|].
  change (rowKey (unsavedRow p)) with (eventKey p). by destruct (decide (eventKey p = k)).
Qed.

Lemma lastFor_In {K0 V0} `{Countable K0} (keyOf : V0 -> K0) (rows : list V0) r :
  In r rows -> exists rl, lastFor keyOf (keyOf r) rows = Some rl.
Proof.
  induction rows as [|r0 rows IH]; simpl; [done|]. intros [->|Hin].
  - destruct (lastFor keyOf (keyOf r) rows); [eauto|]. rewrite decide_True by done. eauto.
  - destruct (IH Hin) as [rl ->]. eauto.
Qed.

Lemma lastFor_Some {K0 V0} `{Countable K0} (keyOf : V0 -> K0) (rows : list V0) k r :
  lastFor keyOf k rows = Some r -> In r rows /\ keyOf r = k.
Proof.
  induction rows as [|r0 rows IH]; simpl; [done|].
  destruct (lastFor keyOf k rows) as [x|].
  - intros [= ->]. destruct IH as [? ?]; auto.
  - destruct (decide (keyOf r0 = k)); [|done]. intros [= ->]. auto.
Qed.

Lemma firstFor_Some {K0 V0} `{Countable K0} (keyOf : V0 -> K0) (rows : list V0) k r :
  firstFor keyOf k rows = Some r -> In r rows /\ keyOf r = k.
Proof.
  induction rows as [|r0 rows IH]; simpl; [done|].
  destruct (decide (keyOf r0 = k)); [intros [= ->]; auto|].
  intros Hf. destruct (IH Hf); auto.
Qed.

(** X7: after an export that completes, the row of every key the batch
    writes carries the value, valueJson and delete of the last record of the
    batch with that key; a row that was there keeps its id and its other
    columns, a new row takes its other columns from the first record of the
    batch with that key and an id not used before; and the rows of all other
    keys are as they were. *)
Theorem exporter_event_rows parsed f1 f2 db db' res :
  exporter parsed f1 f2 db = (db', Returns res) ->
  (forall p, In p parsed ->
     exists row lastRecord,
       events db' !! eventKey p = Some row
       /\ lastParsedFor (eventKey p) parsed = Some lastRecord
       /\ pe_value (row_data row) = pe_value lastRecord
       /\ pe_valueJson (row_data row) = pe_valueJson lastRecord
       /\ pe_delete (row_data row) = pe_delete lastRecord
       /\ match events db !! eventKey p with
          | Some old =>
              row_id row = row_id old
              /\ pe_codeId (row_data row) = pe_codeId (row_data old)
              /\ pe_blockTimeUnixMs (row_data row) = pe_blockTimeUnixMs (row_data old)
              /\ pe_blockTimestamp (row_data row) = pe_blockTimestamp (row_data old)
          | None =>
              nextEventId db <= row_id row < nextEventId db'
              /\ exists firstRecord,
                   firstParsedFor (eventKey p) parsed = Some firstRecord
                   /\ pe_codeId (row_data row) = pe_codeId firstRecord
                   /\ pe_blockTimeUnixMs (row_data row) = pe_blockTimeUnixMs firstRecord
                   /\ pe_blockTimestamp (row_data row) = pe_blockTimestamp firstRecord
          end)
  /\ (forall k, (forall p, In p parsed -> eventKey p <> k) ->
                events db' !! k = events db !! k).
Proof.
  intros E. apply exporter_Returns in E
    as (_ & _ & _ & _ & _ & _ & He & _).
  assert (He1 : events db' = (WasmEvent_upsertRows parsed (events db, nextEventId db)).1)
    by (by rewrite <- He).
  assert (He2 : nextEventId db'
                = (WasmEvent_upsertRows parsed (events db, nextEventId db)).2)
    by (by rewrite <- He).
  unfold WasmEvent_upsertRows in He1, He2. split.
  - intros p Hp.
    destruct (lastFor_In eventKey parsed p Hp) as [pl Hpl].
    assert (Hl : lastFor rowKey (eventKey p) (map unsavedRow parsed) = Some (unsavedRow pl)).
    { by rewrite lastFor_map_unsavedRow, Hpl. }
    destruct (events db !! eventKey p) as [old|] eqn:Eold.
    + exists (mergeEvent old (unsavedRow pl)), pl.
      rewrite He1, (bulkUpsert_existing rowKey mergeEvent stampEvent mergeEvent_merge
                      _ (events db, nextEventId db) _ old Eold), Hl.
      by repeat split.
    + destruct (bulkUpsert_fresh rowKey mergeEvent stampEvent mergeEvent_merge
                  mergeEvent_stamp (map unsavedRow parsed) (events db, nextEventId db)
                  (eventKey p) (unsavedRow pl) Eold Hl)
        as (rf & n & Hf & Hn & Hlook).
      rewrite firstFor_map_unsavedRow in Hf.
      destruct (firstFor eventKey (eventKey p) parsed) as [pf|] eqn:Epf; [|done].
      injection Hf as <-.
      exists (mergeEvent (stampEvent n (unsavedRow pf)) (unsavedRow pl)), pl.
      rewrite He1, He2, Hlook. simpl in Hn. repeat split; try done.
      * simpl. lia.
      * simpl. lia.
      * exists pf. by repeat split.
  - intros k Hk. rewrite He1.
    apply (bulkUpsert_lookup_None rowKey mergeEvent stampEvent).
    destruct (lastFor rowKey k (map unsavedRow parsed)) as [r|] eqn:El; [|done].
    rewrite lastFor_map_unsavedRow in El.
    destruct (lastFor eventKey k parsed) as [pl|] eqn:Epl; [|done].
    destruct (lastFor_Some eventKey parsed k pl Epl) as [Hin Hkey].
    by destruct (Hk pl Hin).
Qed.
End RowFacts.

Section ContractRowFacts.
Context {Aux Transformation : Type} `{Collaborators Aux Transformation}.
Implicit Types (db : DB Aux) (parsed : list ParsedWasmEvent).

Lemma uniqueStrings_NoDup (l : list string) : List.NoDup (uniqueStrings l).
Proof.
  induction l as [|x l IH]; simpl; [constructor|].
  constructor; [|by apply List.NoDup_filter].
  rewrite filter_In. intros [_ Hx]. by rewrite String.eqb_refl in Hx.
Qed.

Lemma contractRows_rows parsed ucs rows :
  contractRows parsed ucs = Returns rows ->
  Forall2 (fun a r => contractRowFor parsed a = Some r) ucs rows.
Proof.
  revert rows. induction ucs as [|a ucs IH]; intros rows; simpl.
  - intros [= <-]. constructor.
  - destruct (List.find _ parsed) as [event|] eqn:Efind; [|done].
    destruct (contractRows parsed ucs) as [rows'|]; [|done].
    intros [= <-]. constructor; [|by apply IH].
    unfold contractRowFor. by rewrite Efind.
Qed.

Lemma contractRowFor_address parsed a r : contractRowFor parsed a = Some r -> c_address r = a.
Proof.
  unfold contractRowFor. destruct (List.find _ parsed); [|done]. by intros [= <-].
Qed.

Lemma contractRows_for parsed ucs rows a :
  contractRows parsed ucs = Returns rows -> List.NoDup ucs -> In a ucs ->
  exists r, contractRowFor parsed a = Some r
            /\ lastFor c_address a rows = Some r
            /\ firstFor c_address a rows = Some r.
Proof.
  intros Er. apply contractRows_rows in Er.
  induction Er as [|a0 r0 ucs rows Hr0 Hrest IH]; [done|].
  intros Hnd Hin. apply NoDup_cons_iff in Hnd as [Ha0 Hnd].
  pose proof (contractRowFor_address _ _ _ Hr0) as Hk0. simpl.
  destruct Hin as [->|Hin].
  - exists r0. split; [done|]. destruct (decide (c_address r0 = a)); [|done].
    split; [|done].
    destruct (lastFor c_address a rows) as [x|] eqn:El; [|done].
    destruct Ha0.
    destruct (lastFor_Some c_address rows a x El) as [Hx Hkx].
    clear -Hrest Hx Hkx. induction Hrest as [|a1 r1 ucs rows Hr1 Hrest IH]; [done|].
    destruct Hx as [->|Hx]; [left|right; auto].
    by rewrite <- (contractRowFor_address _ _ _ Hr1).
  - destruct (IH Hnd Hin) as (r & Hr & Hl & Hf). exists r. split; [done|].
    rewrite Hl. split; [done|].
    destruct (decide (c_address r0 = a)) as [Heq|]; [|done].
    destruct Ha0. by rewrite <- Hk0, Heq.
Qed.

(** X8: after an export that completes, every address of the batch has a
    Contract row whose codeId is that of the first record of the batch with
    that address; a row that was there keeps its three instantiatedAt
    columns, a row that was not is that first record's block and time; the
    rows of all other addresses are as they were. *)
Theorem exporter_contract_rows parsed f1 f2 db db' res :
  exporter parsed f1 f2 db = (db', Returns res) ->
  (forall p, In p parsed ->
     exists first row,
       List.find (fun event => String.eqb (pe_contractAddress event)
                                          (pe_contractAddress p)) parsed = Some first
       /\ contracts db' !! pe_contractAddress p = Some row
       /\ c_codeId row = pe_codeId first
       /\ match contracts db !! pe_contractAddress p with
          | Some old =>
              c_instantiatedAtBlockHeight row = c_instantiatedAtBlockHeight old
              /\ c_instantiatedAtBlockTimeUnixMs row = c_instantiatedAtBlockTimeUnixMs old
              /\ c_instantiatedAtBlockTimestamp row = c_instantiatedAtBlockTimestamp old
          | None =>
              c_address row = pe_contractAddress p
              /\ c_instantiatedAtBlockHeight row = pe_blockHeight first
              /\ c_instantiatedAtBlockTimeUnixMs row = pe_blockTimeUnixMs first
              /\ c_instantiatedAtBlockTimestamp row = pe_blockTimestamp first
          end)
  /\ (forall a, (forall p, In p parsed -> pe_contractAddress p <> a) ->
                contracts db' !! a = contracts db !! a).
Proof.
  intros E. apply exporter_Returns in E as (rows & _ & _ & _ & Er & Hc & _).
  set (ucs := uniqueStrings (map pe_contractAddress parsed)) in *.
  split.
  - intros p Hp.
    assert (Hin : In (pe_contractAddress p) ucs).
    { apply uniqueStrings_In, in_map_iff. eauto. }
    destruct (contractRows_for parsed ucs rows _ Er (uniqueStrings_NoDup _) Hin)
      as (r & Hr & Hl & Hf).
    unfold contractRowFor in Hr.
    destruct (List.find _ parsed) as [first|] eqn:Efind; [|done].
    injection Hr as <-. exists first.
    rewrite Hc. unfold Contract_bulkCreate.
    destruct (contracts db !! pe_contractAddress p) as [old|] eqn:Eold.
    + eexists. split; [done|].
      rewrite (bulkUpsert_existing c_address mergeContract (fun _ r => r)
                 mergeContract_merge rows (contracts db, 0) _ old Eold), Hl.
      by repeat split.
    + destruct (bulkUpsert_fresh c_address mergeContract (fun _ r => r)
                  mergeContract_merge (fun _ r => mergeContract_self r) rows
                  (contracts db, 0) _ _ Eold Hl) as (rf & n & Hf' & _ & Hlook).
      rewrite Hf in Hf'. injection Hf' as <-.
      eexists. split; [done|]. rewrite Hlook. by repeat split.
  - intros a Ha. rewrite Hc. unfold Contract_bulkCreate.
    apply (bulkUpsert_lookup_None c_address mergeContract (fun _ r => r)).
    destruct (lastFor c_address a rows) as [r|] eqn:El; [|done].
    destruct (lastFor_Some c_address rows a r El) as [Hin Hk].
    pose proof (contractRows_addresses _ _ _ Er) as Haddr.
    assert (Hu : In a ucs).
    { rewrite <- Haddr, <- Hk. by apply in_map. }
    apply uniqueStrings_In, in_map_iff in Hu as (p & Hp & Hin').
    by destruct (Ha p Hin').
Qed.
End ContractRowFacts.


(** ** The module: no record is lost *)

Section NothingLost.
Context `{Codec} {Aux Transformation : Type} `{Collaborators Aux Transformation}.
Implicit Types (m : ModuleState) (db : DB Aux).

Local Abbreviation stored db x := (is_Some (events db !! eventKey (parseEvent x))).

Lemma flush_exports opts m db m' db' batch :
  flush opts (m, db) = ((m', db'), Returns (Some batch)) ->
  pending m' = []
  /\ exists res, exporter (parsedEvents (pending m))
                   (negb (opt_updateComputations opts))
                   (negb (opt_sendWebhooks opts)) db = (db', Returns res).
Proof.
  unfold flush. destruct (pending m) as [|x l] eqn:Ep; [done|].
  destruct (exporter _ _ _ db) as [db1 [res|]] eqn:E; [|done].
  intros [= <- <- _]. eauto.
Qed.

Lemma flush_keeps_stored opts m db m' db' out :
  collisionFree (pending m) ->
  flush opts (m, db) = ((m', db'), Returns out) ->
  forall x, In x (pending m) \/ stored db x -> In x (pending m') \/ stored db' x.
Proof.
  intros Hcf Ef. destruct out as [batch|].
  - destruct (flush_exports _ _ _ _ _ _ Ef) as (_ & res & E).
    apply exporter_Returns in E as (_ & _ & _ & _ & _ & _ & He & _).
    assert (He1 : events db'
                  = (WasmEvent_upsertRows (parsedEvents (pending m))
                       (events db, nextEventId db)).1) by (by rewrite <- He).
    intros x [Hx|Hx]; right; rewrite He1; unfold WasmEvent_upsertRows.
    + destruct (lastWithKey_is_Some (pending m) x Hx) as [e He'].
      destruct (lastWithKey_Some _ _ _ He') as [Hk Hin].
      assert (Hexp : In e (eventsToExport (pending m))).
      { apply eventsToExport_last_per_key. by rewrite Hk. }
      assert (Ht : ie_triple e = ie_triple x) by (by apply Hcf).
      injection Ht as Eh Ec Ek.
      replace (eventKey (parseEvent x)) with (rowKey (unsavedRow (parseEvent e))).
      * apply (bulkUpsert_rows_present rowKey mergeEvent stampEvent mergeEvent_merge
                 mergeEvent_stamp).
        apply in_map. unfold parsedEvents. by apply in_map.
      * unfold rowKey, eventKey. simpl. by rewrite Eh, Ec, Ek.
    + by apply (bulkUpsert_present rowKey mergeEvent stampEvent mergeEvent_merge).
  - unfold flush in Ef. destruct (pending m) as [|y l] eqn:Ep.
    + injection Ef as <- <-. rewrite Ep. auto.
    + by destruct (exporter _ _ _ db) as [db1 [res|]].
Qed.
Lemma collisionFree_subset (l R : list IndexerWasmEvent) :
  collisionFree R -> (forall x, In x l -> In x R) -> collisionFree l.
Proof. intros Hcf Hsub x y Hx Hy. apply Hcf; auto. Qed.

Lemma handler_keeps_stored opts line m db m' db' out :
  collisionFree (pending m) ->
  handler opts line (m, db) = ((m', db'), Returns out) ->
  (forall x, In x (pending m) \/ stored db x -> In x (pending m') \/ stored db' x)
  /\ (forall e, line = Some e -> initialBlock opts <= ie_blockHeight e ->
                In e (pending m'))
  /\ (forall x, In x (pending m') -> In x (pending m) \/ line = Some x).
Proof.
  intros Hcf. unfold handler. destruct line as [event|].
  2:{ intros [= <- <- _]. repeat split; auto. done. }
  destruct (ie_blockHeight event <? initialBlock opts) eqn:Eb.
  { intros [= <- <- _]. simpl. repeat split; auto.
    intros e [= <-] Hle. apply N.ltb_lt in Eb. lia. }
  destruct (flushDue opts _ event).
  - match goal with |- context [flush opts (?m0, db)] =>
      destruct (flush opts (m0, db)) as [[m1 db1] [fr|]] eqn:Ef; [|done];
      pose proof (flush_keeps_stored opts m0 db m1 db1 fr Hcf Ef) as Hkeep;
      pose proof (flush_cases _ _ _ _ _ _ Ef) as Hcases end.
    simpl in Hkeep. intros [= <- <- _]. simpl. repeat split.
    + intros x Hx. destruct (Hkeep x Hx) as [?|?]; [left|by right].
      apply in_or_app. by left.
    + intros e [= <-] _. apply in_or_app. right. by left.
    + intros x Hx. apply in_app_or in Hx as [Hx|[<-|[]]]; [|by right].
      left. destruct fr as [batch|].
      * destruct Hcases as (Ep & _). by rewrite Ep in Hx.
      * by subst m1.
  - intros [= <- <- _]. simpl. repeat split.
    + intros x [Hx|Hx]; [left|by right]. apply in_or_app. by left.
    + intros e [= <-] _. apply in_or_app. right. by left.
    + intros x Hx. apply in_app_or in Hx as [Hx|[<-|[]]]; [by left|by right].
Qed.

Lemma handleLines_keeps_stored opts R lines m db s' batches u :
  collisionFree R ->
  (forall x, In x (pending m) -> In x R) ->
  (forall e, In (Some e) lines -> In e R) ->
  handleLines opts lines (m, db) = (s', batches, Returns u) ->
  (forall x, In x (pending m) \/ stored db x -> In x (pending s'.1) \/ stored s'.2 x)
  /\ (forall e, In (Some e) lines -> initialBlock opts <= ie_blockHeight e ->
                In e (pending s'.1) \/ stored s'.2 e)
  /\ (forall x, In x (pending s'.1) -> In x R).
Proof.
  intros Hcf. revert m db s' batches.
  induction lines as [|line lines IH]; intros m db s' batches Hp Hl; cbn [handleLines].
  - intros [= <- _]. simpl. repeat split; auto. intros e [].
  - destruct (handler opts line (m, db)) as [[m1 db1] [out|]] eqn:Eh; [|done].
    destruct (handler_keeps_stored _ _ _ _ _ _ _
                (collisionFree_subset _ _ Hcf Hp) Eh) as (Hk1 & Hnew & Hp1).
    destruct (handleLines opts lines (m1, db1)) as [[s2 rest] r2] eqn:Er.
    simpl. intros [= <- _ Hr2]. subst r2.
    assert (Hp1' : forall x, In x (pending m1) -> In x R).
    { intros x Hx. destruct (Hp1 x Hx) as [?|Heq]; [auto|]. apply Hl. left. by symmetry. }
    destruct (IH m1 db1 s2 rest Hp1' ltac:(intros e He; apply Hl; by right) Er)
      as (Hk2 & Hl2 & Hp2).
    repeat split; [|intros e [->|He] Hle|done].
    + intros x Hx. by apply Hk2, Hk1.
    + apply Hk2. left. by apply Hnew.
    + by apply Hl2.
Qed.

(** X10: when a run over a stream completes and no two of its records with
    different (blockHeight, contractAddress, key) share a concatenated key,
    nothing is left pending, and every record at or above [initialBlock] has
    a [WasmEvent] row under its block height, contract address and converted
    key. *)
Theorem no_record_is_lost opts lines db s' batches u :
  collisionFree (records lines) ->
  exportStream opts lines (wasm_init, db) = (s', batches, Returns u) ->
  pending s'.1 = []
  /\ forall e, In (Some e) lines -> initialBlock opts <= ie_blockHeight e ->
               is_Some (events s'.2 !! (ie_blockHeight e, ie_contractAddress e,
                                        base64KeyToEventKey (ie_key e))).
Proof.
  intros Hcf. unfold exportStream.
  destruct (handleLines opts lines (wasm_init, db)) as [[[m1 db1] bs] [u1|]] eqn:Eh;
    [|done].
  assert (Hrec : forall e, In (Some e) lines -> In e (records lines)).
  { intros e He. apply list_elem_of_In, list_elem_of_omap. exists (Some e).
    split; [by apply list_elem_of_In|done]. }
  destruct (handleLines_keeps_stored opts (records lines) lines wasm_init db _ _ _
              Hcf ltac:(intros x []) Hrec Eh) as (_ & Hl & Hp).
  simpl in Hl, Hp. cbv beta iota.
  destruct (flush opts (m1, db1)) as [[m2 db2] [out|]] eqn:Ef; [|done].
  pose proof (flush_keeps_stored opts m1 db1 m2 db2 out
                (collisionFree_subset _ _ Hcf Hp) Ef) as Hkeep.
  assert (Hempty : pending m2 = []).
  { destruct out as [batch|].
    - by destruct (flush_exports _ _ _ _ _ _ Ef).
    - unfold flush in Ef. destruct (pending m1) as [|y l] eqn:Ep.
      + by injection Ef as <- <-.
      + by destruct (exporter _ _ _ db1) as [db3 [res|]]. }
  intros [= <- _ _]. simpl. split; [done|].
  intros e He Hle. destruct (Hkeep e (Hl e He Hle)) as [Hin|Hst]; [|done].
  by rewrite Hempty in Hin.
Qed.
End NothingLost.

(** ** PendingWebhook.fire *)

Section FireFacts.
Context `{Network}.

(** X11: [fire] on an existing row attempts at most one delivery.  It
    completes exactly when a delivery was attempted and succeeded, and then
    the row and only the row is gone; otherwise it rethrows and the row stays
    in place with [failures] one higher and its event, endpoint and value
    unchanged, as do all other rows.  A Soketi row fired without a soketi
    config fails without anything being sent. *)
Theorem fire_destroys_or_counts soketi (i : nat) (table : list PendingWebhook) this :
  table !! i = Some this ->
  exists table' sent r,
    fire soketi i table = Some (table', sent, r)
    /\ (length sent <= 1)%nat
    /\ (r = Returns tt <-> exists d, sent = [d] /\ send d = Returns tt)
    /\ (r = Returns tt ->
        length table' = pred (length table)
        /\ forall j : nat, table' !! j = if decide (j < i)%nat then table !! j
                                         else table !! S j)
    /\ (r = Throws ->
        table' !! i = Some (countFailure this)
        /\ length table' = length table
        /\ forall j : nat, j <> i -> table' !! j = table !! j)
    /\ (forall channel event,
          pw_endpoint this = Soketi channel event -> soketi = None ->
          sent = [] /\ r = Throws).
Proof.
  intros Hi. unfold fire. rewrite Hi.
  assert (Hlt : (i < length table)%nat) by (by eapply lookup_lt_Some).
  unfold attemptDelivery.
  destruct (pw_endpoint this) as [method url headers|channel event] eqn:Ee.
  - destruct (send (AxiosRequest url method (requestHeaders headers) (pw_value this)))
      as [[]|] eqn:Es;
      eexists _, _, _; (split; [reflexivity|]); simpl.
    + repeat split; try done; try lia.
      * intros _. eauto.
      * rewrite length_delete; [lia|done].
      * intros j. destruct (decide (j < i)%nat).
        { by rewrite list_lookup_delete_lt. }
        { rewrite list_lookup_delete_ge by lia. done. }
    + repeat split; try done; try lia.
      * intros (d & [= <-] & Hd). congruence.
      * by rewrite list_lookup_insert_eq.
      * by rewrite length_insert.
      * intros j Hj. by rewrite list_lookup_insert_ne.
  - destruct soketi as [config|].
    + destruct (send (PusherTrigger config channel event (pw_value this)))
        as [[]|] eqn:Es;
        eexists _, _, _; (split; [reflexivity|]); simpl.
      * repeat split; try done; try lia.
        -- intros _. eauto.
        -- rewrite length_delete; [lia|done].
        -- intros j. destruct (decide (j < i)%nat).
           { by rewrite list_lookup_delete_lt. }
           { rewrite list_lookup_delete_ge by lia. done. }
      * repeat split; try done; try lia.
        -- intros (d & [= <-] & Hd). congruence.
        -- by rewrite list_lookup_insert_eq.
        -- by rewrite length_insert.
        -- intros j Hj. by rewrite list_lookup_insert_ne.
    + eexists _, _, _. split; [reflexivity|]. simpl.
      repeat split; try done; try lia.
      * intros (d & [=] & _).
      * by rewrite list_lookup_insert_eq.
      * by rewrite length_insert.
      * intros j Hj. by rewrite list_lookup_insert_ne.
Qed.
End FireFacts.


Section SpreadFacts.
Context {V : Type}.
Implicit Types (o l : list (string * V)) (k : string).

Lemma fold_obj_set_get l o k :
  obj_get k (fold_left (fun acc (kv : string * V) => obj_set kv.1 kv.2 acc) l o)
  = match lastBinding k l return option V with
    | Some v => Some v
    | None => obj_get k o
    end.
Proof.
  revert o. induction l as [|[k0 v0] l IH]; intros o; simpl; [done|].
  rewrite IH. destruct (lastBinding k l); [done|].
  rewrite obj_get_set. by destruct (String.eqb k0 k).
Qed.

Lemma lastBinding_obj_get l k :
  List.NoDup (map fst l) -> lastBinding k l = obj_get k l.
Proof.
  induction l as [|[k0 v0] l IH]; simpl; [done|].
  intros Hnd. apply NoDup_cons_iff in Hnd as [Hk0 Hnd].
  rewrite IH by done.
  destruct (String.eqb_spec k0 k) as [->|_]; [|by destruct (obj_get k l)].
  destruct (obj_get k l) as [w|] eqn:Eg; [|done].
  destruct Hk0. apply in_map_iff. exists (k, w). split; [done|].
  by apply obj_get_In.
Qed.

Lemma obj_get_Permutation o o' k :
  List.NoDup (map fst o) -> Permutation o o' -> obj_get k o = obj_get k o'.
Proof.
  intros Hnd Hp.
  assert (Hnd' : List.NoDup (map fst o')).
  { eapply Permutation_NoDup; [|exact Hnd]. by apply Permutation_map. }
  destruct (obj_get k o) as [v|] eqn:E1.
  - symmetry. apply In_obj_get; [done|].
    eapply Permutation_in; [exact Hp|]. by apply obj_get_In.
  - destruct (obj_get k o') as [v|] eqn:E2; [|done].
    rewrite <- E1. apply In_obj_get; [done|].
    eapply Permutation_in; [symmetry; exact Hp|]. by apply obj_get_In.
Qed.

Lemma ownEntries_Permutation o : Permutation (ownEntries o) o.
Proof.
  unfold ownEntries. rewrite Object_values_Permutation.
  rewrite map_map. simpl. by rewrite map_id.
Qed.

Lemma spreadInto_get (target source : list (string * V)) k :
  List.NoDup (map fst source) ->
  obj_get k (spreadInto target source)
  = match obj_get k source with Some v => Some v | None => obj_get k target end.
Proof.
  intros Hnd. unfold spreadInto. rewrite fold_obj_set_get.
  assert (Hp := ownEntries_Permutation source).
  rewrite lastBinding_obj_get.
  - rewrite (obj_get_Permutation (ownEntries source) source); [done| |done].
    eapply Permutation_NoDup; [|exact Hnd].
    apply Permutation_map. by symmetry.
  - eapply Permutation_NoDup; [|exact Hnd].
    apply Permutation_map. by symmetry.
Qed.
End SpreadFacts.

Section FireRequests.
Context `{Network}.

(** X12: firing a Url row sends one request, to the endpoint's url with its
    method and the row's value as data.  Its headers are those of the
    endpoint, and [Accept-Encoding: gzip,deflate,compress] is added only when
    the endpoint sets no [Accept-Encoding] of its own: an endpoint header
    of that name replaces the default, and no other header is added. *)
Theorem fire_request_headers soketi (i : nat) (table : list PendingWebhook)
    this method url headers :
  table !! i = Some this ->
  pw_endpoint this = Url method url headers ->
  List.NoDup (map fst headers) ->
  exists table' sentHeaders r,
    fire soketi i table
    = Some (table', [AxiosRequest url method sentHeaders (pw_value this)], r)
    /\ forall k,
         obj_get k sentHeaders
         = match obj_get k headers with
           | Some v => Some v
           | None => if String.eqb "Accept-Encoding" k
                     then Some "gzip,deflate,compress" else None
           end.
Proof.
  intros Hi He Hnd. unfold fire, attemptDelivery. rewrite Hi, He.
  destruct (send _) as [[]|]; eexists _, _, _; (split; [reflexivity|]);
    intros k; unfold requestHeaders; by rewrite spreadInto_get.
Qed.


Lemma attemptDelivery_countFailure soketi this :
  attemptDelivery soketi (countFailure this) = attemptDelivery soketi this.
Proof. done. Qed.

(** X13: as long as the delivery of a row keeps failing, every call of
    [fire] on it adds one to its [failures]: after [n] calls the row is
    still at its position with [failures] higher by [n] and nothing else
    changed, and the table has the same length and the same other rows. *)
Theorem fire_counts_every_failure soketi (n i : nat) (table : list PendingWebhook) this :
  table !! i = Some this ->
  (attemptDelivery soketi this).2 = Throws ->
  fireTimes n soketi i table !! i = Some (countFailures n this)
  /\ length (fireTimes n soketi i table) = length table
  /\ forall j : nat, j <> i -> fireTimes n soketi i table !! j = table !! j.
Proof.
  revert table this. induction n as [|n IH]; intros table this Hi Hfail.
  - simpl. split; [|done]. rewrite Hi. f_equal. destruct this; unfold countFailures; simpl.
    f_equal. lia.
  - assert (Hlt : (i < length table)%nat) by (by eapply lookup_lt_Some).
    simpl. unfold fire. rewrite Hi.
    destruct (attemptDelivery soketi this) as [sent [u|]] eqn:Ea; [done|].
    destruct (IH (<[i := countFailure this]> table) (countFailure this))
      as (Hrow & Hlen & Hrest).
    + by rewrite list_lookup_insert_eq.
    + by rewrite attemptDelivery_countFailure, Ea.
    + split; [|split].
      * rewrite Hrow. f_equal. unfold countFailures, countFailure; simpl.
        f_equal. lia.
      * by rewrite Hlen, length_insert.
      * intros j Hj. rewrite Hrest by done. by rewrite list_lookup_insert_ne.
Qed.
End FireRequests.

Lemma fire_request_headers_witness :
  exists table' sentHeaders r,
    @fire networkUp None 0 [sampleUrlRow]
    = Some (table', [AxiosRequest "https://example.org/hook" "POST" sentHeaders (JNum 30)], r)
    /\ forall k,
         obj_get k sentHeaders
         = match obj_get k [("Authorization", "Bearer t"); ("Accept-Encoding", "identity")] with
           | Some v => Some v
           | None => if String.eqb "Accept-Encoding" k
                     then Some "gzip,deflate,compress" else None
           end.
Proof.
  apply (@fire_request_headers networkUp None 0%nat [sampleUrlRow] sampleUrlRow "POST"
           "https://example.org/hook"
           [("Authorization", "Bearer t"); ("Accept-Encoding", "identity")]).
  - reflexivity.
  - reflexivity.
  - repeat constructor; simpl; intros Hin; decompose [or] Hin; congruence.
Defined.


Lemma fire_counts_every_failure_witness :
  @fireTimes networkDown 3 None 1 [sampleSoketiRow; sampleUrlRow] !! 1%nat
  = Some (countFailures 3 sampleUrlRow)
  /\ length (@fireTimes networkDown 3 None 1 [sampleSoketiRow; sampleUrlRow])
     = length [sampleSoketiRow; sampleUrlRow]
  /\ forall j : nat, j <> 1%nat ->
       @fireTimes networkDown 3 None 1 [sampleSoketiRow; sampleUrlRow] !! j
       = [sampleSoketiRow; sampleUrlRow] !! j.
Proof.
  apply (@fire_counts_every_failure networkDown None 3 1
           [sampleSoketiRow; sampleUrlRow] sampleUrlRow); reflexivity.
Defined.

Lemma fire_destroys_or_counts_witness :
  exists table' sent r,
    @fire networkUp None 1 [sampleSoketiRow; sampleUrlRow] = Some (table', sent, r)
    /\ (length sent <= 1)%nat
    /\ (r = Returns tt <-> exists d, sent = [d] /\ @send networkUp d = Returns tt)
    /\ (r = Returns tt ->
        length table' = pred (length [sampleSoketiRow; sampleUrlRow])
        /\ forall j : nat, table' !! j = if decide (j < 1)%nat
                                         then [sampleSoketiRow; sampleUrlRow] !! j
                                         else [sampleSoketiRow; sampleUrlRow] !! S j)
    /\ (r = Throws ->
        table' !! 1%nat = Some (countFailure sampleUrlRow)
        /\ length table' = length [sampleSoketiRow; sampleUrlRow]
        /\ forall j : nat, j <> 1%nat -> table' !! j = [sampleSoketiRow; sampleUrlRow] !! j)
    /\ (forall channel event,
          pw_endpoint sampleUrlRow = Soketi channel event -> @None SoketiConfig = None ->
          sent = [] /\ r = Throws).
Proof.
  apply (@fire_destroys_or_counts networkUp None 1 [sampleSoketiRow; sampleUrlRow]
           sampleUrlRow).
  reflexivity.
Defined.


(** ** PendingWebhook.queueWebhooks *)

Lemma Promise_all_Throws {A} (l : list (outcome A)) :
  Promise_all l = Throws <-> In Throws l.
Proof.
  induction l as [|[a|] l IH]; simpl.
  - split; [done|tauto].
  - destruct (Promise_all l).
    + split; [done|]. intros [?|Hin]; [done|]. by apply IH in Hin.
    + split; [|done]. intros _. right. by apply IH.
  - split; auto.
Qed.

Lemma Promise_all_results {A} (l : list (outcome A)) results :
  Promise_all l = Returns results -> l = map Returns results.
Proof.
  revert results. induction l as [|[a|] l IH]; simpl; intros results.
  - by intros [= <-].
  - destruct (Promise_all l) as [r|]; [|done].
    intros [= <-]. simpl. f_equal. by apply IH.
  - done.
Qed.



(** ** DAO core formulas: configuration, lists and proposal modules *)

Lemma Object_keys_not_nullish v :
  js_nullish v = false -> exists names, Object_keys v = Returns names.
Proof. destruct v; simpl; try done; unfold Object_keys; simpl; eauto. Qed.

Lemma keysOrNone_Returns v : exists names, keysOrNone v = Returns (JArr (map JStr names)).
Proof.
  unfold keysOrNone.
  destruct (Object_keys_not_nullish (if js_nullish v then JObj [] else v))
    as [names ->]; [by destruct v|]. eauto.
Qed.

Lemma keysOrNone_unset v : js_nullish v = true -> keysOrNone v = Returns (JArr []).
Proof. intros Hv. unfold keysOrNone. by rewrite Hv. Qed.

(** X15: the list formulas and [paused] never throw on their own: each of
    [listItems], [cw20List], [cw721List], [listSubDaos] and [paused] rejects
    exactly when its one [get] rejects.  On state that is unset (undefined
    or null) the lists are empty and [paused] is [false]; [paused] never
    answers undefined or null. *)
Theorem list_formulas_default_to_empty (env : Env) :
  let ca := contractAddress env in
  (forall formula key,
     In (formula, key) [(listItems, "items"); (cw20List, "cw20s");
                        (cw721List, "cw721s"); (listSubDaos, "sub_daos")] ->
     (settled (formula env) = Throws <-> settled (get env ca key) = Throws)
     /\ (forall v, settled (get env ca key) = Returns v ->
           exists items, settled (formula env) = Returns (JArr items)
                         /\ (js_nullish v = true -> items = [])))
  /\ (settled (paused env) = Throws <-> settled (get env ca "paused") = Throws)
  /\ (forall v, settled (get env ca "paused") = Returns v ->
        settled (paused env) = Returns (if js_nullish v then JBool false else v))
  /\ (forall v, settled (paused env) = Returns v -> js_nullish v = false).
Proof.
  intros ca. split; [|split; [|split]].
  - assert (Hkeys : forall key,
              (await (get env ca key) keysOrNone = Throws
               <-> settled (get env ca key) = Throws)
              /\ (forall v, settled (get env ca key) = Returns v ->
                    exists items, await (get env ca key) keysOrNone = Returns (JArr items)
                                  /\ (js_nullish v = true -> items = []))).
    { intros key. unfold await. destruct (settled (get env ca key)) as [v|].
      - destruct (keysOrNone_Returns v) as [names Hn]. split.
        + rewrite Hn. by split.
        + intros v' [= <-]. exists (map JStr names). split; [done|].
          intros Hv. rewrite (keysOrNone_unset v Hv) in Hn. by injection Hn as <-.
      - split; [done|]. done. }
    intros formula key Hin. simpl in Hin.
    destruct Hin as [[= <- <-]|[[= <- <-]|[[= <- <-]|[[= <- <-]|[]]]]];
      try apply Hkeys.
    unfold listSubDaos. simpl. fold ca. unfold await.
    destruct (settled (get env ca "sub_daos")) as [v|]; [|done].
    split.
    + split; [|done]. destruct v; simpl; done.
    + intros v' [= <-].
      destruct v; simpl; eexists; (split; [reflexivity|]); done.
  - unfold paused. simpl. fold ca. unfold await.
    by destruct (settled (get env ca "paused")).
  - intros v. unfold paused. simpl. fold ca. unfold await.
    by intros ->.
  - intros v. unfold paused. simpl. fold ca. unfold await.
    destruct (settled (get env ca "paused")) as [w|]; [|done].
    intros [= <-]. by destruct w.
Qed.

Lemma ownEntries_keys {V} (o : list (string * V)) :
  Permutation (map fst (ownEntries o)) (map fst o).
Proof. by rewrite ownEntries_Permutation. Qed.

Section OwnPropertyOrder.
Context {V : Type}.
Implicit Types (o : list (string * V)).

Lemma array_index_toString k n : array_index k = Some n -> N_toString n = k.
Proof.
  unfold array_index. destruct (NilZero.uint_of_string k) as [u|]; [|done].
  destruct (String.eqb_spec (N_toString (N.of_uint u)) k) as [Heq|]; [|done].
  simpl. destruct (N.of_uint u <=? 4294967294); [|done].
  by intros [= <-].
Qed.

Lemma insert_by_index_sorted (n : N) (v : V) (l : list (N * V)) :
  Sorted N.le (map fst l) -> Sorted N.le (map fst (insert_by_index n v l)).
Proof.
  induction l as [|[m w] l IH]; simpl; intros Hs.
  - by repeat constructor.
  - destruct (N.leb_spec n m) as [Hle|Hlt]; simpl.
    + constructor; [done|]. by constructor.
    + apply Sorted_inv in Hs as [Hs Hhd]. constructor; [by apply IH|].
      destruct l as [|[m' w'] l']; simpl.
      * constructor. lia.
      * destruct (n <=? m'); simpl; constructor; [lia|].
        by apply HdRel_inv in Hhd.
Qed.

Lemma index_props_sorted o : Sorted N.le (map fst (index_props o)).
Proof.
  induction o as [|[k v] o IH]; simpl; [constructor|].
  destruct (array_index k); [|done]. by apply insert_by_index_sorted.
Qed.

Lemma index_props_names o :
  map (fun p : N * (string * V) => p.2.1) (index_props (map (fun kv => (kv.1, kv)) o))
  = map N_toString (map fst (index_props (map (fun kv => (kv.1, kv)) o))).
Proof.
  rewrite map_map. apply map_ext_in. intros [n [k v]] Hin. simpl.
  induction o as [|[k0 v0] o IH]; simpl in Hin; [done|].
  destruct (array_index k0) as [m|] eqn:Ea; [|by apply IH].
  apply insert_by_index_In in Hin as [[= -> -> ->]|Hin]; [|by apply IH].
  symmetry. by apply array_index_toString.
Qed.

Lemma string_props_names o :
  map fst (string_props (map (fun kv => (kv.1, kv)) o))
  = List.filter (fun k => negb (isArrayIndex k)) (map fst o).
Proof.
  induction o as [|[k v] o IH]; simpl; [done|].
  unfold isArrayIndex at 1. destruct (array_index k); simpl; [done|]. by rewrite IH.
Qed.
End OwnPropertyOrder.

(** X16: on an items map that is an object, [listItems] answers one string
    per property of the map, each name once: first the names that are array
    indices, in ascending numeric order, then the other names in the order
    in which the map holds them. *)
Theorem listItems_lists_every_key (env : Env) fields :
  settled (get env (contractAddress env) "items") = Returns (JObj fields) ->
  exists indices others,
    settled (listItems env) = Returns (JArr (map JStr (map N_toString indices ++ others)))
    /\ Sorted N.le indices
    /\ others = List.filter (fun k => negb (isArrayIndex k))
                            (map fst fields)
    /\ Permutation (map N_toString indices ++ others) (map fst fields).
Proof.
  intros Hget. unfold listItems. simpl. unfold await. rewrite Hget.
  unfold keysOrNone, Object_keys. simpl.
  exists (map fst (index_props (map (fun kv => (kv.1, kv)) fields))),
         (map fst (string_props (map (fun kv => (kv.1, kv)) fields))).
  assert (Hnames : map fst (ownEntries fields)
                   = (map N_toString
                          (map fst (index_props (map (fun kv => (kv.1, kv)) fields)))
                      ++ map fst (string_props (map (fun kv => (kv.1, kv)) fields)))%list).
  { unfold ownEntries, Object_values. rewrite map_app, map_map.
    by rewrite <- index_props_names. }
  split; [by rewrite Hnames|]. split; [apply index_props_sorted|].
  split; [apply string_props_names|].
  rewrite <- Hnames. apply ownEntries_keys.
Qed.

Lemma listItems_lists_every_key_witness :
  exists indices others,
    settled (listItems sampleV1Dao)
    = Returns (JArr (map JStr (map N_toString indices ++ others)))
    /\ Sorted N.le indices
    /\ others = List.filter (fun k => negb (isArrayIndex k))
                            (map fst [("b", JStr "x"); ("7", JStr "y")])
    /\ Permutation (map N_toString indices ++ others)
                   (map fst [("b", JStr "x"); ("7", JStr "y")]).
Proof.
  apply (listItems_lists_every_key sampleV1Dao [("b", JStr "x"); ("7", JStr "y")]).
  reflexivity.
Defined.


Lemma js_field_Throws v name : js_field v name = Throws <-> js_nullish v = true.
Proof. by destruct v. Qed.

(** X17: [config] rejects exactly when a [get] it awaits rejects: that of
    [config_v2], or that of [config] once [config_v2] is unset.  [daoUri]
    also rejects when there is no config at all (both unset), reading
    [dao_uri] of undefined; when it answers, the answer is never undefined
    or null: an unset [dao_uri] reads as the empty string. *)
Theorem daoUri_needs_a_config (env : Env) :
  let ca := contractAddress env in
  (settled (config env) = Throws
   <-> settled (get env ca "config_v2") = Throws
       \/ (exists v2, settled (get env ca "config_v2") = Returns v2
                      /\ js_nullish v2 = true
                      /\ settled (get env ca "config") = Throws))
  /\ (settled (daoUri env) = Throws
      <-> settled (config env) = Throws
          \/ exists c, settled (config env) = Returns c /\ js_nullish c = true)
  /\ (forall v, settled (daoUri env) = Returns v -> js_nullish v = false)
  /\ (forall fields, settled (config env) = Returns (JObj fields) ->
        obj_get "dao_uri" fields = None ->
        settled (daoUri env) = Returns (JStr "")).
Proof.
  intros ca. split.
  { unfold config. cbn [settled]. fold ca. unfold await.
    destruct (settled (get env ca "config_v2")) as [v2|].
    - destruct (js_nullish v2) eqn:Hv2.
      + destruct (settled (get env ca "config")) as [c|].
        * split; [done|]. intros [?|(w & _ & _ & ?)]; done.
        * split; [|done]. intros _. right. by exists v2.
      + split; [done|]. intros [?|(w & [= <-] & ? & _)]; [done|congruence].
    - split; [|done]. intros _. by left. }
  unfold daoUri. cbn [settled]. unfold await.
  destruct (settled (config env)) as [c|].
  - destruct (js_field c "dao_uri") as [uri|] eqn:Ef.
    + assert (Hc : js_nullish c = false).
      { destruct (js_nullish c) eqn:Hn; [|done].
        apply (js_field_Throws c "dao_uri") in Hn. rewrite Hn in Ef. done. }
      split; [|split].
      * split; [done|]. intros [?|(w & [= <-] & ?)]; [done|congruence].
      * intros v [= <-]. by destruct uri.
      * intros fields [= ->] Hnone. simpl in Ef. rewrite Hnone in Ef.
        by injection Ef as <-.
    + apply js_field_Throws in Ef. split; [|split].
      * split; [|done]. intros _. right. by exists c.
      * done.
      * intros fields [= ->]. done.
  - split; [|split]; [|done|done].
    split; [|done]. intros _. by left.
Qed.

(** X18: [proposalModules] has no default for a contract that stores
    neither map: when [proposal_modules_v2] is unset (or anything falsy) and
    [proposal_modules] is unset too, it throws, and so does
    [activeProposalModules]. *)
Theorem proposalModules_throws_when_unset (env : Env) v2 v1 :
  settled (get env (contractAddress env) "proposal_modules_v2") = Returns v2 ->
  js_truthy v2 = false ->
  settled (get env (contractAddress env) "proposal_modules") = Returns v1 ->
  js_nullish v1 = true ->
  settled (proposalModules env) = Throws
  /\ settled (activeProposalModules env) = Throws.
Proof.
  intros H2 Hfalsy H1 Hnull.
  assert (Hp : settled (proposalModules env) = Throws).
  { unfold proposalModules. simpl. unfold await. rewrite H2. simpl.
    rewrite Hfalsy, H1. by destruct v1. }
  split; [done|]. unfold activeProposalModules. cbn [settled]. unfold await. by rewrite Hp.
Qed.

Lemma proposalModules_throws_when_unset_witness :
  settled (proposalModules sampleBlankContract) = Throws
  /\ settled (activeProposalModules sampleBlankContract) = Throws.
Proof.
  apply (proposalModules_throws_when_unset sampleBlankContract JUndefined JUndefined);
    reflexivity.
Defined.

Lemma withInfo_v1 (env : Env) address :
  withInfo env (v1ProposalModule address)
  = match settled (get env (JStr address) "contract_info") with
    | Returns contractInfo => Returns (v1ProposalModuleWithInfo address contractInfo)
    | Throws => Throws
    end.
Proof.
  unfold withInfo, v1ProposalModule, info, await. simpl.
  by destruct (settled (get env (JStr address) "contract_info")).
Qed.

Lemma withInfo_object (env : Env) data v :
  withInfo env data = Returns v -> exists fields, v = JObj fields.
Proof.
  unfold withInfo. destruct (js_field data "address") as [address|]; [|done].
  unfold await. destruct (settled (info _)) as [contractInfo|]; [|done].
  intros [= <-]. eauto.
Qed.

Lemma Array_filter_objects (items : list JsValue) :
  (forall x, In x items -> exists fields, x = JObj fields) ->
  Array_filter statusEnabled items = Returns (List.filter enabledModule items).
Proof.
  induction items as [|x items IH]; simpl; intros Hobj; [done|].
  destruct (Hobj x) as [fields ->]; [by left|].
  rewrite IH by auto. unfold statusEnabled. simpl.
  destruct (obj_get "status" fields) as [[]|]; simpl; done.
Qed.

Lemma proposalModules_objects (env : Env) v :
  settled (proposalModules env) = Returns v ->
  exists items, v = JArr items /\ forall x, In x items -> exists fields, x = JObj fields.
Proof.
  unfold proposalModules. simpl. unfold await.
  destruct (settled (get env (contractAddress env) "proposal_modules_v2")) as [v2|];
    [|done].
  match goal with |- context [Promise_all (map _ ?l)] => idtac | _ => idtac end.
  set (collected := if js_truthy v2 then _ else _).
  destruct collected as [modules|]; [|done].
  destruct (Promise_all (map (withInfo env) modules)) as [items|] eqn:Ep; [|done].
  intros [= <-]. exists items. split; [done|].
  intros x Hx. apply Promise_all_results in Ep.
  assert (Hin : In (Returns x) (map (withInfo env) modules)).
  { rewrite Ep. apply in_map_iff. by exists x. }
  apply in_map_iff in Hin as (data & Hdata & _).
  by eapply withInfo_object.
Qed.

(** X19: [activeProposalModules] rejects exactly when [proposalModules]
    does; otherwise [proposalModules] answers an array of objects, and
    [activeProposalModules] answers, in the same order, those of them whose
    own [status] is the string ['Enabled']. *)
Theorem activeProposalModules_keeps_enabled (env : Env) :
  (settled (activeProposalModules env) = Throws
   <-> settled (proposalModules env) = Throws)
  /\ forall v, settled (proposalModules env) = Returns v ->
       exists items,
         v = JArr items
         /\ (forall x, In x items -> exists fields, x = JObj fields)
         /\ settled (activeProposalModules env)
            = Returns (JArr (List.filter enabledModule items)).
Proof.
  unfold activeProposalModules. cbn [settled]. unfold await.
  destruct (settled (proposalModules env)) as [v|] eqn:Ep; [|by split].
  destruct (proposalModules_objects env v Ep) as (items & -> & Hobj).
  rewrite (Array_filter_objects items Hobj). split; [done|].
  intros v [= <-]. by exists items.
Qed.

Lemma Promise_all_v1 (env : Env) (addresses : list string) :
  Promise_all (map (withInfo env) (map v1ProposalModule addresses))
  = match Promise_all (map (fun a => settled (get env (JStr a) "contract_info")) addresses) with
    | Returns infos =>
        Returns (map (fun '(a, i) => v1ProposalModuleWithInfo a i)
                     (combine addresses infos))
    | Throws => Throws
    end.
Proof.
  induction addresses as [|a addresses IH]; [done|].
  cbn [map Promise_all]. rewrite withInfo_v1, IH.
  destruct (settled (get env (JStr a) "contract_info")) as [i|]; [|done].
  clear IH.
  by destruct (Promise_all (map (fun a0 => settled (get env (JStr a0) "contract_info"))
                                addresses)).
Qed.

(** X20: a V1 DAO ([proposal_modules_v2] unset or falsy, [proposal_modules]
    a map).  [proposalModules] rejects when the [contract_info] of one of
    the map's keys cannot be read; otherwise it answers one module per key,
    in the order of enumeration: the key as [address], an empty [prefix],
    [status] ['Enabled'] and the [contract_info] stored under that address
    as [info].  [activeProposalModules] answers the same in both cases. *)
Theorem v1_proposal_modules_are_all_active (env : Env) v2 v1 addresses :
  settled (get env (contractAddress env) "proposal_modules_v2") = Returns v2 ->
  js_truthy v2 = false ->
  settled (get env (contractAddress env) "proposal_modules") = Returns v1 ->
  Object_keys v1 = Returns addresses ->
  settled (activeProposalModules env) = settled (proposalModules env)
  /\ ((exists a, In a addresses
                 /\ settled (get env (JStr a) "contract_info") = Throws)
      <-> settled (proposalModules env) = Throws)
  /\ forall v, settled (proposalModules env) = Returns v ->
       exists infos,
         map (fun a => settled (get env (JStr a) "contract_info")) addresses
         = map Returns infos
         /\ v = JArr (map (fun '(a, i) => v1ProposalModuleWithInfo a i)
                          (combine addresses infos)).
Proof.
  intros H2 Hfalsy H1 Hkeys.
  assert (Hp : settled (proposalModules env)
               = match Promise_all (map (fun a => settled (get env (JStr a) "contract_info"))
                                        addresses) with
                 | Returns infos =>
                     Returns (JArr (map (fun '(a, i) => v1ProposalModuleWithInfo a i)
                                        (combine addresses infos)))
                 | Throws => Throws
                 end).
  { unfold proposalModules. simpl. unfold await. rewrite H2. simpl.
    rewrite Hfalsy, H1, Hkeys, Promise_all_v1. by destruct (Promise_all _). }
  split; [|split].
  - unfold activeProposalModules. cbn [settled]. unfold await. rewrite Hp.
    destruct (Promise_all _) as [infos|]; [|done].
    rewrite Array_filter_objects.
    + do 2 f_equal. apply forallb_filter_id, forallb_forall.
      intros x Hx. apply in_map_iff in Hx as ([a i] & <- & _). done.
    + intros x Hx. apply in_map_iff in Hx as ([a i] & <- & _).
      unfold v1ProposalModuleWithInfo. eauto.
  - rewrite Hp. destruct (Promise_all _) as [infos|] eqn:Ep.
    + split; [|done]. intros (a & Ha & Hthrow).
      assert (Hin : In Throws (map (fun a => settled (get env (JStr a) "contract_info"))
                                   addresses)).
      { apply in_map_iff. by exists a. }
      apply Promise_all_Throws in Hin. congruence.
    + split; [done|]. intros _.
      apply Promise_all_Throws, in_map_iff in Ep as (a & Ha & Hin). by exists a.
  - intros v. rewrite Hp. destruct (Promise_all _) as [infos|] eqn:Ep; [|done].
    intros [= <-]. exists infos. split; [|done]. by apply Promise_all_results.
Qed.

Lemma v1_proposal_modules_are_all_active_witness :
  settled (activeProposalModules
             (stateEnv "juno1dao"
                [("juno1dao", "proposal_modules", JObj [("juno1propA", JStr "")]);
                 ("juno1propA", "contract_info", JStr "info")]))
  = settled (proposalModules
               (stateEnv "juno1dao"
                  [("juno1dao", "proposal_modules", JObj [("juno1propA", JStr "")]);
                   ("juno1propA", "contract_info", JStr "info")])).
Proof.
  exact (proj1 (v1_proposal_modules_are_all_active
                  (stateEnv "juno1dao"
                     [("juno1dao", "proposal_modules", JObj [("juno1propA", JStr "")]);
                      ("juno1propA", "contract_info", JStr "info")])
                  JUndefined (JObj [("juno1propA", JStr "")]) ["juno1propA"]
                  eq_refl eq_refl eq_refl eq_refl)).
Defined.


(** ** The further properties at the sample data *)

Lemma sampleDB_wellKeyed : tablesWellKeyed sampleDB.
Proof. split; intros ? ? Hlook; simpl in Hlook; by rewrite lookup_empty in Hlook. Qed.


Lemma sampleDB_no_faults : ~ threeFaultsAhead sampleDB.
Proof. by intros [coming Hc]. Qed.

Lemma sampleLines_collisionFree : collisionFree (records sampleLines).
Proof.
  intros x y Hx Hy. simpl in Hx, Hy.
  destruct Hx as [<-|[<-|[<-|[<-|[<-|[]]]]]];
    destruct Hy as [<-|[<-|[<-|[<-|[<-|[]]]]]];
    intros Hkey; try reflexivity; vm_compute in Hkey; discriminate.
Qed.

Lemma exporter_throws_exactly_when_witness :
  (@exporter unit unit previousValueCollaborators sampleBatch false false sampleDB).2
  = Throws
  /\ state (@exporter unit unit previousValueCollaborators sampleBatch false false
              sampleDB).1 = state sampleDB
  /\ pendingWebhooks (@exporter unit unit previousValueCollaborators sampleBatch false false
                        sampleDB).1 = pendingWebhooks sampleDB.
Proof.
  assert (Hthrow : (@exporter unit unit previousValueCollaborators sampleBatch false false
                      sampleDB).2 = Throws).
  { apply (proj1 (@exporter_throws_exactly_when unit unit previousValueCollaborators
                    sampleBatch false false sampleDB sampleDB_wellKeyed)).
    do 4 right. split; [reflexivity|].
    eexists. split; [vm_compute; right; left; reflexivity|]. left. reflexivity. }
  split; [exact Hthrow|].
  exact (proj1 (proj2 (@exporter_throws_exactly_when unit unit previousValueCollaborators
                         sampleBatch false false sampleDB sampleDB_wellKeyed)) Hthrow).
Defined.

Lemma exporter_event_rows_witness :
  let db := (sampleRun sampleDB).1 in
  let db' := (@exporter unit unit sampleCollaborators migratedBatch false false db).1 in
  events db' !! (10, "juno1dao", "1,2") = events db !! (10, "juno1dao", "1,2").
Proof.
  intros db db'.
  assert (E : exists res,
             @exporter unit unit sampleCollaborators migratedBatch false false db
             = (db', Returns res)).
  { vm_compute. eexists. reflexivity. }
  destruct E as [res E].
  apply (proj2 (@exporter_event_rows unit unit sampleCollaborators migratedBatch
                  false false db db' res E)).
  intros p [<-|[]]. discriminate.
Defined.

Lemma exporter_contract_rows_witness :
  let db := (sampleRun sampleDB).1 in
  let db' := (@exporter unit unit sampleCollaborators migratedBatch false false db).1 in
  contracts db' !! "juno1other" = contracts db !! "juno1other".
Proof.
  intros db db'.
  assert (E : exists res,
             @exporter unit unit sampleCollaborators migratedBatch false false db
             = (db', Returns res)).
  { vm_compute. eexists. reflexivity. }
  destruct E as [res E].
  apply (proj2 (@exporter_contract_rows unit unit sampleCollaborators migratedBatch
                  false false db db' res E)).
  intros p [<-|[]]. discriminate.
Defined.


Lemma no_record_is_lost_witness :
  let out := @exportStream sampleCodec unit unit sampleCollaborators sampleOptions
               sampleLines (wasm_init, sampleDB) in
  pending out.1.1.1 = []
  /\ forall e, In (Some e) sampleLines ->
               @initialBlock sampleOptions <= ie_blockHeight e ->
               is_Some (events out.1.1.2 !! (ie_blockHeight e, ie_contractAddress e,
                                             @base64KeyToEventKey sampleCodec (ie_key e))).
Proof.
  intros out.
  assert (E : out = (out.1.1, out.1.2, Returns tt)) by (vm_compute; reflexivity).
  exact (@no_record_is_lost sampleCodec unit unit sampleCollaborators sampleOptions
           sampleLines sampleDB out.1.1 out.1.2 tt sampleLines_collisionFree E).
Defined.


(** ** flush: the checkpoint of a batch *)

Lemma string_of_uint_digits (u : Decimal.uint) :
  allDigits (NilEmpty.string_of_uint u) = true.
Proof. induction u; simpl; done. Qed.

Lemma N_toString_digits (n : N) : allDigits (N_toString n) = true.
Proof.
  unfold N_toString, NilZero.string_of_uint.
  destruct (N.to_uint n) eqn:E; try done; rewrite <- E; apply string_of_uint_digits.
Qed.

Lemma N_toString_inj (n m : N) : N_toString n = N_toString m -> n = m.
Proof.
  intros Heq. apply DecimalN.Unsigned.to_uint_inj.
  assert (Hnil : forall k, N.to_uint k <> Decimal.Nil).
  { intros [|p]; [done|]. apply DecimalPos.Unsigned.to_uint_nonnil. }
  assert (Hn := NilZero.usu _ (Hnil n)). assert (Hm := NilZero.usu _ (Hnil m)).
  unfold N_toString in Heq. rewrite Heq in Hn. congruence.
Qed.

Lemma digits_prefix_unique (d1 d2 : string) c1 c2 (r1 r2 : string) :
  allDigits d1 = true -> allDigits d2 = true ->
  isDigit c1 = false -> isDigit c2 = false ->
  d1 +:+ String c1 r1 = d2 +:+ String c2 r2 -> d1 = d2.
Proof.
  revert d2. induction d1 as [|a d1 IH]; intros [|b d2]; simpl; try done.
  - intros _ Hb Hc1 _ [= -> _]. apply andb_prop in Hb as [Hb _]. congruence.
  - intros Ha _ _ Hc2 [= -> _]. apply andb_prop in Ha as [Ha _]. congruence.
  - intros Ha Hb Hc1 Hc2 [= -> Heq].
    apply andb_prop in Ha as [_ Ha]. apply andb_prop in Hb as [_ Hb].
    f_equal. by apply IH.
Qed.

Lemma digits_with_nonDigit (d : string) c (r : string) :
  isDigit c = false -> allDigits (d +:+ String c r) = false.
Proof.
  intros Hc. induction d as [|a d IH]; simpl.
  - by rewrite Hc.
  - rewrite IH. by destruct (isDigit a).
Qed.

Lemma dedupKey_height (x y : IndexerWasmEvent) :
  startsWithNonDigit (ie_contractAddress x) = true ->
  startsWithNonDigit (ie_contractAddress y) = true ->
  dedupKey x = dedupKey y -> ie_blockHeight x = ie_blockHeight y.
Proof.
  unfold dedupKey.
  destruct (ie_contractAddress x) as [|cx rx]; [done|].
  destruct (ie_contractAddress y) as [|cy ry]; [done|].
  simpl. intros Hx Hy Heq. apply N_toString_inj.
  apply (digits_prefix_unique _ _ cx cy (rx +:+ ie_key x) (ry +:+ ie_key y));
    try apply N_toString_digits; try (by apply negb_true_iff); done.
Qed.

Lemma dedupKey_no_index (x : IndexerWasmEvent) :
  startsWithNonDigit (ie_contractAddress x) = true ->
  array_index (dedupKey x) = None.
Proof.
  intros Hx. destruct (array_index (dedupKey x)) as [n|] eqn:Ea; [|done].
  apply array_index_toString in Ea.
  assert (Hd := N_toString_digits n). rewrite Ea in Hd.
  unfold dedupKey in Hd.
  destruct (ie_contractAddress x) as [|c r]; [done|]. simpl in Hx.
  apply negb_true_iff in Hx.
  assert (Hf := digits_with_nonDigit (N_toString (ie_blockHeight x)) c (r +:+ ie_key x) Hx).
  discriminate (eq_trans (eq_sym Hd) Hf).
Qed.

Section LastOfObject.
Context {V : Type}.
Implicit Types (o : list (string * V)) (k : string) (v : V).

Lemma Object_values_no_index o :
  (forall k v, In (k, v) o -> array_index k = None) ->
  Object_values o = map snd o.
Proof.
  intros Hno.
  assert (Hboth : index_props o = [] /\ string_props o = map snd o).
  { induction o as [|[k v] o IH]; simpl; [done|].
    rewrite (Hno k v) by (by left).
    destruct IH as [-> ->]; [|done].
    intros k' v' Hin. apply (Hno k' v'). by right. }
  unfold Object_values. by destruct Hboth as [-> ->].
Qed.

Lemma obj_set_last o k v k' v' :
  last (obj_set k v o) = Some (k', v') ->
  (k' = k /\ v' = v) \/ (last o = Some (k', v') /\ exists v0, In (k, v0) o).
Proof.
  induction o as [|[k0 v0] o IH]; simpl.
  - intros [= <- <-]. by left.
  - destruct (String.eqb_spec k0 k) as [->|Hne].
    + destruct o as [|p o'].
      * intros [= <- <-]. by left.
      * intros Hl. right. split.
        { simpl in Hl. done. }
        { exists v0. by left. }
    + destruct o as [|p o'].
      * simpl. intros [= <- <-]. by left.
      * intros Hl.
        assert (Hl' : last (obj_set k v (p :: o')) = Some (k', v')).
        { revert Hl. simpl. destruct p as [kp vp].
          destruct (String.eqb kp k); simpl; by destruct o'. }
        destruct (IH Hl') as [?|[Hlast [w Hw]]]; [by left|].
        right. split; [done|]. exists w. by right.
Qed.
End LastOfObject.

Lemma uniqueIndexerEvents_last (pending : list IndexerWasmEvent)
    (acc : list (string * IndexerWasmEvent)) (top : N) :
  (forall x, In x pending -> startsWithNonDigit (ie_contractAddress x) = true) ->
  nondecreasingFrom top (map Some pending) ->
  (forall k e, In (k, e) acc ->
     dedupKey e = k /\ ie_blockHeight e <= top
     /\ startsWithNonDigit (ie_contractAddress e) = true) ->
  (forall k e, last acc = Some (k, e) -> ie_blockHeight e = top) ->
  let o := fold_left (fun acc event => obj_set (dedupKey event) event acc) pending acc in
  (forall k e, In (k, e) o -> array_index k = None)
  /\ (forall k e, last o = Some (k, e) ->
        ie_blockHeight e = default top (ie_blockHeight <$> last pending)).
Proof.
  revert acc top. induction pending as [|x pending IH]; intros acc top Hnd Hasc Hacc Hlast.
  - simpl. split; [|done]. intros k e Hin.
    destruct (Hacc k e Hin) as (<- & _ & He). by apply dedupKey_no_index.
  - simpl in Hasc. destruct Hasc as [Hx Hasc].
    assert (Hstep := IH (obj_set (dedupKey x) x acc) (ie_blockHeight x)).
    simpl. destruct Hstep as [Hidx Hl].
    + intros y Hy. apply Hnd. by right.
    + done.
    + intros k e Hin. apply obj_set_In in Hin as [Hin|[-> ->]].
      * destruct (Hacc k e Hin) as (Hk & Hle & He). repeat split; [done|lia|done].
      * repeat split; [lia|]. apply Hnd. by left.
    + intros k e Hin. apply obj_set_last in Hin as [[-> ->]|[Hin [e0 He0]]]; [done|].
      rewrite (Hlast k e Hin).
      destruct (Hacc _ _ He0) as (Hk & Hle & He).
      assert (ie_blockHeight e0 = ie_blockHeight x).
      { apply dedupKey_height; [done| |done]. apply Hnd. by left. }
      lia.
    + split; [done|]. intros k e Hin. rewrite (Hl k e Hin).
      destruct pending as [|y pending']; [done|].
      change (last (x :: y :: pending')) with (last (y :: pending')).
      destruct (last (y :: pending')) eqn:El; [done|]. by apply last_None in El.
Qed.

Lemma last_map {A B} (f : A -> B) (l : list A) : last (map f l) = f <$> last l.
Proof.
  induction l as [|x l IH]; [done|]. destruct l as [|y l']; [done|].
  exact IH.
Qed.

Lemma nondecreasingFrom_le (top : N) (pending : list IndexerWasmEvent) newest :
  nondecreasingFrom top (map Some pending) ->
  last pending = Some newest ->
  top <= ie_blockHeight newest
  /\ forall x, In x pending -> ie_blockHeight x <= ie_blockHeight newest.
Proof.
  revert top. induction pending as [|y pending IH]; intros top; [done|].
  simpl. intros [Hy Hasc] Hl. destruct pending as [|z pending'].
  - injection Hl as <-. split; [done|]. intros x [<-|[]]. lia.
  - destruct (IH _ Hasc Hl) as [Hle Hall]. split; [lia|].
    intros x [<-|Hin]; [done|]. by apply Hall.
Qed.

Section Checkpoint.
Context `{Codec} {Aux Transformation : Type} `{Collaborators Aux Transformation}.

(** X21: the checkpoint after a flush.  When the buffered records come in
    non-decreasing block order and every contract address begins with a
    character that is not a digit, a completed flush sets
    [lastWasmBlockHeightExported] to the larger of its stored value and the
    block of the newest buffered record, which is the highest block of the
    batch: no exported record lies above the checkpoint. *)
Theorem flush_checkpoint_is_newest_block (opts : ModuleOptions) (m m' : ModuleState)
    (db db' : DB Aux) batch newest :
  flush opts (m, db) = ((m', db'), Returns (Some batch)) ->
  nondecreasingFrom 0 (map Some (pending m)) ->
  (forall x, In x (pending m) -> startsWithNonDigit (ie_contractAddress x) = true) ->
  last (pending m) = Some newest ->
  exists st st',
    state db = Some st /\ state db' = Some st'
    /\ lastWasmBlockHeightExported st'
       = Some (GREATEST (lastWasmBlockHeightExported st) (ie_blockHeight newest))
    /\ forall p, In p batch -> pe_blockHeight p <= ie_blockHeight newest.
Proof.
  intros Hflush Hasc Hnd Hnewest.
  destruct (flush_cases _ _ _ _ _ _ Hflush) as (_ & _ & ->).
  apply flush_exports in Hflush as (_ & res & Hexp).
  apply exporter_Returns in Hexp
    as (rows & st & lastEvent & more & _ & _ & _ & Hst & Hlast & Hst' & _ & _).
  destruct (uniqueIndexerEvents_last (pending m) [] 0 Hnd Hasc) as [Hidx Hl];
    [done|done|].
  assert (Hvalues : eventsToExport (pending m) = map snd (uniqueIndexerEvents (pending m))).
  { unfold eventsToExport. by apply Object_values_no_index. }
  assert (Hheight : pe_blockHeight lastEvent = ie_blockHeight newest).
  { unfold parsedEvents in Hlast. rewrite Hvalues, !last_map in Hlast.
    unfold uniqueIndexerEvents in Hlast.
    destruct (last (fold_left _ (pending m) [])) as [[k e]|] eqn:El; [|done].
    simpl in Hlast. injection Hlast as Hle. rewrite <- Hle. simpl.
    assert (He := Hl k e eq_refl). rewrite Hnewest in He. exact He. }
  destruct (nondecreasingFrom_le 0 (pending m) newest Hasc Hnewest) as [_ Hall].
  exists st, (advanceState st (pe_blockHeight lastEvent) (pe_blockTimeUnixMs lastEvent)).
  split; [done|]. split; [done|]. simpl. rewrite Hheight. split; [done|].
  intros p Hp. unfold parsedEvents in Hp.
  apply in_map_iff in Hp as (e & <- & He). simpl.
  apply eventsToExport_In in He. by apply Hall.
Qed.
End Checkpoint.


Lemma flush_checkpoint_is_newest_block_witness :
  let out := @flush sampleCodec unit unit sampleCollaborators sampleOptions
               (sampleBuffer, sampleDB) in
  exists st st',
    state sampleDB = Some st /\ state out.1.2 = Some st'
    /\ lastWasmBlockHeightExported st'
       = Some (GREATEST (lastWasmBlockHeightExported st) 11)
    /\ forall p, In p (@parsedEvents sampleCodec (pending sampleBuffer)) ->
                 pe_blockHeight p <= 11.
Proof.
  intros out.
  assert (E : out = ((out.1.1, out.1.2),
                     Returns (Some (@parsedEvents sampleCodec (pending sampleBuffer)))))
    by (vm_compute; reflexivity).
  apply (@flush_checkpoint_is_newest_block sampleCodec unit unit sampleCollaborators
           sampleOptions sampleBuffer out.1.1 sampleDB out.1.2
           (@parsedEvents sampleCodec (pending sampleBuffer))
           (sampleEvent 11 "juno1dao" "a2V5MQ==" "MzA=") E).
  - simpl. repeat split; lia.
  - intros x Hx. simpl in Hx. destruct Hx as [<-|[<-|[]]]; reflexivity.
  - reflexivity.
Defined.


(** ** exporter: the two flags *)

Section Flags.
Context {Aux Transformation : Type} `{Collaborators Aux Transformation}.

(** X23: what the flags of [exporter] govern.  With [dontSendWebhooks] a
    completed export leaves the PendingWebhook table as it was and reports
    no webhook queued; with [dontUpdateComputations] it reports no
    computation updated or destroyed.  Neither flag bears on the Contract
    table, the WasmEvent table, the State row, the number of transformations
    or the last block reported: two completed exports of one batch from one
    database agree on them whatever the flags. *)
Theorem exporter_flags_touch_side_tables_only parsed f1 f2 (db db' : DB Aux) res :
  exporter parsed f1 f2 db = (db', Returns res) ->
  (f2 = true -> pendingWebhooks db' = pendingWebhooks db /\ webhooksQueued res = 0%nat)
  /\ (f1 = true -> computationsUpdated res = 0%nat /\ computationsDestroyed res = 0%nat)
  /\ forall g1 g2 db'' res',
       exporter parsed g1 g2 db = (db'', Returns res') ->
       contracts db'' = contracts db'
       /\ events db'' = events db'
       /\ nextEventId db'' = nextEventId db'
       /\ state db'' = state db'
       /\ transformations res' = transformations res
       /\ lastBlockHeightExported res' = lastBlockHeightExported res.
Proof.
  intros Hexp. split; [|split].
  - intros ->. revert Hexp. unfold exporter.
    destruct (state db) as [st|] eqn:Est; [|done].
    pose proof (createContracts_frame 3 parsed
                  (uniqueStrings (map pe_contractAddress parsed)) db) as Hf.
    destruct (createContracts 3 parsed _ db) as [db1 [u|]]; [|done].
    simpl in Hf. destruct Hf as (_ & _ & Hs & Hp & _).
    destruct (WasmEvent_bulkCreate parsed _) as [t [u0|]]; [|done].
    destruct (transformParsedEvents _ _) as [a tr].
    destruct (if f1 then _ else _) as [a0 [upd des]].
    destruct (last parsed) as [lastEvent|]; [|done].
    simpl. rewrite Hs, Est. intros [= <- <-]. simpl. by rewrite Hp.
  - intros ->. revert Hexp. unfold exporter.
    destruct (state db) as [st|] eqn:Est; [|done].
    destruct (createContracts 3 parsed _ db) as [db1 [u|]]; [|done].
    destruct (WasmEvent_bulkCreate parsed _) as [t [u0|]]; [|done].
    destruct (transformParsedEvents _ _) as [a tr].
    destruct f2.
    + destruct (last parsed) as [lastEvent|]; [|done].
      intros [= _ <-]. done.
    + simpl. destruct (queueWebhooks _ _ _ _) as [table [n|]]; [|done].
      destruct (AccountWebhook_queueWebhooks _ _) as [a1 k].
      destruct (last parsed) as [lastEvent|]; [|done].
      intros [= _ <-]. done.
  - intros g1 g2 db'' res' Hexp'.
    assert (Htr : forall h1 h2 d r, exporter parsed h1 h2 db = (d, Returns r) ->
              transformations r
              = length (transformParsedEvents parsed
                          (aux (createContracts 3 parsed
                                  (uniqueStrings (map pe_contractAddress parsed)) db).1)).2).
    { intros h1 h2 d r. unfold exporter.
      destruct (state db) as [st|] eqn:Est; [|done].
      destruct (createContracts 3 parsed _ db) as [db1 [u|]]; [|done].
      destruct (WasmEvent_bulkCreate parsed _) as [t [u0|]]; [|done].
      simpl. destruct (transformParsedEvents _ _) as [a tr].
      destruct (if h1 then _ else _) as [a0 [upd des]].
      destruct h2.
      - destruct (last parsed) as [lastEvent|]; [|done]. by intros [= _ <-].
      - simpl. destruct (queueWebhooks _ _ _ _) as [table [n|]]; [|done].
        destruct (AccountWebhook_queueWebhooks _ _) as [a1 k].
        destruct (last parsed) as [lastEvent|]; [|done]. by intros [= _ <-]. }
    rewrite (Htr _ _ _ _ Hexp), (Htr _ _ _ _ Hexp').
    apply exporter_Returns in Hexp
      as (rows & st & lastEvent & more & Hr & Hc & He & Hst & Hl & Hst' & _ & Hb).
    apply exporter_Returns in Hexp'
      as (rows' & st' & lastEvent' & more' & Hr' & Hc' & He' & Hst0 & Hl' & Hst'' & _ & Hb').
    assert (rows' = rows) by congruence. assert (st' = st) by congruence.
    assert (lastEvent' = lastEvent) by congruence. subst.
    rewrite <- He in He'. injection He' as -> ->.
    repeat split; congruence.
Qed.
End Flags.

Lemma exporter_flags_touch_side_tables_only_witness :
  let run := @exporter unit unit sampleCollaborators sampleBatch true true sampleDB in
  pendingWebhooks run.1 = pendingWebhooks sampleDB.
Proof.
  intros run.
  assert (E : exists res, run = (run.1, Returns res)).
  { vm_compute. eexists. reflexivity. }
  destruct E as [res E].
  exact (proj1 (proj1 (@exporter_flags_touch_side_tables_only unit unit sampleCollaborators
                         sampleBatch true true sampleDB run.1 res E) eq_refl)).
Defined.


(** ** handler: the size of the buffer *)

Section BufferShape.
Context `{Codec} {Aux Transformation : Type} `{Collaborators Aux Transformation}.

Lemma flush_Returns_pending opts m (db : DB Aux) m' db' out :
  flush opts (m, db) = ((m', db'), Returns out) ->
  pending m' = [] /\ lastBlockHeightSeen m' = lastBlockHeightSeen m.
Proof.
  unfold flush. destruct (pending m) as [|x l] eqn:Ep.
  - by intros [= <- _ _].
  - destruct (exporter _ _ _ db) as [db1 [res|]]; [|done]. by intros [= <- _ _].
Qed.

Lemma bufferInvariant_push opts (m : ModuleState) event :
  bufferInvariant opts m ->
  initialBlock opts <= ie_blockHeight event ->
  lastBlockHeightSeen m <= ie_blockHeight event ->
  flushDue opts m event = false ->
  bufferInvariant opts {| pending := pending m ++ [event];
                          lastBlockHeightSeen := ie_blockHeight event;
                          catchingUp := false |}.
Proof.
  intros (Htail & Hlast & Hfloor) Hinit Hseen Hdue. split; [|split]; simpl.
  - intros i j x y Hi Hij Hx Hy. simpl in Hx, Hy.
    destruct (decide (j < length (pending m))%nat) as [Hj|Hj].
    + rewrite lookup_app_l in Hx by lia. rewrite lookup_app_l in Hy by lia.
      by eapply Htail.
    + assert (Hjl : j = length (pending m)).
      { apply lookup_lt_Some in Hy. rewrite length_app in Hy. simpl in Hy. lia. }
      subst j. rewrite lookup_app_r in Hy by lia.
      rewrite Nat.sub_diag in Hy. injection Hy as <-.
      destruct (decide (i < length (pending m))%nat) as [Hil|Hil].
      * rewrite lookup_app_l in Hx by lia.
        unfold flushDue in Hdue. apply andb_false_iff in Hdue as [Hlen|Hlt].
        { apply Nat.leb_gt in Hlen. lia. }
        apply N.ltb_ge in Hlt.
        destruct (last (pending m)) as [z|] eqn:Ez.
        -- rewrite (Htail i (pred (length (pending m))) x z Hi); [|lia|done|].
           ++ rewrite (Hlast z eq_refl). lia.
           ++ by rewrite <- last_lookup.
        -- apply last_None in Ez. rewrite Ez in Hil. simpl in Hil. lia.
      * assert (i = length (pending m)) by lia. subst i.
        rewrite lookup_app_r in Hx by lia. rewrite Nat.sub_diag in Hx.
        by injection Hx as <-.
  - intros x. rewrite last_snoc. by intros [= <-].
  - intros x Hx. apply in_app_iff in Hx as [Hx|[<-|[]]]; [by apply Hfloor|done].
Qed.

Lemma bufferInvariant_single opts event :
  initialBlock opts <= ie_blockHeight event ->
  bufferInvariant opts {| pending := [event];
                          lastBlockHeightSeen := ie_blockHeight event;
                          catchingUp := false |}.
Proof.
  intros Hinit. split; [|split]; simpl.
  - intros [|i] [|j] x y _ _ Hx Hy; simpl in Hx, Hy; try done. congruence.
  - by intros x [= <-].
  - by intros x [<-|[]].
Qed.

Lemma handler_bufferInvariant opts line (m m' : ModuleState) (db db' : DB Aux) r :
  bufferInvariant opts m ->
  nondecreasingFrom (lastBlockHeightSeen m) [line] ->
  handler opts line (m, db) = ((m', db'), r) ->
  bufferInvariant opts m'
  /\ forall rest, nondecreasingFrom (lastBlockHeightSeen m) (line :: rest) ->
                  r <> Throws ->
                  nondecreasingFrom (lastBlockHeightSeen m') rest.
Proof.
  intros Hinv Hasc. unfold handler. destruct line as [event|].
  - simpl in Hasc. destruct Hasc as [Hseen _].
    destruct (N.ltb_spec (ie_blockHeight event) (initialBlock opts)) as [Hlt|Hle].
    + intros [= <- _ <-]. destruct Hinv as (Htail & Hlast & Hfloor). split.
      * split; [|split]; simpl; [done| |done].
        intros x Hx. specialize (Hlast x Hx).
        assert (Hin : In x (pending m)).
        { apply last_Some in Hx as [l' Hl']. rewrite Hl'.
          apply in_or_app. right. by left. }
        specialize (Hfloor x Hin). lia.
      * intros rest [_ Hrest] _. done.
    + set (m0 := {| pending := pending m; lastBlockHeightSeen := lastBlockHeightSeen m;
                    catchingUp := false |}).
      assert (Hinv0 : bufferInvariant opts m0) by done.
      destruct (flushDue opts m0 event) eqn:Hdue.
      * destruct (flush opts (m0, db)) as [[m1 db1] [exported|]] eqn:Ef.
        -- apply flush_Returns_pending in Ef as [Hp Hs].
           intros [= <- _ <-]. rewrite Hp. simpl. split.
           ++ assert (Hsingle := bufferInvariant_single opts event Hle).
              destruct Hsingle as (H1 & H2 & H3). split; [|split]; done.
           ++ intros rest [_ Hrest] _. done.
        -- assert (Hm := flush_cases _ _ _ _ _ _ Ef). simpl in Hm. subst m1.
           intros [= <- _ <-]. split; [done|]. by intros rest _ [].
      * intros [= <- _ <-]. simpl. split.
        -- assert (Hpush := bufferInvariant_push opts m0 event Hinv0 Hle Hseen Hdue).
           destruct Hpush as (H1 & H2 & H3). split; [|split]; done.
        -- intros rest [_ Hrest] _. done.
  - intros [= <- _ <-]. split; [done|]. intros rest Hrest _. done.
Qed.

Lemma handleLines_bufferInvariant opts lines (m : ModuleState) (db : DB Aux) s' batches r :
  bufferInvariant opts m ->
  nondecreasingFrom (lastBlockHeightSeen m) lines ->
  handleLines opts lines (m, db) = (s', batches, r) ->
  bufferInvariant opts s'.1.
Proof.
  revert m db s' batches r.
  induction lines as [|line lines IH]; intros m db s' batches r Hinv Hasc.
  - simpl. by intros [= <- _ _].
  - cbn [handleLines].
    assert (Hasc1 : nondecreasingFrom (lastBlockHeightSeen m) [line]).
    { destruct line as [event|]; simpl in *; [|done]. by destruct Hasc. }
    destruct (handler opts line (m, db)) as [[m1 db1] [exported|]] eqn:Eh.
    + destruct (handler_bufferInvariant opts line m m1 db db1 _ Hinv Hasc1 Eh)
        as [Hinv1 Hrest].
      destruct (handleLines opts lines (m1, db1)) as [[s2 batches2] r2] eqn:Er.
      intros [= <- _ _]. eapply IH; [exact Hinv1| |exact Er].
      by apply Hrest.
    + destruct (handler_bufferInvariant opts line m m1 db db1 _ Hinv Hasc1 Eh)
        as [Hinv1 _].
      by intros [= <- _ _].
Qed.

(** X24: the buffer grows past the batch size only to complete a block.  On
    a stream whose records come in non-decreasing block order, at every
    point of the run the records of the buffer from position [batch - 1] on
    are all of one block (with [batch = 0], all records of the buffer), and
    no buffered record lies below the initial block. *)
Theorem buffer_overflows_within_one_block opts lines (db : DB Aux) s' batches r :
  nondecreasingFrom 0 lines ->
  handleLines opts lines (wasm_init, db) = (s', batches, r) ->
  overflowWithinOneBlock opts s'.1
  /\ forall x, In x (pending s'.1) -> initialBlock opts <= ie_blockHeight x.
Proof.
  intros Hasc Hrun.
  assert (Hinit : bufferInvariant opts wasm_init).
  { split; [|split]; done. }
  by destruct (handleLines_bufferInvariant opts lines wasm_init db s' batches r
                 Hinit Hasc Hrun) as (Htail & _ & Hfloor).
Qed.
End BufferShape.

Lemma buffer_overflows_within_one_block_witness :
  let out := @handleLines sampleCodec unit unit sampleCollaborators sampleOptions
               sampleLines (wasm_init, sampleDB) in
  overflowWithinOneBlock sampleOptions out.1.1.1
  /\ forall x, In x (pending out.1.1.1) -> initialBlock sampleOptions <= ie_blockHeight x.
Proof.
  intros out.
  apply (@buffer_overflows_within_one_block sampleCodec unit unit sampleCollaborators
           sampleOptions sampleLines sampleDB out.1.1 out.1.2 out.2).
  - simpl. repeat split; lia.
  - change (out = (out.1.1, out.1.2, out.2)). clearbody out.
    by destruct out as [[s b] r].
Defined.


(** ** totalPower *)

(** X25: [totalPower] never answers.  The name it looks up in
    [TOTAL_POWER_MAP] carries the prefix ['crates.io:'], which no key of the
    table has, so whatever sub-formulas are plugged in and whatever the state
    holds, the formula rejects and no sub-formula decides its outcome. *)
Theorem totalPower_never_answers (formulas formulas' : VotingFormulas) (env : Env) :
  settled (@totalPower formulas env) = Throws
  /\ settled (@totalPower formulas env) = settled (@totalPower formulas' env).
Proof.
  destruct (@votingPower_always_throws formulas env) as [_ H1].
  destruct (@votingPower_always_throws formulas' env) as [_ H2].
  by rewrite H1, H2.
Qed.
